(** * Shortest paths and structural analysis over weighted edge lists

    A shallow embedding of the pathfinder library: [types.ts],
    [graph-validator.ts], [graph-builder.ts], [priority-queue.ts],
    [path-finder.ts] and [graph-analyzer.ts].

    Modelling conventions.
    - A JavaScript [number] is a [JsNum]: a finite number of integer
      value or one of [Infinity], [-Infinity], [NaN].  Addition is the
      addition of binary64: the exact sum is rounded to 53 significant
      bits, to nearest and ties to even, and is infinite from [2^1024]
      on.  Comparison is exact.  Weights and distances with a
      fractional part are outside the model; the density, a quotient of
      two counts, is kept as a rational.
    - A [Map] is an association list in insertion order with keys
      compared by SameValueZero; a [Set] is a list in insertion order.
    - The two [while] loops whose termination is not structural carry a
      fuel argument; they return [None] only when the fuel runs out, and
      the callers pass a bound that is proved sufficient. *)

From Stdlib Require Import String ZArith QArith List Bool Arith Lia.
From Stdlib Require Import Permutation Sorted.
Import ListNotations.
Open Scope Z_scope.

(* ================================================================= *)
(** ** JavaScript values *)

Inductive JsNum : Type :=
| Fin (z : Z)
| PInf
| NInf
| NaN.

(** Rounding of a natural number to 53 significant bits, to nearest
    and ties to even: [e] is the number of bits that do not fit, [q]
    the 53 leading bits and [r] the bits cut off. *)
Definition round53 (n : Z) : Z :=
  let e := Z.log2 n - 52 in
  if e <=? 0 then n
  else
    let q := Z.shiftr n e in
    let r := n - Z.shiftl q e in
    let half := Z.shiftl 1 (e - 1) in
    let q' := if r <? half then q
              else if half <? r then q + 1
              else if Z.even q then q else q + 1 in
    Z.shiftl q' e.

(** The number that an exact integer result becomes: rounded, and
    infinite when the rounded magnitude reaches [2^1024]. *)
Definition double_of_Z (z : Z) : JsNum :=
  let m := round53 (Z.abs z) in
  if Z.log2 m <? 1024 then Fin (Z.sgn z * m)
  else if z <? 0 then NInf else PInf.

Arguments round53 : simpl never.
Arguments double_of_Z : simpl never.

(** [a + b] on numbers. *)
Definition jsadd (a b : JsNum) : JsNum :=
  match a, b with
  | NaN, _ | _, NaN => NaN
  | PInf, NInf | NInf, PInf => NaN
  | PInf, _ | _, PInf => PInf
  | NInf, _ | _, NInf => NInf
  | Fin x, Fin y => double_of_Z (x + y)
  end.

Definition jsneg (a : JsNum) : JsNum :=
  match a with
  | Fin x => Fin (- x)
  | PInf => NInf
  | NInf => PInf
  | NaN => NaN
  end.

(** [a - b] on numbers. *)
Definition jssub (a b : JsNum) : JsNum := jsadd a (jsneg b).

(** [a < b] on numbers: false as soon as one side is [NaN]. *)
Definition jslt (a b : JsNum) : bool :=
  match a, b with
  | NaN, _ | _, NaN => false
  | Fin x, Fin y => x <? y
  | Fin _, PInf => true
  | Fin _, NInf => false
  | PInf, _ => false
  | NInf, NInf => false
  | NInf, _ => true
  end.

(** [a >= b] on numbers. *)
Definition jsge (a b : JsNum) : bool :=
  match a, b with
  | NaN, _ | _, NaN => false
  | _, _ => negb (jslt a b)
  end.

Definition jsIsNaN (a : JsNum) : bool :=
  match a with NaN => true | _ => false end.

Definition jsIsFinite (a : JsNum) : bool :=
  match a with Fin _ => true | _ => false end.

(** SameValueZero on numbers: the equality of [Map] and [Set] keys
    ([NaN] equals itself; the model has a single zero). *)
Definition JsNum_eqb (a b : JsNum) : bool :=
  match a, b with
  | Fin x, Fin y => x =? y
  | PInf, PInf | NInf, NInf | NaN, NaN => true
  | _, _ => false
  end.

(** [a === b] on numbers: [NaN] differs from everything. *)
Definition jsnum_strict_eq (a b : JsNum) : bool :=
  match a, b with
  | NaN, _ | _, NaN => false
  | _, _ => JsNum_eqb a b
  end.

(** Values that may occupy a slot of an edge handed to the validator:
    the validator is defensive against ill-typed input. *)
Inductive Value : Type :=
| VString (s : string)
| VNumber (n : JsNum)
| VNull
| VUndefined
| VObject (ref : nat)
| VArray (ref : nat).

Inductive JsType : Type := TString | TNumber | TObject | TUndefined.

Definition typeof (v : Value) : JsType :=
  match v with
  | VString _ => TString
  | VNumber _ => TNumber
  | VNull => TObject
  | VUndefined => TUndefined
  | VObject _ => TObject
  | VArray _ => TObject
  end.

Definition JsType_eqb (a b : JsType) : bool :=
  match a, b with
  | TString, TString | TNumber, TNumber
  | TObject, TObject | TUndefined, TUndefined => true
  | _, _ => false
  end.

(* ================================================================= *)
(** ** types.ts *)

(** [type Node = string | number] *)
Inductive Node : Type :=
| NStr (s : string)
| NNum (n : JsNum).

Definition Weight : Type := JsNum.

Record Edge : Type := mkEdge {
  from : Node;
  to : Node;
  weight : Weight
}.

(** SameValueZero on nodes. *)
Definition Node_eqb (a b : Node) : bool :=
  match a, b with
  | NStr s, NStr t => String.eqb s t
  | NNum x, NNum y => JsNum_eqb x y
  | _, _ => false
  end.

(** [a === b] on nodes. *)
Definition strict_eq (a b : Node) : bool :=
  match a, b with
  | NStr s, NStr t => String.eqb s t
  | NNum x, NNum y => jsnum_strict_eq x y
  | _, _ => false
  end.

(** [!node]: the empty string, zero and [NaN] are falsy. *)
Definition node_falsy (n : Node) : bool :=
  match n with
  | NStr s => String.eqb s EmptyString
  | NNum (Fin z) => z =? 0
  | NNum NaN => true
  | NNum _ => false
  end.

Inductive GraphError : Type :=
| EmptyGraph
| InvalidGraph (reason : string).

Inductive PathError : Type :=
| NodeNotFound (node : Node)
| NoPath (src dst : Node).

Record ShortestPath : Type := mkShortestPath {
  path : list Node;
  distance : JsNum
}.

Record GraphAnalysis : Type := mkGraphAnalysis {
  nodeCount : nat;
  edgeCount : nat;
  isConnected : bool;
  components : list (list Node);
  density : Q
}.

(** neverthrow's [Result]. *)
Inductive Result (T E : Type) : Type :=
| Ok (value : T)
| Err (error : E).
Arguments Ok {T E} value.
Arguments Err {T E} error.

Definition isValidWeight (w : Value) : bool :=
  match w with
  | VNumber n => negb (jsIsNaN n) && jsIsFinite n && jsge n (Fin 0)
  | _ => false
  end.

Definition isValidNode (v : Value) : bool :=
  JsType_eqb (typeof v) TString || JsType_eqb (typeof v) TNumber.

(* ================================================================= *)
(** ** Map and Set keyed by nodes *)

Definition JsMap (V : Type) : Type := list (Node * V).

Fixpoint map_get {V} (m : JsMap V) (k : Node) : option V :=
  match m with
  | [] => None
  | (k', v) :: r => if Node_eqb k' k then Some v else map_get r k
  end.

Definition map_has {V} (m : JsMap V) (k : Node) : bool :=
  match map_get m k with Some _ => true | None => false end.

(** [m.set(k, v)]: an existing key keeps its position. *)
Fixpoint map_set {V} (m : JsMap V) (k : Node) (v : V) : JsMap V :=
  match m with
  | [] => [(k, v)]
  | (k', v') :: r =>
      if Node_eqb k' k then (k', v) :: r else (k', v') :: map_set r k v
  end.

Definition map_keys {V} (m : JsMap V) : list Node := map fst m.
Definition map_values {V} (m : JsMap V) : list V := map snd m.
Definition map_size {V} (m : JsMap V) : nat := length m.

Definition JsSet : Type := list Node.

Fixpoint set_has (s : JsSet) (k : Node) : bool :=
  match s with
  | [] => false
  | k' :: r => Node_eqb k' k || set_has r k
  end.

Definition set_add (s : JsSet) (k : Node) : JsSet :=
  if set_has s k then s else s ++ [k].

Definition Graph : Type := JsMap (list Edge).

(* ================================================================= *)
(** ** graph-validator.ts *)

Record RawEdge : Type := mkRawEdge {
  raw_from : Value;
  raw_to : Value;
  raw_weight : Value
}.

(** The three checks made on one edge; [None] when it passes. *)
Definition validateEdge (edge : RawEdge) : option GraphError :=
  if negb (isValidNode (raw_from edge)) || negb (isValidNode (raw_to edge))
  then Some (InvalidGraph "Invalid node type")
  else
    match raw_weight edge with
    | VNumber w =>
        if jsIsNaN w || negb (jsIsFinite w)
        then Some (InvalidGraph "Invalid weight: NaN or Infinity")
        else if jslt w (Fin 0)
        then Some (InvalidGraph "Invalid weight: negative value")
        else None
    | _ => Some (InvalidGraph "Invalid weight: NaN or Infinity")
    end.

Fixpoint validateEdges (edges : list RawEdge) : Result unit GraphError :=
  match edges with
  | [] => Ok tt
  | edge :: rest =>
      match validateEdge edge with
      | Some e => Err e
      | None => validateEdges rest
      end
  end.

(* ================================================================= *)
(** ** graph-builder.ts *)

(** One iteration of the loop of [buildAdjacencyList].  The [push] on
    the array stored under [edge.from] is a write to the map entry. *)
Definition addEdge (graph : Graph) (edge : Edge) : Graph :=
  let graph1 :=
    if negb (map_has graph (from edge)) then map_set graph (from edge) []
    else graph in
  let graph2 :=
    match map_get graph1 (from edge) with
    | Some l => map_set graph1 (from edge) (l ++ [edge])
    | None => graph1
    end in
  if negb (map_has graph2 (to edge)) then map_set graph2 (to edge) []
  else graph2.

Definition buildAdjacencyList (edges : list Edge) : Graph :=
  fold_left addEdge edges [].

(** The statically typed view of a raw edge: the view exists exactly
    when both endpoints are strings or numbers and the weight is a
    number, which is what the validator has established when the
    builder runs. *)
Definition as_node (v : Value) : option Node :=
  match v with
  | VString s => Some (NStr s)
  | VNumber n => Some (NNum n)
  | _ => None
  end.

Definition as_edge (r : RawEdge) : option Edge :=
  match as_node (raw_from r), as_node (raw_to r), raw_weight r with
  | Some f, Some t, VNumber w => Some (mkEdge f t w)
  | _, _, _ => None
  end.

Definition typed_edges (edges : list RawEdge) : list Edge :=
  flat_map (fun r => match as_edge r with Some e => [e] | None => [] end)
           edges.

Definition buildGraph (edges : list RawEdge) : Result Graph GraphError :=
  if Nat.eqb (length edges) 0 then Err EmptyGraph
  else
    match validateEdges edges with
    | Err e => Err e
    | Ok _ => Ok (buildAdjacencyList (typed_edges edges))
    end.

(* ================================================================= *)
(** ** priority-queue.ts *)

Record PriorityQueueItem (T : Type) : Type := mkItem {
  item : T;
  priority : JsNum
}.
Arguments mkItem {T} item priority.
Arguments item {T} p.
Arguments priority {T} p.

Record PriorityQueueState (T : Type) : Type := mkQueue {
  items : list (PriorityQueueItem T)
}.
Arguments mkQueue {T} items.
Arguments items {T} p.

(** [Array.prototype.sort] with a comparator: the sort is stable, [a]
    moves behind [b] only when the comparator is positive, and a [NaN]
    result counts as zero. *)
Fixpoint sort_insert {A} (cmp : A -> A -> JsNum) (x : A) (l : list A)
  : list A :=
  match l with
  | [] => [x]
  | y :: r => if jslt (Fin 0) (cmp x y) then y :: sort_insert cmp x r
              else x :: y :: r
  end.

Definition array_sort {A} (cmp : A -> A -> JsNum) (l : list A) : list A :=
  fold_right (sort_insert cmp) [] l.

Definition createPriorityQueue {T} : PriorityQueueState T := mkQueue [].

Definition enqueuePriorityQueue {T} (queue : PriorityQueueState T)
  (x : T) (p : JsNum) : PriorityQueueState T :=
  let newItems := items queue ++ [mkItem x p] in
  mkQueue (array_sort (fun a b => jssub (priority a) (priority b)) newItems).

Definition dequeuePriorityQueue {T} (queue : PriorityQueueState T)
  : option T * PriorityQueueState T :=
  match items queue with
  | [] => (None, queue)
  | first :: rest => (Some (item first), mkQueue rest)
  end.

Definition isPriorityQueueEmpty {T} (queue : PriorityQueueState T) : bool :=
  Nat.eqb (length (items queue)) 0.

(* ================================================================= *)
(** ** path-finder.ts *)

Record DijkstraResult : Type := mkDijkstraResult {
  distances : JsMap JsNum;
  previous : JsMap (option Node)
}.

(** The mutable locals of [executeDijkstraInternal]. *)
Record DijkstraState : Type := mkState {
  st_distances : JsMap JsNum;
  st_previous : JsMap (option Node);
  st_visited : JsSet;
  st_queue : PriorityQueueState Node
}.

(** [distances.get(n) ?? Infinity] *)
Definition distanceOf (d : JsMap JsNum) (n : Node) : JsNum :=
  match map_get d n with Some x => x | None => PInf end.

(** [graph.get(n) ?? []] *)
Definition neighborsOf (graph : Graph) (n : Node) : list Edge :=
  match map_get graph n with Some l => l | None => [] end.

(** [previous.get(n) ?? null] *)
Definition previousOf (p : JsMap (option Node)) (n : Node) : option Node :=
  match map_get p n with Some x => x | None => None end.

(** First initialisation loop, over [graph.keys()]. *)
Definition initKey (start : Node) (st : DijkstraState) (node : Node)
  : DijkstraState :=
  mkState
    (map_set (st_distances st) node
       (if strict_eq node start then Fin 0 else PInf))
    (map_set (st_previous st) node None)
    (st_visited st) (st_queue st).

(** Second initialisation loop, over the edges of [graph.values()]. *)
Definition initDestination (st : DijkstraState) (edge : Edge)
  : DijkstraState :=
  if negb (map_has (st_distances st) (to edge)) then
    mkState (map_set (st_distances st) (to edge) PInf)
            (map_set (st_previous st) (to edge) None)
            (st_visited st) (st_queue st)
  else st.

Definition initState (graph : Graph) (start : Node) : DijkstraState :=
  let st0 := mkState [] [] [] createPriorityQueue in
  let st1 := fold_left (initKey start) (map_keys graph) st0 in
  let st2 :=
    fold_left (fun st edges => fold_left initDestination edges st)
              (map_values graph) st1 in
  mkState (st_distances st2) (st_previous st2) (st_visited st2)
          (enqueuePriorityQueue createPriorityQueue start (Fin 0)).

(** Body of the [for (const edge of neighbors)] loop. *)
Definition relaxEdge (current : Node) (currentDistance : JsNum)
  (st : DijkstraState) (edge : Edge) : DijkstraState :=
  if set_has (st_visited st) (to edge) then st
  else
    let newDistance := jsadd currentDistance (weight edge) in
    let existingDistance := distanceOf (st_distances st) (to edge) in
    if jslt newDistance existingDistance then
      mkState (map_set (st_distances st) (to edge) newDistance)
              (map_set (st_previous st) (to edge) (Some current))
              (st_visited st)
              (enqueuePriorityQueue (st_queue st) (to edge) newDistance)
    else st.

(** [!current]: [undefined] and falsy nodes. *)
Definition item_falsy (current : option Node) : bool :=
  match current with
  | None => true
  | Some n => node_falsy n
  end.

(** Body of the [while (!isPriorityQueueEmpty(queue))] loop. *)
Definition dijkstraStep (graph : Graph) (st : DijkstraState)
  : DijkstraState :=
  let (current, newQueue) := dequeuePriorityQueue (st_queue st) in
  let st' := mkState (st_distances st) (st_previous st) (st_visited st)
                     newQueue in
  match current with
  | Some c =>
      if item_falsy current || set_has (st_visited st) c then st'
      else
        let st'' := mkState (st_distances st) (st_previous st)
                            (set_add (st_visited st) c) newQueue in
        let currentDistance := distanceOf (st_distances st) c in
        fold_left (relaxEdge c currentDistance) (neighborsOf graph c) st''
  | None => st'
  end.

Fixpoint dijkstraLoop (fuel : nat) (graph : Graph) (st : DijkstraState)
  : option DijkstraState :=
  if isPriorityQueueEmpty (st_queue st) then Some st
  else
    match fuel with
    | O => None
    | S fuel' => dijkstraLoop fuel' graph (dijkstraStep graph st)
    end.

(** Sum of the lengths of all adjacency lists. *)
Definition totalEdges (graph : Graph) : nat :=
  fold_left (fun n edges => (n + length edges)%nat) (map_values graph) O.

(** Every iteration removes one queue entry, and entries are added only
    while a node is being finalized, one per outgoing edge at most. *)
Definition dijkstraFuel (graph : Graph) : nat := S (totalEdges graph).

Definition executeDijkstraInternal (graph : Graph) (start : Node)
  : option DijkstraResult :=
  match dijkstraLoop (dijkstraFuel graph) graph (initState graph start) with
  | Some st => Some (mkDijkstraResult (st_distances st) (st_previous st))
  | None => None
  end.

(** The [while (current !== null)] loop: [path.unshift(current)]. *)
Fixpoint walkBack (fuel : nat) (prev : JsMap (option Node))
  (current : option Node) (acc : list Node) : option (list Node) :=
  match current with
  | None => Some acc
  | Some c =>
      match fuel with
      | O => None
      | S fuel' => walkBack fuel' prev (previousOf prev c) (c :: acc)
      end
  end.

Definition reconstructPathInternal (prev : JsMap (option Node))
  (dist : JsMap JsNum) (target : Node)
  : option (Result ShortestPath PathError) :=
  if negb (map_has dist target) then Some (Err (NodeNotFound target))
  else
    let d := distanceOf dist target in
    if jsnum_strict_eq d PInf then Some (Err (NodeNotFound target))
    else
      match walkBack (S (map_size prev)) prev (Some target) [] with
      | Some p => Some (Ok (mkShortestPath p d))
      | None => None
      end.

Definition findPaths (graph : Graph) (start target : Node)
  : option (Result ShortestPath PathError) :=
  if Nat.eqb (map_size graph) 0 then Some (Err (NodeNotFound start))
  else if negb (map_has graph start) then Some (Err (NodeNotFound start))
  else
    match executeDijkstraInternal graph start with
    | None => None
    | Some r =>
        match reconstructPathInternal (previous r) (distances r) target with
        | None => None
        | Some (Err (NodeNotFound n)) =>
            if negb (map_has (distances r) target)
            then Some (Err (NodeNotFound target))
            else Some (Err (NoPath start target))
        | Some (Err e) => Some (Err e)
        | Some (Ok v) => Some (Ok v)
        end
    end.

(* ================================================================= *)
(** ** graph-analyzer.ts *)

Definition extractAllNodes (graph : Graph) : list Node :=
  let nodes := fold_left set_add (map_keys graph) [] in
  fold_left (fun s edges => fold_left (fun s e => set_add s (to e)) edges s)
            (map_values graph) nodes.

Definition calculateEdgeCount (graph : Graph) : nat :=
  fold_left (fun n edges => (n + length edges)%nat) (map_values graph) O.

Definition calculateDensity (nodeCount edgeCount : nat) : Q :=
  if (nodeCount <=? 1)%nat then 0%Q
  else
    let maxEdges := (nodeCount * (nodeCount - 1))%nat in
    (inject_Z (Z.of_nat edgeCount) / inject_Z (Z.of_nat maxEdges))%Q.

(** The stack of [exploreComponent] is a list whose head is the top:
    [push] conses and [pop] takes the head. *)
Definition addDirectAdjacentNodes (graph : Graph) (current : Node)
  (visited : JsSet) (stack : list Node) : list Node :=
  fold_left
    (fun stack edge =>
       if negb (set_has visited (to edge)) then to edge :: stack else stack)
    (neighborsOf graph current) stack.

Definition addReverseAdjacentNodes (graph : Graph) (current : Node)
  (visited : JsSet) (stack : list Node) : list Node :=
  fold_left
    (fun stack (entry : Node * list Edge) =>
       let (node, nodeEdges) := entry in
       fold_left
         (fun stack edge =>
            if strict_eq (to edge) current && negb (set_has visited node)
            then node :: stack else stack)
         nodeEdges stack)
    graph stack.

Definition addAdjacentNodes (graph : Graph) (current : Node)
  (visited : JsSet) (stack : list Node) : list Node :=
  addReverseAdjacentNodes graph current visited
    (addDirectAdjacentNodes graph current visited stack).

(** The loop of [exploreComponent]; [visited] is the caller's set, so
    the updated set is returned next to the component. *)
Fixpoint exploreLoop (fuel : nat) (graph : Graph) (visited : JsSet)
  (stack : list Node) (component : list Node)
  : option (list Node * JsSet) :=
  match stack with
  | [] => Some (component, visited)
  | current :: rest =>
      match fuel with
      | O => None
      | S fuel' =>
          if set_has visited current
          then exploreLoop fuel' graph visited rest component
          else
            let visited' := set_add visited current in
            exploreLoop fuel' graph visited'
              (addAdjacentNodes graph current visited' rest)
              (component ++ [current])
      end
  end.

(** Number of pushes a visit of [n] can make: one per outgoing edge
    and one per edge arriving at [n]. *)
Definition pushBound (graph : Graph) (n : Node) : nat :=
  (length (neighborsOf graph n)
   + length (filter (fun e => Node_eqb (to e) n)
                    (concat (map_values graph))))%nat.

Definition exploreFuel (graph : Graph) : nat :=
  S (fold_left (fun k n => (k + pushBound graph n)%nat)
               (extractAllNodes graph) O).

Definition exploreComponent (graph : Graph) (startNode : Node)
  (visited : JsSet) : option (list Node * JsSet) :=
  exploreLoop (exploreFuel graph) graph visited [startNode] [].

Fixpoint findComponentsFrom (graph : Graph) (nodes : list Node)
  (visited : JsSet) (components : list (list Node))
  : option (list (list Node)) :=
  match nodes with
  | [] => Some components
  | startNode :: rest =>
      if set_has visited startNode
      then findComponentsFrom graph rest visited components
      else
        match exploreComponent graph startNode visited with
        | None => None
        | Some (component, visited') =>
            findComponentsFrom graph rest visited'
              (components ++ [component])
        end
  end.

Definition findConnectedComponents (graph : Graph) (allNodes : list Node)
  : option (list (list Node)) :=
  findComponentsFrom graph allNodes [] [].

Definition analyzeGraph (graph : Graph)
  : option (Result GraphAnalysis GraphError) :=
  if Nat.eqb (map_size graph) 0 then Some (Err EmptyGraph)
  else
    let allNodes := extractAllNodes graph in
    let nodeCount := length allNodes in
    let edgeCount := calculateEdgeCount graph in
    match findConnectedComponents graph allNodes with
    | None => None
    | Some components =>
        let isConnected := (length components <=? 1)%nat in
        let density := calculateDensity nodeCount edgeCount in
        Some (Ok (mkGraphAnalysis nodeCount edgeCount isConnected
                                  components density))
    end.

(* ================================================================= *)
(** ** examples/usage-example.ts *)

(** A line written with [console.log], by its fields: the [type] of
    the error and, for a query, its two ends. *)
Inductive LogLine : Type :=
| BuildFailed (type : string)
| QueryFailed (start target : Node) (type : string).

Definition graphErrorType (e : GraphError) : string :=
  match e with
  | EmptyGraph => "EmptyGraph"
  | InvalidGraph _ => "InvalidGraph"
  end.

Definition pathErrorType (e : PathError) : string :=
  match e with
  | NodeNotFound _ => "NodeNotFound"
  | NoPath _ _ => "NoPath"
  end.

(** [!shortestPath || path.distance < shortestPath.distance] *)
Definition pickShorter (shortestPath : option ShortestPath)
  (p : ShortestPath) : option ShortestPath :=
  match shortestPath with
  | None => Some p
  | Some b => if jslt (distance p) (distance b) then Some p else Some b
  end.

(** The [for (const target of targets)] loop, with the lines written
    so far; the outer [option] is the fuel of the queries. *)
Fixpoint shortestAmong (graph : Graph) (start : Node) (targets : list Node)
  (shortestPath : option ShortestPath) (log : list LogLine)
  : option (option ShortestPath * list LogLine) :=
  match targets with
  | [] => Some (shortestPath, log)
  | target :: rest =>
      match findPaths graph start target with
      | None => None
      | Some (Err e) =>
          shortestAmong graph start rest shortestPath
            (log ++ [QueryFailed start target (pathErrorType e)])
      | Some (Ok p) =>
          shortestAmong graph start rest (pickShorter shortestPath p) log
      end
  end.

(** [null] is [None]; the result comes with the lines written to the
    console. *)
Definition findShortestAmongMultiple (edges : list RawEdge)
  (start : string) (targets : list string)
  : option (option ShortestPath * list LogLine) :=
  match buildGraph edges with
  | Err e => Some (None, [BuildFailed (graphErrorType e)])
  | Ok graph => shortestAmong graph (NStr start) (map NStr targets) None []
  end.

(* ================================================================= *)
(** * Specification vocabulary *)

(** ** Validation and construction *)

Definition string_or_number (v : Value) : Prop :=
  match v with
  | VString _ | VNumber _ => True
  | _ => False
  end.

(** What the three checks accept. *)
Definition edge_accepted (r : RawEdge) : Prop :=
  string_or_number (raw_from r) /\ string_or_number (raw_to r) /\
  exists w, raw_weight r = VNumber (Fin w) /\ 0 <= w.

(** The weights the validator lets through. *)
Definition valid_weight (w : Weight) : Prop := exists z, w = Fin z /\ 0 <= z.

(** The integers that are numbers of JavaScript: those that rounding
    leaves alone. *)
Definition is_double (z : Z) : Prop := double_of_Z z = Fin z.

(** The node well-formedness predicate in the words of the
    specification: a text label or a finite number. *)
Definition spec_well_formed_node (v : Value) : bool :=
  match v with
  | VString _ => true
  | VNumber n => jsIsFinite n
  | _ => false
  end.

(** [g] is the adjacency list of the edges [es]. *)
Definition adjacency_of (es : list Edge) (g : Graph) : Prop :=
  NoDup (map_keys g) /\
  (forall k, In k (map_keys g) <-> In k (map from es) \/ In k (map to es)) /\
  (forall k, In k (map_keys g) ->
             map_get g k = Some (filter (fun e => Node_eqb (from e) k) es)).

(** ** Graphs, walks and weights *)

(** A node the search knows: a key, or the destination of a stored
    edge. *)
Definition known (graph : Graph) (v : Node) : Prop :=
  In v (map_keys graph) \/
  exists es e, In es (map_values graph) /\ In e es /\ to e = v.

(** [Walk g u es v]: the edges [es] lead from [u] to [v], each one
    stored in the adjacency list of the node it leaves. *)
Inductive Walk (g : Graph) (u : Node) : list Edge -> Node -> Prop :=
| Walk_nil : Walk g u [] u
| Walk_snoc es v e :
    Walk g u es v -> In e (neighborsOf g v) -> Walk g u (es ++ [e]) (to e).

(** The nodes met along edges leaving [u]. *)
Definition nodes_of (u : Node) (es : list Edge) : list Node :=
  u :: map to es.

(** The weights added in path order, as the search adds them. *)
Definition weight_of (es : list Edge) : JsNum :=
  fold_left (fun a e => jsadd a (weight e)) es (Fin 0).

(** Every stored weight is one the validator lets through. *)
Definition graph_weights_valid (g : Graph) : Prop :=
  forall es e, In es (map_values g) -> In e es -> valid_weight (weight e).

(** No known node is falsy: none is [0], the empty string or [NaN]. *)
Definition graph_nodes_truthy (g : Graph) : Prop :=
  forall v, known g v -> node_falsy v = false.

(** A falsy node ([0], the empty string, [NaN]) is a sink: no edge is
    stored under it. *)
Definition falsy_nodes_are_sinks (g : Graph) : Prop :=
  forall v, node_falsy v = true -> neighborsOf g v = [].

(** The weights along a walk from [s] that repeats no node add up,
    from left to right, to a finite number: no partial sum overflows. *)
Definition path_sums_finite (g : Graph) (s : Node) : Prop :=
  forall es t, Walk g s es t -> NoDup (nodes_of s es) ->
               exists z, weight_of es = Fin z.

(** Every stored weight is finite and at most [W] in absolute value. *)
Definition weights_within (g : Graph) (W : Z) : Prop :=
  forall es e, In es (map_values g) -> In e es ->
               exists z, weight e = Fin z /\ Z.abs z <= W.

(** No node of the graph is [NaN]. *)
Definition graph_nodes_not_NaN (g : Graph) : Prop :=
  forall v, known g v -> v <> NNum NaN.

(** Executable forms of the conditions on graphs. *)
Definition nodes_truthy_b (g : Graph) : bool :=
  forallb (fun v => negb (node_falsy v)) (extractAllNodes g).

Definition nodes_not_NaN_b (g : Graph) : bool :=
  forallb (fun v => negb (Node_eqb v (NNum NaN))) (extractAllNodes g).

Definition falsy_sinks_b (g : Graph) : bool :=
  forallb (fun entry : Node * list Edge =>
             negb (node_falsy (fst entry)) ||
             match snd entry with [] => true | _ => false end) g.

Definition weights_within_b (g : Graph) (W : Z) : bool :=
  forallb (forallb (fun e => match weight e with
                             | Fin z => Z.abs z <=? W
                             | _ => false
                             end))
          (map_values g).

(** ** Termination measures *)

(** Edges stored under keys that are not finalized yet: with the
    length of the queue, the measure that every iteration of the search
    loop decreases. *)
Definition pendingEdges (graph : Graph) (visited : JsSet) : nat :=
  list_sum
    (map (fun entry : Node * list Edge =>
            if set_has visited (fst entry) then O else length (snd entry))
         graph).

Definition potential (graph : Graph) (st : DijkstraState) : nat :=
  (length (items (st_queue st)) + pendingEdges graph (st_visited st))%nat.

(** Pushes still possible from the nodes of [nodes] that are not
    visited: with the height of the stack, the measure that every
    iteration of the exploration loop decreases. *)
Definition pendingPushes (graph : Graph) (nodes : list Node)
  (visited : JsSet) : nat :=
  list_sum
    (map (fun n => if set_has visited n then O else pushBound graph n)
         nodes).

(** Position of a node in the finalization order; the length of the
    order when it is not in it. *)
Fixpoint index_of (order : list Node) (x : Node) : nat :=
  match order with
  | [] => O
  | y :: r => if Node_eqb y x then O else S (index_of r x)
  end.

(** ** Invariants of the search *)

(** State of the initialisation loops after the keys [ks] and some
    destinations have been entered. *)
Definition init_inv (start : Node) (ks : list Node) (st : DijkstraState)
  : Prop :=
  st_visited st = [] /\
  st_queue st = createPriorityQueue /\
  map_keys (st_distances st) = map_keys (st_previous st) /\
  (forall v, In v ks -> In v (map_keys (st_distances st))) /\
  (forall v, previousOf (st_previous st) v = None) /\
  (forall v, distanceOf (st_distances st) v
             = if set_has ks v && strict_eq v start then Fin 0 else PInf).

(** What holds of the locals of [executeDijkstraInternal] at every
    iteration of its main loop. *)
Record search_inv (g : Graph) (start : Node) (st : DijkstraState)
  : Prop := mkSearchInv {
  inv_keys :
    map_keys (st_distances st) = map_keys (st_previous st);
  inv_known :
    forall v, In v (map_keys (st_distances st)) <-> known g v;
  inv_nodup : NoDup (st_visited st);
  inv_rank :
    forall v u, previousOf (st_previous st) v = Some u ->
      (index_of (st_visited st) u < index_of (st_visited st) v)%nat;
  inv_edge :
    forall v u, previousOf (st_previous st) v = Some u ->
      exists e, In e (neighborsOf g u) /\ to e = v /\
        distanceOf (st_distances st) v
        = jsadd (distanceOf (st_distances st) u) (weight e) /\
        jslt (distanceOf (st_distances st) v) PInf = true;
  inv_root :
    forall v, previousOf (st_previous st) v = None ->
      distanceOf (st_distances st) v = PInf \/
      (v = start /\ distanceOf (st_distances st) v = Fin 0);
  inv_start_seen :
    set_has (st_visited st) start = true \/
    (st_visited st = [] /\
     forall it, In it (items (st_queue st)) -> item it = start);
  inv_start_root : previousOf (st_previous st) start = None;
  inv_start_distance :
    distanceOf (st_distances st) start
    = if set_has (map_keys g) start && strict_eq start start
      then Fin 0 else PInf
}.

(** The part of the loop invariant that makes finite distance coincide
    with reachability; [reach_closed] speaks of the nodes on a list so
    that it can exclude the node being expanded. *)
Record reach_core (g : Graph) (st : DijkstraState) : Prop := mkReachCore {
  rc_fin :
    forall v, distanceOf (st_distances st) v = PInf \/
              exists z, distanceOf (st_distances st) v = Fin z;
  rc_queue :
    forall it, In it (items (st_queue st)) ->
      node_falsy (item it) = true \/
      jslt (distanceOf (st_distances st) (item it)) PInf = true;
  rc_visited :
    forall c, In c (st_visited st) ->
      jslt (distanceOf (st_distances st) c) PInf = true;
  rc_frontier :
    forall v, node_falsy v = false ->
      jslt (distanceOf (st_distances st) v) PInf = true ->
      In v (st_visited st) \/
      exists it, In it (items (st_queue st)) /\ item it = v
}.

Definition reach_closed (g : Graph) (st : DijkstraState) (c : Node)
  (es : list Edge) : Prop :=
  forall e, In e es ->
    jslt (distanceOf (st_distances st) (to e)) PInf = true.

Definition reach_inv (g : Graph) (st : DijkstraState) : Prop :=
  reach_core g st /\
  forall c, In c (st_visited st) -> reach_closed g st c (neighborsOf g c).

(** Inner loop: [c] is being expanded from its finite distance [d]. *)
Definition core_inner (g : Graph) (c : Node) (d : JsNum)
  (st : DijkstraState) : Prop :=
  reach_core g st /\
  In c (st_visited st) /\
  distanceOf (st_distances st) c = d /\
  exists z, d = Fin z.

(** Every node at a distance below [Infinity] is at the end of a walk
    from the start that repeats no node, runs through finalized nodes
    and adds up to that distance. *)
Definition tree_inv (g : Graph) (start : Node) (st : DijkstraState)
  : Prop :=
  forall v, jslt (distanceOf (st_distances st) v) PInf = true ->
    exists es,
      Walk g start es v /\
      weight_of es = distanceOf (st_distances st) v /\
      NoDup (nodes_of start es) /\
      forall x, In x (nodes_of start es) -> x = v \/ In x (st_visited st).

(** Inner loop: [c] is being expanded from distance [d], the edges
    [done] of its list have been relaxed. *)
Definition reach_inner (g : Graph) (c : Node) (d : JsNum)
  (done : list Edge) (st : DijkstraState) : Prop :=
  reach_core g st /\
  In c (st_visited st) /\
  distanceOf (st_distances st) c = d /\
  (exists z, d = Fin z) /\
  (forall c', In c' (st_visited st) -> c' <> c ->
              reach_closed g st c' (neighborsOf g c')) /\
  reach_closed g st c done.

(** The invariant under which finite distance is reachability when no
    partial sum overflows, and its form inside the inner loop. *)
Definition safe_inv (g : Graph) (start : Node) (st : DijkstraState)
  : Prop :=
  reach_inv g st /\ tree_inv g start st.

Definition safe_inner (g : Graph) (start : Node) (c : Node) (d : JsNum)
  (done : list Edge) (st : DijkstraState) : Prop :=
  reach_inner g c d done st /\ tree_inv g start st.

(** [a] is extracted no later than [b]. *)
Definition prio_le (a b : PriorityQueueItem Node) : Prop :=
  jslt (priority b) (priority a) = false.

(** The part of the loop invariant about the queue that makes the
    distances of finalized nodes minimal. *)
Record opt_core (g : Graph) (st : DijkstraState) : Prop := mkOptCore {
  oc_prio :
    forall it, In it (items (st_queue st)) ->
      (exists z, priority it = Fin z) /\
      jslt (priority it) (distanceOf (st_distances st) (item it)) = false;
  oc_entry :
    forall v z, node_falsy v = false -> ~ In v (st_visited st) ->
      distanceOf (st_distances st) v = Fin z ->
      In (mkItem v (Fin z)) (items (st_queue st));
  oc_mono :
    forall c it, In c (st_visited st) -> In it (items (st_queue st)) ->
      jslt (priority it) (distanceOf (st_distances st) c) = false;
  oc_sorted : StronglySorted prio_le (items (st_queue st));
  oc_double :
    forall v z, distanceOf (st_distances st) v = Fin z ->
                0 <= z /\ is_double z
}.

(** No edge of [es], taken out of [c], improves the distance of its
    destination. *)
Definition relaxed_from (st : DijkstraState) (c : Node) (es : list Edge)
  : Prop :=
  forall e, In e es ->
    jslt (jsadd (distanceOf (st_distances st) c) (weight e))
         (distanceOf (st_distances st) (to e)) = false.

Definition opt_inv (g : Graph) (st : DijkstraState) : Prop :=
  reach_core g st /\ opt_core g st /\
  forall c, In c (st_visited st) -> relaxed_from st c (neighborsOf g c).

Definition opt_inner (g : Graph) (c : Node) (d : JsNum)
  (done : list Edge) (st : DijkstraState) : Prop :=
  core_inner g c d st /\ opt_core g st /\
  (forall c', In c' (st_visited st) ->
              jslt d (distanceOf (st_distances st) c') = false) /\
  (forall c', In c' (st_visited st) -> c' <> c ->
              relaxed_from st c' (neighborsOf g c')) /\
  relaxed_from st c done.

(** ** Undirected reachability and the exploration *)

(** An edge stored under the key [u] ends at [v]. *)
Definition stored_edge (g : Graph) (u v : Node) : Prop :=
  exists es e, In (u, es) g /\ In e es /\ to e = v.

(** Edges read in both directions. *)
Definition adjacent (g : Graph) (u v : Node) : Prop :=
  stored_edge g u v \/ stored_edge g v u.

(** Undirected reachability. *)
Inductive Connected (g : Graph) (u : Node) : Node -> Prop :=
| Connected_refl : Connected g u u
| Connected_step v w :
    Connected g u v -> adjacent g v w -> Connected g u w.

(** A set of nodes that no edge leaves, in either direction. *)
Definition closed_set (g : Graph) (V : JsSet) : Prop :=
  forall u v, In u V -> adjacent g u v -> In v V.

(** [comp] is the class of each of its members. *)
Definition is_class (g : Graph) (comp : list Node) : Prop :=
  comp <> [] /\
  forall u, In u comp -> forall v, In v comp <-> Connected g u v.

(** State of [exploreComponent] started at [n] with the visited set
    [V0]. *)
Record explore_inv (g : Graph) (V0 : JsSet) (n : Node)
  (V : JsSet) (stack component : list Node) : Prop := mkExploreInv {
  ei_visited : forall x, In x V <-> In x V0 \/ In x component;
  ei_fresh : forall x, In x component -> ~ In x V0;
  ei_nodup : NoDup component;
  ei_connected :
    forall x, In x stack \/ In x component -> Connected g n x;
  ei_frontier :
    forall u v, In u component -> adjacent g u v -> In v V \/ In v stack;
  ei_start : In n component \/ In n stack
}.

(** State of [findConnectedComponents] between two start nodes. *)
Record components_inv (g : Graph) (V : JsSet)
  (components : list (list Node)) : Prop := mkComponentsInv {
  ci_closed : closed_set g V;
  ci_visited : forall x, In x V <-> In x (concat components);
  ci_nodup : NoDup (concat components);
  ci_known : forall x, In x V -> known g x;
  ci_class : forall comp, In comp components -> is_class g comp
}.

(** ** Sample inputs *)

Definition rawEdge (a b : string) (w : Z) : RawEdge :=
  mkRawEdge (VString a) (VString b) (VNumber (Fin w)).

Definition rawNumEdge (a b : Z) (w : Z) : RawEdge :=
  mkRawEdge (VNumber (Fin a)) (VNumber (Fin b)) (VNumber (Fin w)).

Definition basicEdges : list RawEdge :=
  [rawEdge "A" "B" 4; rawEdge "A" "C" 2; rawEdge "B" "C" 1;
   rawEdge "B" "D" 5; rawEdge "C" "D" 8; rawEdge "C" "E" 10;
   rawEdge "D" "E" 2].

Definition basicGraph : Graph :=
  [(NStr "A", [mkEdge (NStr "A") (NStr "B") (Fin 4);
               mkEdge (NStr "A") (NStr "C") (Fin 2)]);
   (NStr "B", [mkEdge (NStr "B") (NStr "C") (Fin 1);
               mkEdge (NStr "B") (NStr "D") (Fin 5)]);
   (NStr "C", [mkEdge (NStr "C") (NStr "D") (Fin 8);
               mkEdge (NStr "C") (NStr "E") (Fin 10)]);
   (NStr "D", [mkEdge (NStr "D") (NStr "E") (Fin 2)]);
   (NStr "E", [])].

Definition disconnectedEdges : list RawEdge :=
  [rawEdge "A" "B" 1; rawEdge "C" "D" 2].

Definition disconnectedGraph : Graph :=
  [(NStr "A", [mkEdge (NStr "A") (NStr "B") (Fin 1)]);
   (NStr "B", []);
   (NStr "C", [mkEdge (NStr "C") (NStr "D") (Fin 2)]);
   (NStr "D", [])].

(** Numeric nodes: a cheap route [1 -> 0 -> 2] through node [0] and a
    dear direct edge [1 -> 2]. *)
Definition detourEdges : list RawEdge :=
  [rawNumEdge 1 0 1; rawNumEdge 0 2 1; rawNumEdge 1 2 10].

Definition detourGraph : Graph :=
  [(NNum (Fin 1), [mkEdge (NNum (Fin 1)) (NNum (Fin 0)) (Fin 1);
                   mkEdge (NNum (Fin 1)) (NNum (Fin 2)) (Fin 10)]);
   (NNum (Fin 0), [mkEdge (NNum (Fin 0)) (NNum (Fin 2)) (Fin 1)]);
   (NNum (Fin 2), [])].

(** What the builder returns for the single edge [0 -> 1] of weight 5. *)
Definition zeroStartGraph : Graph :=
  [(NNum (Fin 0), [mkEdge (NNum (Fin 0)) (NNum (Fin 1)) (Fin 5)]);
   (NNum (Fin 1), [])].

Definition nanEndpointEdges : list RawEdge :=
  [mkRawEdge (VNumber NaN) (VString "B") (VNumber (Fin 1))].

Definition nanGraph : Graph :=
  [(NNum NaN, [mkEdge (NNum NaN) (NStr "B") (Fin 1)]);
   (NStr "B", [])].

(** [NaN -> B] and [A -> NaN]: one component when edges are read in
    both directions. *)
Definition nanBridgeEdges : list RawEdge :=
  [mkRawEdge (VNumber NaN) (VString "B") (VNumber (Fin 1));
   mkRawEdge (VString "A") (VNumber NaN) (VNumber (Fin 1))].

Definition nanBridgeGraph : Graph :=
  [(NNum NaN, [mkEdge (NNum NaN) (NStr "B") (Fin 1)]);
   (NStr "B", []);
   (NStr "A", [mkEdge (NStr "A") (NNum NaN) (Fin 1)])].

Definition negativeThenNullEdges : list RawEdge :=
  [rawEdge "A" "B" (-1);
   mkRawEdge VNull (VString "C") (VNumber (Fin 2))].

Definition nullEndpointEdge : RawEdge :=
  mkRawEdge VNull (VString "C") (VNumber (Fin 2)).






(** Weights just above [2^53], where a sum is rounded: the sum of the
    weights along [A -> B -> C] lies half way between two numbers. *)
Definition roundingEdges : list RawEdge :=
  [rawEdge "A" "B" (2 ^ 53 + 2); rawEdge "B" "C" 1;
   rawEdge "A" "C" (2 ^ 53 + 4)].

Definition roundingGraph : Graph :=
  [(NStr "A", [mkEdge (NStr "A") (NStr "B") (Fin (2 ^ 53 + 2));
               mkEdge (NStr "A") (NStr "C") (Fin (2 ^ 53 + 4))]);
   (NStr "B", [mkEdge (NStr "B") (NStr "C") (Fin 1)]);
   (NStr "C", [])].

(** Three parallel edges between two nodes. *)
Definition parallelGraph : Graph :=
  [(NStr "A", [mkEdge (NStr "A") (NStr "B") (Fin 1);
               mkEdge (NStr "A") (NStr "B") (Fin 1);
               mkEdge (NStr "A") (NStr "B") (Fin 1)]);
   (NStr "B", [])].

(** ** Vocabulary for the further properties *)

(** The three type guards applied to one raw edge. *)
Definition guards_pass (r : RawEdge) : Prop :=
  isValidNode (raw_from r) = true /\ isValidNode (raw_to r) = true /\
  isValidWeight (raw_weight r) = true.

(** Endpoints in order of appearance, [from] before [to]. *)
Definition endpoints (es : list Edge) : list Node :=
  flat_map (fun e => [from e; to e]) es.

(** State of [exploreComponent] started at [n] with the visited set
    [V0], in what holds on every graph. *)
Record explore_sound (g : Graph) (V0 : JsSet) (n : Node)
  (V : JsSet) (stack component : list Node) : Prop := mkExploreSound {
  es_visited : forall x, In x V <-> In x V0 \/ In x component;
  es_fresh : forall x, In x component -> ~ In x V0;
  es_nodup : NoDup component;
  es_connected :
    forall x, In x stack \/ In x component -> Connected g n x;
  es_start : In n component \/ In n stack
}.

(** State of [findConnectedComponents] between two start nodes, in
    what holds on every graph. *)
Record partition_inv (g : Graph) (V : JsSet)
  (components : list (list Node)) : Prop := mkPartitionInv {
  pi_visited : forall x, In x V <-> In x (concat components);
  pi_nodup : NoDup (concat components);
  pi_known : forall x, In x V -> known g x;
  pi_connected :
    forall comp, In comp components ->
      comp <> [] /\ forall u v, In u comp -> In v comp -> Connected g u v
}.

(** ** Further sample inputs *)

Definition nanWeightEdge : RawEdge :=
  mkRawEdge (VString "B") (VString "C") (VNumber NaN).

Definition negativeWeightEdge : RawEdge :=
  mkRawEdge (VString "B") (VString "C") (VNumber (Fin (-3))).

(** The entry made of a node and a finite priority, and the queue
    after the entries of [l] have been inserted in order. *)
Definition entry (p : Node * Z) : PriorityQueueItem Node :=
  mkItem (fst p) (Fin (snd p)).

Definition enqueueAll (l : list (Node * Z)) (q : PriorityQueueState Node)
  : PriorityQueueState Node :=
  fold_left (fun q p => enqueuePriorityQueue q (fst p) (Fin (snd p))) l q.

Definition sampleQueue : PriorityQueueState Node :=
  mkQueue [mkItem (NStr "a") (Fin 1); mkItem (NStr "b") (Fin 3);
           mkItem (NStr "c") (Fin 3); mkItem (NStr "d") (Fin 7)].

(** The answers of the successful queries and the lines of the failed
    ones, in the order of the targets. *)
Definition successes (g : Graph) (s : Node) (targets : list Node)
  : list ShortestPath :=
  flat_map (fun t => match findPaths g s t with
                     | Some (Ok p) => [p]
                     | _ => []
                     end) targets.

Definition failures (g : Graph) (s : Node) (targets : list Node)
  : list LogLine :=
  flat_map (fun t => match findPaths g s t with
                     | Some (Err e) => [QueryFailed s t (pathErrorType e)]
                     | _ => []
                     end) targets.

(** The edges of the example run of [findShortestAmongMultiple]. *)
Definition testEdges : list RawEdge :=
  [rawEdge "S" "A" 10; rawEdge "S" "B" 5; rawEdge "A" "T1" 1;
   rawEdge "B" "T2" 8; rawEdge "B" "T3" 3].
(* ================================================================= *)
(** * Arithmetic *)

(** ** Rounding *)

Lemma round53_small n : 0 <= n < 2 ^ 53 -> round53 n = n.
Proof.
  intros [H0 H1]. unfold round53.
  assert (H : Z.log2 n <= 52).
  { destruct (Z.eq_dec n 0) as [->|Hn]; [simpl; lia|].
    apply Z.lt_succ_r. apply Z.log2_lt_pow2; lia. }
  destruct (Z.leb_spec (Z.log2 n - 52) 0); [reflexivity|lia].
Qed.

(** The shape of a rounded number above [2^53]: [q] or [q + 1] times
    the spacing, decided by the bits cut off. *)
Lemma round53_large n :
  0 < Z.log2 n - 52 ->
  let P := 2 ^ (Z.log2 n - 52) in
  let q := n / P in
  let r := n mod P in
  0 < P /\ 2 ^ 52 <= q < 2 ^ 53 /\ n = q * P + r /\ 0 <= r < P /\
  2 ^ Z.log2 n = 2 ^ 52 * P /\
  ((r * 2 < P /\ round53 n = q * P) \/
   (P < r * 2 /\ round53 n = (q + 1) * P) \/
   (r * 2 = P /\ (round53 n = q * P \/ round53 n = (q + 1) * P))).
Proof.
  intros He P q r.
  assert (Hn : 0 < n).
  { destruct (Z.lt_trichotomy n 0) as [H|[H|H]]; [|subst n|assumption].
    - rewrite Z.log2_nonpos in He; lia.
    - simpl in He. lia. }
  assert (HP : 0 < P) by (apply Z.pow_pos_nonneg; lia).
  destruct (Z.log2_spec n Hn) as [Hlo Hhi].
  assert (HL : 2 ^ Z.log2 n = 2 ^ 52 * P).
  { unfold P. rewrite <- Z.pow_add_r by lia. f_equal. lia. }
  assert (HL1 : 2 ^ Z.succ (Z.log2 n) = 2 ^ 53 * P).
  { unfold P. rewrite <- Z.pow_add_r by lia. f_equal. lia. }
  assert (Hdiv : n = q * P + r).
  { unfold q, r. rewrite Z.mul_comm. apply Z.div_mod. lia. }
  assert (Hr : 0 <= r < P) by (apply Z.mod_pos_bound; assumption).
  assert (Hq : 2 ^ 52 <= q < 2 ^ 53).
  { split.
    - unfold q. apply Z.div_le_lower_bound; [assumption|]. lia.
    - unfold q. apply Z.div_lt_upper_bound; [assumption|]. lia. }
  split; [assumption|]. split; [assumption|]. split; [assumption|].
  split; [assumption|]. split; [assumption|].
  assert (Hhalf : Z.shiftl 1 (Z.log2 n - 52 - 1) * 2 = P).
  { rewrite Z.shiftl_mul_pow2 by lia. rewrite Z.mul_1_l.
    unfold P. replace (Z.log2 n - 52) with (Z.succ (Z.log2 n - 52 - 1)) at 2
      by lia.
    rewrite Z.pow_succ_r by lia. lia. }
  unfold round53.
  destruct (Z.leb_spec (Z.log2 n - 52) 0) as [H|_]; [lia|].
  cbv zeta. set (half := Z.shiftl 1 (Z.log2 n - 52 - 1)) in *.
  rewrite Z.shiftr_div_pow2 by lia.
  rewrite !Z.shiftl_mul_pow2 by lia. fold P. fold q.
  replace (n - q * P) with r by lia.
  destruct (Z.ltb_spec r half) as [H1|H1].
  - left. split; [lia|reflexivity].
  - destruct (Z.ltb_spec half r) as [H2|H2].
    + right. left. split; [lia|reflexivity].
    + right. right. split; [lia|].
      destruct (Z.even q); auto.
Qed.

Lemma round53_nonneg n : 0 <= n -> 0 <= round53 n.
Proof.
  intro Hn. destruct (Z.leb_spec (Z.log2 n - 52) 0) as [H|H].
  - unfold round53. destruct (Z.leb_spec (Z.log2 n - 52) 0); [assumption|lia].
  - destruct (round53_large n H) as (HP & Hq & _ & _ & _ & Hc).
    destruct Hc as [[_ ->]|[[_ ->]|[_ [-> | ->]]]]; nia.
Qed.

Lemma round53_pos n : 0 < n -> 0 < round53 n.
Proof.
  intro Hn. destruct (Z.leb_spec (Z.log2 n - 52) 0) as [H|H].
  - unfold round53. destruct (Z.leb_spec (Z.log2 n - 52) 0); [assumption|lia].
  - destruct (round53_large n H) as (HP & Hq & _ & _ & _ & Hc).
    destruct Hc as [[_ ->]|[[_ ->]|[_ [-> | ->]]]]; nia.
Qed.

(** A rounded number stays between the powers of two around it. *)
Lemma round53_bounds n :
  0 < n -> 2 ^ Z.log2 n <= round53 n <= 2 ^ Z.succ (Z.log2 n).
Proof.
  intro Hn. destruct (Z.log2_spec n Hn) as [Hlo Hhi].
  destruct (Z.leb_spec (Z.log2 n - 52) 0) as [H|H].
  - unfold round53. destruct (Z.leb_spec (Z.log2 n - 52) 0); lia.
  - destruct (round53_large n H) as (HP & Hq & _ & _ & HL & Hc).
    assert (HL1 : 2 ^ Z.succ (Z.log2 n) = 2 ^ 53 * 2 ^ (Z.log2 n - 52)).
    { rewrite <- Z.pow_add_r by lia. f_equal. lia. }
    rewrite HL, HL1.
    destruct Hc as [[_ ->]|[[_ ->]|[_ [-> | ->]]]]; nia.
Qed.

Lemma round53_mono a b : 0 <= a <= b -> round53 a <= round53 b.
Proof.
  intros [Ha Hab].
  destruct (Z.eq_dec a 0) as [->|Ha0].
  { unfold round53 at 1. simpl. apply round53_nonneg. lia. }
  assert (Ha' : 0 < a) by lia. assert (Hb' : 0 < b) by lia.
  pose proof (Z.log2_le_mono a b Hab) as HL.
  destruct (Z.leb_spec (Z.log2 b - 52) 0) as [Hb|Hb].
  - (* both below 2^53 *)
    unfold round53.
    destruct (Z.leb_spec (Z.log2 a - 52) 0); [|lia].
    destruct (Z.leb_spec (Z.log2 b - 52) 0); lia.
  - destruct (Z.eq_dec (Z.log2 a) (Z.log2 b)) as [E|E].
    + (* the same spacing *)
      assert (Ha2 : 0 < Z.log2 a - 52) by lia.
      destruct (round53_large a Ha2) as (HP & Hqa & Hda & Hra & _ & Hca).
      destruct (round53_large b Hb) as (_ & Hqb & Hdb & Hrb & _ & Hcb).
      rewrite E in *.
      set (P := 2 ^ (Z.log2 b - 52)) in *.
      set (qa := a / P) in *. set (ra := a mod P) in *.
      set (qb := b / P) in *. set (rb := b mod P) in *.
      assert (Hq : qa <= qb) by (apply Z.div_le_mono; lia).
      destruct (Z.eq_dec qa qb) as [Eq|Nq].
      * assert (Hr : ra <= rb) by nia.
        assert (Hodd : round53 a = round53 b \/ ra < rb).
        { destruct (Z.eq_dec ra rb) as [Er|Nr]; [left|right; lia].
          f_equal. lia. }
        destruct Hodd as [->|Hlt]; [lia|].
        destruct Hca as [[H1 ->]|[[H1 ->]|[H1 [-> | ->]]]];
          destruct Hcb as [[H2 ->]|[[H2 ->]|[H2 [-> | ->]]]]; nia.
      * assert (Hq1 : qa + 1 <= qb) by lia.
        destruct Hca as [[H1 ->]|[[H1 ->]|[H1 [-> | ->]]]];
          destruct Hcb as [[H2 ->]|[[H2 ->]|[H2 [-> | ->]]]]; nia.
    + (* a lower binade *)
      destruct (round53_bounds a Ha') as [_ Hup].
      destruct (round53_bounds b Hb') as [Hlow _].
      assert (2 ^ Z.succ (Z.log2 a) <= 2 ^ Z.log2 b)
        by (apply Z.pow_le_mono_r; lia).
      lia.
Qed.

Lemma round53_idem n : 0 <= n -> round53 (round53 n) = round53 n.
Proof.
  intro Hn. destruct (Z.leb_spec (Z.log2 n - 52) 0) as [H|H].
  - unfold round53 at 2.
    destruct (Z.leb_spec (Z.log2 n - 52) 0); [|lia].
    unfold round53. destruct (Z.leb_spec (Z.log2 n - 52) 0); [reflexivity|lia].
  - destruct (round53_large n H) as (HP & Hq & _ & _ & HL & Hc).
    set (e := Z.log2 n - 52) in *. set (P := 2 ^ e) in *.
    set (q := n / P) in *.
    assert (Hcase : exists q', round53 n = q' * P /\ 2 ^ 52 <= q' <= 2 ^ 53).
    { destruct Hc as [[_ ->]|[[_ ->]|[_ [-> | ->]]]]; eexists; split;
        try reflexivity; lia. }
    destruct Hcase as (q' & -> & Hq').
    assert (Hm : 0 < q' * P) by nia.
    destruct (Z.eq_dec q' (2 ^ 53)) as [->|Hne].
    + (* the next power of two *)
      assert (Hlog : Z.log2 (2 ^ 53 * P) = 53 + e).
      { unfold P. rewrite <- Z.pow_add_r by lia. apply Z.log2_pow2. lia. }
      assert (He' : 0 < Z.log2 (2 ^ 53 * P) - 52) by lia.
      destruct (round53_large (2 ^ 53 * P) He')
        as (HP' & Hq2 & Hd2 & Hr2 & _ & Hc2).
      rewrite Hlog in *.
      assert (EP : 2 ^ (53 + e - 52) = 2 * P).
      { unfold P. replace (53 + e - 52) with (Z.succ e) by lia.
        rewrite Z.pow_succ_r by lia. reflexivity. }
      rewrite EP in *.
      assert (Hr0 : (2 ^ 53 * P) mod (2 * P) = 0).
      { replace (2 ^ 53 * P) with (2 ^ 52 * (2 * P)) by lia.
        apply Z.mod_mul. lia. }
      assert (Hq0 : (2 ^ 53 * P) / (2 * P) = 2 ^ 52).
      { replace (2 ^ 53 * P) with (2 ^ 52 * (2 * P)) by lia.
        apply Z.div_mul. lia. }
      rewrite Hr0, Hq0 in Hc2.
      destruct Hc2 as [[_ ->]|[[H1 _]|[H1 _]]]; lia.
    + assert (Hlog : Z.log2 (q' * P) = 52 + e).
      { assert (E1 : 2 ^ (52 + e) = 2 ^ 52 * P)
          by (unfold P; rewrite <- Z.pow_add_r by lia; reflexivity).
        assert (E2 : 2 ^ (52 + e + 1) = 2 ^ 53 * P)
          by (unfold P; rewrite <- Z.pow_add_r by lia; f_equal; lia).
        apply Z.log2_unique; [lia|].
        replace (Z.succ (52 + e)) with (52 + e + 1) by lia.
        rewrite E1, E2. nia. }
      assert (He' : 0 < Z.log2 (q' * P) - 52) by lia.
      destruct (round53_large (q' * P) He')
        as (HP' & Hq2 & Hd2 & Hr2 & _ & Hc2).
      rewrite Hlog in *.
      replace (52 + e - 52) with e in * by lia. fold P in Hc2, Hr2, Hd2, Hq2.
      assert (Hr0 : (q' * P) mod P = 0) by (apply Z.mod_mul; lia).
      assert (Hq0 : (q' * P) / P = q') by (apply Z.div_mul; lia).
      rewrite Hr0, Hq0 in Hc2.
      destruct Hc2 as [[_ ->]|[[H1 _]|[H1 _]]]; lia.
Qed.

(** ** Numbers that sums become *)

Lemma double_of_Z_small z : Z.abs z < 2 ^ 53 -> double_of_Z z = Fin z.
Proof.
  intro H. unfold double_of_Z.
  rewrite round53_small by lia.
  assert (HL : Z.log2 (Z.abs z) < 1024).
  { destruct (Z.eq_dec (Z.abs z) 0) as [->|Hz]; [simpl; lia|].
    apply Z.log2_lt_pow2; [lia|].
    apply (Z.lt_trans _ (2 ^ 53)); [assumption|].
    apply Z.pow_lt_mono_r; lia. }
  destruct (Z.ltb_spec (Z.log2 (Z.abs z)) 1024); [|lia].
  f_equal. lia.
Qed.

(** What a sum becomes keeps the sign of the exact sum. *)
Lemma double_of_Z_sign z :
  match double_of_Z z with
  | Fin r => (0 < z -> 0 < r) /\ (z < 0 -> r < 0) /\ (z = 0 -> r = 0)
  | PInf => 0 < z
  | NInf => z < 0
  | NaN => False
  end.
Proof.
  unfold double_of_Z.
  destruct (Z.ltb_spec (Z.log2 (round53 (Z.abs z))) 1024) as [H|H].
  - pose proof (round53_pos (Z.abs z)) as Hp.
    split; [|split]; intro Hz.
    + assert (0 < round53 (Z.abs z)) by (apply Hp; lia). nia.
    + assert (0 < round53 (Z.abs z)) by (apply Hp; lia). nia.
    + subst z. reflexivity.
  - destruct (Z.ltb_spec z 0) as [Hz|Hz]; [assumption|].
    destruct (Z.eq_dec z 0) as [->|Hne]; [|lia].
    simpl in H. lia.
Qed.

Lemma double_of_Z_idem x y : double_of_Z x = Fin y -> is_double y.
Proof.
  unfold is_double, double_of_Z. intro H.
  destruct (Z.ltb_spec (Z.log2 (round53 (Z.abs x))) 1024) as [HL|HL];
    [|destruct (x <? 0); discriminate].
  inversion H as [Hy]. clear H.
  pose proof (round53_nonneg (Z.abs x) (Z.abs_nonneg x)) as Hm.
  assert (Habs : Z.abs (Z.sgn x * round53 (Z.abs x)) = round53 (Z.abs x)).
  { destruct (Z.eq_dec x 0) as [->|Hx]; [reflexivity|].
    pose proof (round53_pos (Z.abs x)). nia. }
  rewrite Habs, round53_idem by apply Z.abs_nonneg.
  destruct (Z.ltb_spec (Z.log2 (round53 (Z.abs x))) 1024); [|lia].
  f_equal.
  destruct (Z.eq_dec x 0) as [->|Hx]; [reflexivity|].
  pose proof (round53_pos (Z.abs x)). nia.
Qed.

(** A non-negative exact sum becomes a non-negative number or
    [Infinity]. *)
Lemma double_of_Z_nonneg z :
  0 <= z ->
  double_of_Z z = PInf \/
  exists r, double_of_Z z = Fin r /\ 0 <= r /\ is_double r.
Proof.
  intro Hz. pose proof (double_of_Z_sign z) as Hs.
  destruct (double_of_Z z) as [r| | |] eqn:E.
  - right. exists r. split; [reflexivity|]. split.
    + destruct Hs as (H1 & _ & H3).
      destruct (Z.eq_dec z 0) as [Hz0|Hz0]; [rewrite H3; lia|].
      assert (0 < r) by (apply H1; lia). lia.
    + exact (double_of_Z_idem z r E).
  - now left.
  - lia.
  - contradiction.
Qed.

(** Rounding is monotone. *)
Lemma double_of_Z_mono x y :
  0 <= x <= y -> jslt (double_of_Z y) (double_of_Z x) = false.
Proof.
  intros [Hx Hxy]. unfold double_of_Z.
  rewrite !Z.abs_eq by lia.
  pose proof (round53_mono x y (conj Hx Hxy)) as Hm.
  pose proof (round53_nonneg x Hx) as Hrx.
  assert (HL : Z.log2 (round53 x) <= Z.log2 (round53 y))
    by (apply Z.log2_le_mono; assumption).
  destruct (Z.ltb_spec y 0); [lia|]. destruct (Z.ltb_spec x 0); [lia|].
  destruct (Z.ltb_spec (Z.log2 (round53 y)) 1024) as [Hy|Hy];
    destruct (Z.ltb_spec (Z.log2 (round53 x)) 1024) as [Hx'|Hx'];
    simpl; try reflexivity; lia.
Qed.

(** ** Addition *)

Lemma jsadd_zero_l w : is_double w -> jsadd (Fin 0) (Fin w) = Fin w.
Proof. intro H. simpl. exact H. Qed.

Lemma jsadd_nonneg x y :
  0 <= x -> 0 <= y ->
  jsadd (Fin x) (Fin y) = PInf \/
  exists r, jsadd (Fin x) (Fin y) = Fin r /\ 0 <= r /\ is_double r.
Proof. intros Hx Hy. simpl. apply double_of_Z_nonneg. lia. Qed.

(** [x <= x + w] for a number [x] and [w >= 0]. *)
Lemma jsadd_ge_l x w :
  0 <= x -> is_double x -> 0 <= w ->
  jslt (jsadd (Fin x) (Fin w)) (Fin x) = false.
Proof.
  intros Hx Hd Hw. unfold is_double in Hd. simpl. rewrite <- Hd.
  apply double_of_Z_mono. lia.
Qed.

(** [a <= b] gives [a + w <= b + w]. *)
Lemma jsadd_mono_l a b w :
  0 <= a <= b -> 0 <= w ->
  jslt (jsadd (Fin b) (Fin w)) (jsadd (Fin a) (Fin w)) = false.
Proof. intros H Hw. simpl. apply double_of_Z_mono. lia. Qed.

(** The sign of a difference is the order of its operands. *)
Lemma jslt_zero_sub x y :
  jslt (Fin 0) (jsadd (Fin x) (Fin (- y))) = (y <? x).
Proof.
  simpl. pose proof (double_of_Z_sign (x + - y)) as Hs.
  destruct (double_of_Z (x + - y)) as [r| | |]; simpl.
  - destruct Hs as (H1 & H2 & H3).
    destruct (Z.ltb_spec y x) as [H|H].
    + apply Z.ltb_lt. apply H1. lia.
    + apply Z.ltb_ge.
      destruct (Z.eq_dec (x + - y) 0) as [E|E]; [rewrite (H3 E); lia|].
      assert (r < 0) by (apply H2; lia). lia.
  - symmetry. apply Z.ltb_lt. lia.
  - symmetry. apply Z.ltb_ge. lia.
  - contradiction.
Qed.

(* ================================================================= *)
(** * Properties *)

(** ** Equality of nodes *)

Lemma JsNum_eqb_eq (a b : JsNum) : JsNum_eqb a b = true <-> a = b.
Proof.
  destruct a, b; simpl; split; intro H;
    try discriminate; try reflexivity.
  - apply Z.eqb_eq in H. now subst.
  - inversion H. apply Z.eqb_refl.
Qed.

Lemma Node_eqb_eq (a b : Node) : Node_eqb a b = true <-> a = b.
Proof.
  destruct a, b; simpl; split; intro H; try discriminate.
  - apply String.eqb_eq in H. now subst.
  - inversion H. apply String.eqb_refl.
  - apply JsNum_eqb_eq in H. now subst.
  - inversion H. now apply JsNum_eqb_eq.
Qed.

Lemma Node_eqb_refl (a : Node) : Node_eqb a a = true.
Proof. now apply Node_eqb_eq. Qed.

Lemma Node_eqb_neq (a b : Node) : Node_eqb a b = false <-> a <> b.
Proof.
  split.
  - intros H E. apply Node_eqb_eq in E. congruence.
  - intro H. destruct (Node_eqb a b) eqn:E; [|reflexivity].
    apply Node_eqb_eq in E. contradiction.
Qed.

Lemma Node_eqb_sym (a b : Node) : Node_eqb a b = Node_eqb b a.
Proof.
  destruct (Node_eqb a b) eqn:E1, (Node_eqb b a) eqn:E2; try reflexivity.
  - apply Node_eqb_eq in E1. subst. rewrite Node_eqb_refl in E2. discriminate.
  - apply Node_eqb_eq in E2. subst. rewrite Node_eqb_refl in E1. discriminate.
Qed.

Lemma Node_eq_dec (a b : Node) : {a = b} + {a <> b}.
Proof.
  destruct (Node_eqb a b) eqn:E.
  - left. now apply Node_eqb_eq.
  - right. now apply Node_eqb_neq.
Defined.

(** [===] agrees with SameValueZero except on [NaN]. *)
Lemma jsnum_strict_eq_spec (a b : JsNum) :
  jsnum_strict_eq a b = true <-> a = b /\ a <> NaN.
Proof.
  destruct a, b; simpl; try rewrite Z.eqb_eq;
    (split; [intro H; try discriminate; subst;
             (split; [reflexivity|discriminate])
            |intros [H H']; try discriminate; try congruence]).
Qed.

Lemma strict_eq_spec (a b : Node) :
  strict_eq a b = true <-> a = b /\ a <> NNum NaN.
Proof.
  destruct a as [s|x], b as [t|y]; simpl.
  - rewrite String.eqb_eq. split.
    + intros ->. split; [reflexivity|discriminate].
    + intros [H _]. now inversion H.
  - split; [discriminate|]. intros [H _]; discriminate.
  - split; [discriminate|]. intros [H _]; discriminate.
  - rewrite jsnum_strict_eq_spec. split; intros [H H']; split;
      congruence.
Qed.

Lemma strict_eq_true_eqb (a b : Node) :
  strict_eq a b = true -> a = b.
Proof. intro H. now apply strict_eq_spec in H. Qed.

Lemma node_falsy_NaN : node_falsy (NNum NaN) = true.
Proof. reflexivity. Qed.

Lemma truthy_strict_refl (a : Node) :
  node_falsy a = false -> strict_eq a a = true.
Proof.
  intro H. apply strict_eq_spec. split; [reflexivity|].
  intros ->. discriminate.
Qed.

(** ** Maps and sets *)

Lemma map_get_set_same {V} (m : JsMap V) k v :
  map_get (map_set m k v) k = Some v.
Proof.
  induction m as [|[k' v'] r IH]; simpl.
  - now rewrite Node_eqb_refl.
  - destruct (Node_eqb k' k) eqn:E; simpl; rewrite E; auto.
Qed.

Lemma map_get_set_other {V} (m : JsMap V) k k' v :
  k <> k' -> map_get (map_set m k v) k' = map_get m k'.
Proof.
  intro N. induction m as [|[k0 v0] r IH]; simpl.
  - apply Node_eqb_neq in N. now rewrite N.
  - destruct (Node_eqb k0 k) eqn:E; simpl.
    + apply Node_eqb_eq in E. subst k0.
      apply Node_eqb_neq in N. now rewrite N.
    + destruct (Node_eqb k0 k'); auto.
Qed.

Lemma map_get_In_keys {V} (m : JsMap V) k :
  map_get m k <> None <-> In k (map_keys m).
Proof.
  induction m as [|[k' v'] r IH]; simpl.
  - split; [congruence|tauto].
  - destruct (Node_eqb k' k) eqn:E.
    + apply Node_eqb_eq in E. subst. split; [auto|discriminate].
    + rewrite IH. apply Node_eqb_neq in E. split; [auto|].
      intros [H|H]; [contradiction|assumption].
Qed.

Lemma map_has_In_keys {V} (m : JsMap V) k :
  map_has m k = true <-> In k (map_keys m).
Proof.
  rewrite <- map_get_In_keys. unfold map_has.
  destruct (map_get m k); split; congruence.
Qed.

Lemma map_has_false_iff {V} (m : JsMap V) k :
  map_has m k = false <-> ~ In k (map_keys m).
Proof.
  rewrite <- map_has_In_keys. destruct (map_has m k); split; congruence.
Qed.

Lemma map_has_get_none {V} (m : JsMap V) k :
  map_has m k = false <-> map_get m k = None.
Proof. unfold map_has. destruct (map_get m k); split; congruence. Qed.

Lemma map_keys_set_present {V} (m : JsMap V) k v :
  In k (map_keys m) -> map_keys (map_set m k v) = map_keys m.
Proof.
  induction m as [|[k' v'] r IH]; simpl; [tauto|].
  intros H. destruct (Node_eqb k' k) eqn:E; simpl; [reflexivity|].
  f_equal. apply IH. destruct H as [H|H]; [|assumption].
  apply Node_eqb_neq in E. contradiction.
Qed.

Lemma map_keys_set_absent {V} (m : JsMap V) k v :
  ~ In k (map_keys m) -> map_keys (map_set m k v) = map_keys m ++ [k].
Proof.
  induction m as [|[k' v'] r IH]; simpl; [reflexivity|].
  intros H. destruct (Node_eqb k' k) eqn:E; simpl.
  - apply Node_eqb_eq in E. tauto.
  - f_equal. apply IH. tauto.
Qed.

Lemma map_keys_set_In {V} (m : JsMap V) k v x :
  In x (map_keys (map_set m k v)) <-> x = k \/ In x (map_keys m).
Proof.
  destruct (in_dec Node_eq_dec k (map_keys m)) as [H|H].
  - rewrite map_keys_set_present by assumption.
    split; [auto|]. intros [->|?]; assumption.
  - rewrite map_keys_set_absent by assumption.
    rewrite in_app_iff. simpl. split.
    + intros [?|[?|[]]]; auto.
    + intros [->|?]; auto.
Qed.

Lemma map_size_set_le {V} (m : JsMap V) k v :
  (map_size m <= map_size (map_set m k v))%nat.
Proof.
  unfold map_size. induction m as [|[k' v'] r IH]; simpl; [lia|].
  destruct (Node_eqb k' k); simpl; lia.
Qed.

Lemma map_get_In {V} (m : JsMap V) k v :
  map_get m k = Some v -> In (k, v) m.
Proof.
  induction m as [|[k' v'] r IH]; simpl; [discriminate|].
  destruct (Node_eqb k' k) eqn:E.
  - apply Node_eqb_eq in E. intros H. inversion H. subst. now left.
  - intros H. right. auto.
Qed.

Lemma map_In_get_NoDup {V} (m : JsMap V) k v :
  NoDup (map_keys m) -> In (k, v) m -> map_get m k = Some v.
Proof.
  induction m as [|[k' v'] r IH]; simpl; [tauto|].
  intros ND [H|H].
  - inversion H. subst. now rewrite Node_eqb_refl.
  - inversion ND as [|? ? Hn ND']. subst.
    destruct (Node_eqb k' k) eqn:E.
    + apply Node_eqb_eq in E. subst. exfalso. apply Hn.
      change (In (fst (k, v)) (map fst r)). now apply in_map.
    + now apply IH.
Qed.

Lemma set_has_In (s : JsSet) k : set_has s k = true <-> In k s.
Proof.
  induction s as [|k' r IH]; simpl.
  - split; [discriminate|tauto].
  - rewrite orb_true_iff, IH, Node_eqb_eq. tauto.
Qed.

Lemma set_has_false_iff (s : JsSet) k : set_has s k = false <-> ~ In k s.
Proof.
  rewrite <- set_has_In. destruct (set_has s k); split; congruence.
Qed.

Lemma set_add_In (s : JsSet) k x : In x (set_add s k) <-> x = k \/ In x s.
Proof.
  unfold set_add. destruct (set_has s k) eqn:E.
  - apply set_has_In in E. split; [auto|]. intros [->|?]; assumption.
  - rewrite in_app_iff. simpl. split.
    + intros [?|[?|[]]]; auto.
    + intros [->|?]; auto.
Qed.

Lemma set_add_NoDup (s : JsSet) k : NoDup s -> NoDup (set_add s k).
Proof.
  intro ND. unfold set_add. destruct (set_has s k) eqn:E; [assumption|].
  apply set_has_false_iff in E.
  apply NoDup_app; [assumption|repeat constructor; simpl; tauto|].
  intros x Hx [<-|[]]. contradiction.
Qed.

Lemma set_has_add (s : JsSet) k x :
  set_has (set_add s k) x = Node_eqb k x || set_has s x.
Proof.
  destruct (set_has (set_add s k) x) eqn:E.
  - apply set_has_In, set_add_In in E. symmetry. apply orb_true_iff.
    destruct E as [->|E]; [left; apply Node_eqb_refl|right].
    now apply set_has_In.
  - apply set_has_false_iff in E. symmetry. apply orb_false_iff. split.
    + apply Node_eqb_neq. intros ->. apply E, set_add_In. now left.
    + apply set_has_false_iff. intro H. apply E, set_add_In. now right.
Qed.

Lemma map_set_NoDup {V} (m : JsMap V) k v :
  NoDup (map_keys m) -> NoDup (map_keys (map_set m k v)).
Proof.
  intro ND. destruct (in_dec Node_eq_dec k (map_keys m)) as [H|H].
  - now rewrite map_keys_set_present.
  - rewrite map_keys_set_absent by assumption.
    apply NoDup_app; [assumption|repeat constructor; simpl; tauto|].
    intros x Hx [<-|[]]. contradiction.
Qed.

(** ** The validator *)

Lemma isValidNode_spec (v : Value) :
  isValidNode v = true <-> string_or_number v.
Proof. destruct v; simpl; split; intro H; try easy. Qed.

Lemma isValidNode_false (v : Value) :
  isValidNode v = false <-> ~ string_or_number v.
Proof.
  rewrite <- isValidNode_spec. destruct (isValidNode v); split; congruence.
Qed.

Lemma validateEdge_None (r : RawEdge) :
  validateEdge r = None <-> edge_accepted r.
Proof.
  unfold validateEdge, edge_accepted. destruct r as [f t w]; simpl.
  destruct (isValidNode f) eqn:Ef; simpl.
  2:{ split; [discriminate|]. intros [H _].
      apply isValidNode_spec in H. congruence. }
  destruct (isValidNode t) eqn:Et; simpl.
  2:{ split; [discriminate|]. intros (_ & H & _).
      apply isValidNode_spec in H. congruence. }
  apply isValidNode_spec in Ef, Et.
  destruct w as [s|n| | | |];
    try (split; [discriminate|intros (_ & _ & w & H & _); discriminate]).
  destruct n as [z| | |]; simpl;
    try (split; [discriminate|intros (_ & _ & w & H & _); discriminate]).
  destruct (z <? 0) eqn:Ez.
  - split; [discriminate|]. intros (_ & _ & w & H & Hw).
    inversion H. subst. apply Z.ltb_lt in Ez. lia.
  - apply Z.ltb_ge in Ez. split; [|reflexivity].
    intros _. repeat split; try assumption. now exists z.
Qed.

Lemma validateEdges_Ok (edges : list RawEdge) :
  validateEdges edges = Ok tt <-> Forall edge_accepted edges.
Proof.
  induction edges as [|e r IH]; simpl.
  - split; [constructor|reflexivity].
  - destruct (validateEdge e) eqn:E.
    + split; [discriminate|]. intro H. inversion H as [|? ? Ha _]. subst.
      apply validateEdge_None in Ha. congruence.
    + rewrite IH. apply validateEdge_None in E. split.
      * now constructor.
      * intro H. now inversion H.
Qed.

(** The first edge that fails a check decides the result. *)
Lemma validateEdges_first_failure (pre post : list RawEdge) e err :
  Forall edge_accepted pre -> validateEdge e = Some err ->
  validateEdges (pre ++ e :: post) = Err err.
Proof.
  intros Hpre He. induction Hpre as [|x l Hx _ IH]; simpl.
  - now rewrite He.
  - apply validateEdge_None in Hx. now rewrite Hx.
Qed.

Lemma edge_accepted_as_edge (r : RawEdge) :
  edge_accepted r ->
  exists e w, as_edge r = Some e /\ weight e = Fin w /\ 0 <= w.
Proof.
  destruct r as [f t w]. intros (Hf & Ht & z & Hw & Hz). simpl in *.
  subst w. unfold as_edge. simpl.
  destruct f; try contradiction; destruct t; try contradiction; simpl;
    eexists; exists z; (split; [reflexivity|split; [reflexivity|assumption]]).
Qed.

Lemma typed_edges_accepted (edges : list RawEdge) :
  Forall edge_accepted edges ->
  map as_edge edges = map Some (typed_edges edges).
Proof.
  induction 1 as [|r l Hr _ IH]; simpl; [reflexivity|].
  destruct (edge_accepted_as_edge r Hr) as (e & w & He & _).
  rewrite He. simpl. now f_equal.
Qed.

Lemma typed_edges_weights (edges : list RawEdge) :
  Forall edge_accepted edges ->
  Forall (fun e => valid_weight (weight e)) (typed_edges edges).
Proof.
  induction 1 as [|r l Hr _ IH]; simpl; [constructor|].
  destruct (edge_accepted_as_edge r Hr) as (e & w & He & Hw & Hz).
  rewrite He. simpl. constructor; [|assumption]. now exists w.
Qed.

(** ** The builder *)

Lemma filter_from_nil (es : list Edge) k :
  ~ In k (map from es) -> filter (fun e => Node_eqb (from e) k) es = [].
Proof.
  induction es as [|e r IH]; simpl; [reflexivity|].
  intro H. destruct (Node_eqb (from e) k) eqn:E.
  - apply Node_eqb_eq in E. tauto.
  - apply IH. tauto.
Qed.

Lemma adjacency_of_nil : adjacency_of [] [].
Proof.
  repeat split; simpl; try tauto. constructor.
Qed.

Lemma addEdge_adjacency (es : list Edge) (g : Graph) (e : Edge) :
  adjacency_of es g -> adjacency_of (es ++ [e]) (addEdge g e).
Proof.
  intros (ND & Hk & Hg). unfold addEdge. cbv zeta.
  set (g1 := if negb (map_has g (from e)) then map_set g (from e) [] else g).
  assert (K1 : forall k, In k (map_keys g1) <-> k = from e \/ In k (map_keys g)).
  { intro k. subst g1. destruct (map_has g (from e)) eqn:Eh; simpl.
    - apply map_has_In_keys in Eh. split; [auto|]. intros [->|?]; auto.
    - apply map_keys_set_In. }
  assert (ND1 : NoDup (map_keys g1)).
  { subst g1. destruct (map_has g (from e)); simpl; [assumption|].
    now apply map_set_NoDup. }
  assert (G1 : map_get g1 (from e)
               = Some (filter (fun x => Node_eqb (from x) (from e)) es)).
  { subst g1. destruct (map_has g (from e)) eqn:Eh; simpl.
    - apply Hg. now apply map_has_In_keys.
    - rewrite map_get_set_same. f_equal. symmetry. apply filter_from_nil.
      apply map_has_false_iff in Eh. intro H. apply Eh, Hk. now left. }
  assert (G1' : forall k, k <> from e -> map_get g1 k = map_get g k).
  { intros k N. subst g1. destruct (map_has g (from e)); simpl;
      [reflexivity|]. apply map_get_set_other. congruence. }
  rewrite G1.
  set (l := filter (fun x => Node_eqb (from x) (from e)) es) in *.
  set (g2 := map_set g1 (from e) (l ++ [e])).
  assert (K2 : forall k, In k (map_keys g2) <-> k = from e \/ In k (map_keys g)).
  { intro k. subst g2. rewrite map_keys_set_In, K1. tauto. }
  assert (ND2 : NoDup (map_keys g2)) by now apply map_set_NoDup.
  set (g3 := if negb (map_has g2 (to e)) then map_set g2 (to e) [] else g2).
  assert (K3 : forall k, In k (map_keys g3)
                         <-> k = from e \/ k = to e \/ In k (map_keys g)).
  { intro k. subst g3. destruct (map_has g2 (to e)) eqn:Eh; simpl.
    - apply map_has_In_keys, K2 in Eh. rewrite K2. split; [tauto|].
      intros [?|[->|?]]; tauto.
    - rewrite map_keys_set_In, K2. tauto. }
  change (adjacency_of (es ++ [e]) g3).
  split; [|split].
  - subst g3. destruct (map_has g2 (to e)); simpl; [assumption|].
    now apply map_set_NoDup.
  - intro k. rewrite K3, Hk, !map_app, !in_app_iff. simpl. split.
    + intros [->|[->|[?|?]]]; auto.
    + intros [[?|[<-|[]]]|[?|[<-|[]]]]; auto.
  - intros k Hin. rewrite filter_app. simpl.
    destruct (Node_eq_dec k (from e)) as [->|N].
    + rewrite Node_eqb_refl. fold l.
      assert (map_get g2 (from e) = Some (l ++ [e]))
        by (subst g2; apply map_get_set_same).
      subst g3. destruct (map_has g2 (to e)) eqn:Eh; simpl; [assumption|].
      rewrite map_get_set_other; [assumption|].
      intros E. apply map_has_false_iff in Eh. apply Eh, K2. now left.
    + assert (Ef : Node_eqb (from e) k = false)
        by (apply Node_eqb_neq; congruence).
      rewrite Ef, app_nil_r.
      assert (G2 : map_get g2 k = map_get g k).
      { subst g2. rewrite map_get_set_other by congruence. now apply G1'. }
      subst g3. destruct (map_has g2 (to e)) eqn:Eh; simpl.
      * rewrite G2. apply Hg. apply K3 in Hin.
        destruct Hin as [?|[->|?]]; [contradiction| |assumption].
        apply map_has_In_keys, K2 in Eh. tauto.
      * destruct (Node_eq_dec k (to e)) as [->|N'].
        -- rewrite map_get_set_same. f_equal. symmetry.
           apply filter_from_nil. intro H.
           apply map_has_false_iff in Eh. apply Eh, K2. right.
           apply Hk. now left.
        -- rewrite map_get_set_other by congruence. rewrite G2.
           apply Hg. apply K3 in Hin. tauto.
Qed.

Lemma fold_addEdge_adjacency (l es : list Edge) (g : Graph) :
  adjacency_of es g -> adjacency_of (es ++ l) (fold_left addEdge l g).
Proof.
  revert es g. induction l as [|e l IH]; intros es g H; simpl.
  - now rewrite app_nil_r.
  - replace (es ++ e :: l) with ((es ++ [e]) ++ l)
      by (rewrite <- app_assoc; reflexivity).
    apply IH. now apply addEdge_adjacency.
Qed.

Lemma buildAdjacencyList_adjacency (edges : list Edge) :
  adjacency_of edges (buildAdjacencyList edges).
Proof.
  unfold buildAdjacencyList.
  apply (fold_addEdge_adjacency edges [] []), adjacency_of_nil.
Qed.

Lemma buildGraph_Ok (raw : list RawEdge) (g : Graph) :
  buildGraph raw = Ok g ->
  raw <> [] /\ Forall edge_accepted raw /\
  g = buildAdjacencyList (typed_edges raw).
Proof.
  unfold buildGraph. destruct raw as [|r l]; simpl (Nat.eqb _ _);
    [discriminate|].
  destruct (validateEdges (r :: l)) as [[]|err] eqn:E; [|discriminate].
  intro H. inversion H. apply validateEdges_Ok in E.
  repeat split; [discriminate|assumption].
Qed.

Lemma buildGraph_accepted (raw : list RawEdge) :
  raw <> [] -> Forall edge_accepted raw ->
  buildGraph raw = Ok (buildAdjacencyList (typed_edges raw)).
Proof.
  intros Hne Hacc. unfold buildGraph.
  destruct raw as [|r l]; [contradiction|]. simpl (Nat.eqb _ _).
  apply validateEdges_Ok in Hacc. now rewrite Hacc.
Qed.

(* ================================================================= *)
(** ** The priority queue *)

Lemma sort_insert_perm {A} (cmp : A -> A -> JsNum) x l :
  Permutation (sort_insert cmp x l) (x :: l).
Proof.
  induction l as [|y r IH]; cbn [sort_insert]; [reflexivity|].
  destruct (jslt (Fin 0) (cmp x y)); [|reflexivity].
  rewrite IH. apply perm_swap.
Qed.

Lemma array_sort_perm {A} (cmp : A -> A -> JsNum) l :
  Permutation (array_sort cmp l) l.
Proof.
  induction l as [|x r IH]; simpl; [reflexivity|].
  rewrite sort_insert_perm. now constructor.
Qed.

Lemma enqueue_perm {T} (q : PriorityQueueState T) x p :
  Permutation (items (enqueuePriorityQueue q x p)) (mkItem x p :: items q).
Proof.
  unfold enqueuePriorityQueue. simpl. rewrite array_sort_perm.
  rewrite Permutation_app_comm. reflexivity.
Qed.

Lemma enqueue_length {T} (q : PriorityQueueState T) x p :
  length (items (enqueuePriorityQueue q x p)) = S (length (items q)).
Proof. now rewrite (Permutation_length (enqueue_perm q x p)). Qed.

Lemma enqueue_In {T} (q : PriorityQueueState T) x p it :
  In it (items (enqueuePriorityQueue q x p)) <->
  it = mkItem x p \/ In it (items q).
Proof.
  split; intro H.
  - apply (Permutation_in _ (enqueue_perm q x p)) in H.
    destruct H as [H|H]; auto.
  - apply (Permutation_in _ (Permutation_sym (enqueue_perm q x p))).
    destruct H as [H|H]; [left; auto|now right].
Qed.

Lemma isPriorityQueueEmpty_true {T} (q : PriorityQueueState T) :
  isPriorityQueueEmpty q = true <-> items q = [].
Proof.
  unfold isPriorityQueueEmpty. destruct (items q); simpl; split;
    congruence.
Qed.

(* ================================================================= *)
(** ** Termination of the search loop *)

Lemma relaxEdge_visited c d st e :
  st_visited (relaxEdge c d st e) = st_visited st.
Proof.
  unfold relaxEdge. destruct (set_has _ _); [reflexivity|].
  destruct (jslt _ _); reflexivity.
Qed.

Lemma relaxEdge_queue_length c d st e :
  (length (items (st_queue (relaxEdge c d st e)))
   <= S (length (items (st_queue st))))%nat.
Proof.
  unfold relaxEdge. destruct (set_has _ _); [lia|].
  destruct (jslt _ _); cbn [st_queue]; [rewrite enqueue_length|]; lia.
Qed.

Lemma fold_relaxEdge_visited c d es st :
  st_visited (fold_left (relaxEdge c d) es st) = st_visited st.
Proof.
  revert st. induction es as [|e r IH]; intro st; simpl; [reflexivity|].
  now rewrite IH, relaxEdge_visited.
Qed.

Lemma fold_relaxEdge_queue_length c d es st :
  (length (items (st_queue (fold_left (relaxEdge c d) es st)))
   <= length es + length (items (st_queue st)))%nat.
Proof.
  revert st. induction es as [|e r IH]; intro st; simpl; [lia|].
  specialize (IH (relaxEdge c d st e)).
  pose proof (relaxEdge_queue_length c d st e). lia.
Qed.

Lemma pendingEdges_add_le (g : Graph) V c :
  (pendingEdges g (set_add V c) <= pendingEdges g V)%nat.
Proof.
  unfold pendingEdges. induction g as [|[k es] r IH]; simpl; [lia|].
  rewrite set_has_add. destruct (set_has V k); simpl.
  - rewrite orb_true_r. exact IH.
  - rewrite orb_false_r. destruct (Node_eqb c k); lia.
Qed.

Lemma pendingEdges_add (g : Graph) V c :
  set_has V c = false ->
  (pendingEdges g (set_add V c) + length (neighborsOf g c)
   <= pendingEdges g V)%nat.
Proof.
  intro Hc. unfold neighborsOf.
  induction g as [|[k es] r IH]; simpl; [unfold pendingEdges; simpl; lia|].
  unfold pendingEdges in *. simpl. rewrite set_has_add.
  destruct (Node_eqb k c) eqn:E.
  - apply Node_eqb_eq in E. subst k. rewrite Node_eqb_refl, Hc. simpl.
    pose proof (pendingEdges_add_le r V c) as Hle.
    unfold pendingEdges in Hle. lia.
  - rewrite Node_eqb_sym, E. simpl.
    destruct (set_has V k); simpl; lia.
Qed.

Lemma dijkstraStep_potential (g : Graph) (st : DijkstraState) :
  items (st_queue st) <> [] ->
  (potential g (dijkstraStep g st) < potential g st)%nat.
Proof.
  intro Hq. unfold dijkstraStep, dequeuePriorityQueue, potential.
  destruct (items (st_queue st)) as [|first rest] eqn:Eq; [contradiction|].
  simpl.
  destruct (node_falsy (item first) || set_has (st_visited st) (item first))
    eqn:Eskip; simpl; [lia|].
  apply orb_false_iff in Eskip. destruct Eskip as [_ Hv].
  rewrite fold_relaxEdge_visited. simpl.
  match goal with
  | |- context [fold_left ?f ?l ?s] =>
      pose proof (fold_relaxEdge_queue_length (item first)
                    (distanceOf (st_distances st) (item first)) l s) as Hl
  end.
  simpl in Hl.
  pose proof (pendingEdges_add g (st_visited st) (item first) Hv). lia.
Qed.

Lemma dijkstraLoop_terminates (g : Graph) (fuel : nat) (st : DijkstraState) :
  (potential g st <= fuel)%nat ->
  exists st', dijkstraLoop fuel g st = Some st'.
Proof.
  revert st. induction fuel as [|fuel IH]; intros st Hp; simpl.
  - destruct (isPriorityQueueEmpty (st_queue st)) eqn:E; [eauto|].
    exfalso. unfold isPriorityQueueEmpty, potential in *.
    destruct (items (st_queue st)); simpl in *; [discriminate|lia].
  - destruct (isPriorityQueueEmpty (st_queue st)) eqn:E; [eauto|].
    apply IH.
    assert (items (st_queue st) <> []).
    { intro H. apply isPriorityQueueEmpty_true in H. congruence. }
    pose proof (dijkstraStep_potential g st H). lia.
Qed.

(** An invariant of the loop body holds when the loop exits, and the
    queue is then empty. *)
Lemma dijkstraLoop_invariant (g : Graph) (P : DijkstraState -> Prop) :
  (forall st, P st -> P (dijkstraStep g st)) ->
  forall fuel st st',
    P st -> dijkstraLoop fuel g st = Some st' ->
    P st' /\ items (st_queue st') = [].
Proof.
  intros Hstep. induction fuel as [|fuel IH]; intros st st' HP; simpl.
  - destruct (isPriorityQueueEmpty (st_queue st)) eqn:E; [|discriminate].
    intro H. inversion H. subst. split; [assumption|].
    now apply isPriorityQueueEmpty_true.
  - destruct (isPriorityQueueEmpty (st_queue st)) eqn:E.
    + intro H. inversion H. subst. split; [assumption|].
      now apply isPriorityQueueEmpty_true.
    + apply IH. now apply Hstep.
Qed.

(* ================================================================= *)
(** ** Initialisation of the search *)

Lemma fold_left_invariant {A B} (f : B -> A -> B) (I : B -> Prop) l :
  (forall b a, In a l -> I b -> I (f b a)) ->
  forall b, I b -> I (fold_left f l b).
Proof.
  induction l as [|a r IH]; intros H b Hb; simpl; [assumption|].
  apply IH.
  - intros b' a' Hin. apply H. now right.
  - apply H; [now left|assumption].
Qed.

Lemma fold_left_prefix_invariant {A B} (f : B -> A -> B)
  (I : list A -> B -> Prop) :
  (forall pre a b, I pre b -> I (pre ++ [a]) (f b a)) ->
  forall l pre b, I pre b -> I (pre ++ l) (fold_left f l b).
Proof.
  intros H. induction l as [|a r IH]; intros pre b Hb; simpl.
  - now rewrite app_nil_r.
  - replace (pre ++ a :: r) with ((pre ++ [a]) ++ r)
      by (rewrite <- app_assoc; reflexivity).
    apply IH, H, Hb.
Qed.

Lemma distanceOf_set D k x v :
  distanceOf (map_set D k x) v = if Node_eqb k v then x else distanceOf D v.
Proof.
  unfold distanceOf. destruct (Node_eqb k v) eqn:E.
  - apply Node_eqb_eq in E. subst. now rewrite map_get_set_same.
  - apply Node_eqb_neq in E. now rewrite map_get_set_other.
Qed.

Lemma previousOf_set P k x v :
  previousOf (map_set P k x) v = if Node_eqb k v then x else previousOf P v.
Proof.
  unfold previousOf. destruct (Node_eqb k v) eqn:E.
  - apply Node_eqb_eq in E. subst. now rewrite map_get_set_same.
  - apply Node_eqb_neq in E. now rewrite map_get_set_other.
Qed.

Lemma map_keys_set_congr {V W} (m : JsMap V) (m' : JsMap W) k v w :
  map_keys m = map_keys m' ->
  map_keys (map_set m k v) = map_keys (map_set m' k w).
Proof.
  intro H. destruct (in_dec Node_eq_dec k (map_keys m)) as [Hin|Hin].
  - rewrite !map_keys_set_present; congruence.
  - rewrite !map_keys_set_absent; congruence.
Qed.

Lemma set_has_app (s : JsSet) k v :
  set_has (s ++ [k]) v = set_has s v || Node_eqb k v.
Proof.
  induction s as [|x r IH]; simpl; [now rewrite orb_false_r|].
  now rewrite IH, orb_assoc.
Qed.

Lemma initKey_inv start ks k st :
  init_inv start ks st -> init_inv start (ks ++ [k]) (initKey start st k).
Proof.
  intros (HV & HQ & HK & Hin & HP & HD).
  unfold init_inv, initKey. cbn [st_visited st_queue st_distances st_previous].
  repeat split; try assumption.
  - now apply map_keys_set_congr.
  - intros v Hv. apply map_keys_set_In. apply in_app_iff in Hv.
    destruct Hv as [Hv|[<-|[]]]; auto.
  - intro v. rewrite previousOf_set. now destruct (Node_eqb k v).
  - intro v. rewrite distanceOf_set, set_has_app, HD.
    destruct (Node_eqb k v) eqn:E.
    + apply Node_eqb_eq in E. subst. rewrite orb_true_r. reflexivity.
    + now rewrite orb_false_r.
Qed.

Lemma initDestination_inv start ks st e :
  init_inv start ks st -> init_inv start ks (initDestination st e).
Proof.
  intros (HV & HQ & HK & Hin & HP & HD). unfold initDestination.
  destruct (map_has (st_distances st) (to e)) eqn:Eh; simpl;
    [repeat split; assumption|].
  unfold init_inv. cbn [st_visited st_queue st_distances st_previous].
  repeat split; try assumption.
  - now apply map_keys_set_congr.
  - intros v Hv. apply map_keys_set_In. auto.
  - intro v. rewrite previousOf_set. now destruct (Node_eqb (to e) v).
  - intro v. rewrite distanceOf_set.
    destruct (Node_eqb (to e) v) eqn:E; [|apply HD].
    apply Node_eqb_eq in E. subst v. rewrite <- HD.
    unfold distanceOf. apply map_has_get_none in Eh. now rewrite Eh.
Qed.

Lemma initDestination_keys st e v :
  In v (map_keys (st_distances (initDestination st e))) <->
  v = to e \/ In v (map_keys (st_distances st)).
Proof.
  unfold initDestination.
  destruct (map_has (st_distances st) (to e)) eqn:Eh; simpl.
  - apply map_has_In_keys in Eh. split; [auto|]. intros [->|?]; auto.
  - apply map_keys_set_In.
Qed.

Lemma fold_initDestination_keys es st v :
  In v (map_keys (st_distances (fold_left initDestination es st))) <->
  In v (map to es) \/ In v (map_keys (st_distances st)).
Proof.
  revert st. induction es as [|e r IH]; intro st; simpl; [tauto|].
  rewrite IH, initDestination_keys. split.
  - intros [?|[?|?]]; auto.
  - intros [[?|?]|?]; auto.
Qed.

Lemma fold_fold_initDestination_keys (ess : list (list Edge)) st v :
  In v (map_keys (st_distances
          (fold_left (fun st edges => fold_left initDestination edges st)
                     ess st))) <->
  (exists es e, In es ess /\ In e es /\ to e = v) \/
  In v (map_keys (st_distances st)).
Proof.
  revert st. induction ess as [|es r IH]; intro st; simpl.
  - split; [auto|]. intros [(es & e & [] & _)|?]. assumption.
  - rewrite IH, fold_initDestination_keys. split.
    + intros [(es' & e & H1 & H2 & H3)|[H|H]].
      * left. exists es', e. auto.
      * left. apply in_map_iff in H. destruct H as (e & H1 & H2).
        exists es, e. auto.
      * now right.
    + intros [(es' & e & [<-|H1] & H2 & H3)|H].
      * right. left. subst v. now apply in_map.
      * left. exists es', e. auto.
      * right. now right.
Qed.

Lemma initState_keys_phase (g : Graph) (start : Node) :
  let st1 := fold_left (initKey start) (map_keys g)
                       (mkState [] [] [] createPriorityQueue) in
  init_inv start (map_keys g) st1 /\
  (forall v, In v (map_keys (st_distances st1)) <-> In v (map_keys g)).
Proof.
  set (I := fun ks st =>
              init_inv start ks st /\
              forall v, In v (map_keys (st_distances st)) <-> In v ks).
  assert (H : I ([] ++ map_keys g)
                (fold_left (initKey start) (map_keys g)
                   (mkState [] [] [] createPriorityQueue))).
  { apply fold_left_prefix_invariant.
    - intros pre a b [Hi Hk]. split; [now apply initKey_inv|].
      intro v. unfold initKey. cbn [st_distances].
      rewrite map_keys_set_In, Hk, in_app_iff. simpl. split.
      + intros [->|?]; auto.
      + intros [?|[<-|[]]]; auto.
    - split; [|simpl; tauto].
      repeat split; simpl; auto; tauto. }
  exact H.
Qed.

Lemma initState_facts (g : Graph) (start : Node) :
  let st := initState g start in
  st_visited st = [] /\
  items (st_queue st) = [mkItem start (Fin 0)] /\
  map_keys (st_distances st) = map_keys (st_previous st) /\
  (forall v, In v (map_keys (st_distances st)) <-> known g v) /\
  (forall v, previousOf (st_previous st) v = None) /\
  (forall v, distanceOf (st_distances st) v
             = if set_has (map_keys g) v && strict_eq v start
               then Fin 0 else PInf).
Proof.
  destruct (initState_keys_phase g start) as [Hi Hk].
  set (st1 := fold_left (initKey start) (map_keys g)
                        (mkState [] [] [] createPriorityQueue)) in *.
  cbv zeta in Hi, Hk.
  set (st2 := fold_left (fun st edges => fold_left initDestination edges st)
                        (map_values g) st1).
  assert (H2 : init_inv start (map_keys g) st2).
  { apply fold_left_invariant; [|exact Hi].
    intros b es _ Hb. apply fold_left_invariant; [|exact Hb].
    intros b' e _ Hb'. now apply initDestination_inv. }
  destruct H2 as (HV & HQ & HK & Hin & HP & HD).
  unfold initState. fold st1. fold st2.
  cbn [st_visited st_queue st_distances st_previous].
  repeat split; try assumption.
  - intro H. apply fold_fold_initDestination_keys in H.
    destruct H as [H|H]; [now right|left; now apply Hk].
  - intros [H|H]; apply fold_fold_initDestination_keys;
      [right; now apply Hk|now left].
Qed.

(* ================================================================= *)
(** ** The search loop, one iteration at a time *)

Lemma index_of_le V x : (index_of V x <= length V)%nat.
Proof.
  induction V as [|y r IH]; simpl; [lia|].
  destruct (Node_eqb y x); lia.
Qed.

Lemma index_of_lt_In V x : (index_of V x < length V)%nat <-> In x V.
Proof.
  induction V as [|y r IH]; simpl; [split; [lia|tauto]|].
  destruct (Node_eqb y x) eqn:E.
  - apply Node_eqb_eq in E. split; [auto|lia].
  - apply Node_eqb_neq in E. rewrite <- IH. split.
    + intro H. right. lia.
    + intros [H|H]; [contradiction|lia].
Qed.

Lemma index_of_notin V x : ~ In x V -> index_of V x = length V.
Proof.
  intro H. pose proof (index_of_le V x).
  destruct (Nat.eq_dec (index_of V x) (length V)); [assumption|].
  exfalso. apply H, index_of_lt_In. lia.
Qed.

Lemma index_of_app_In V l x : In x V -> index_of (V ++ l) x = index_of V x.
Proof.
  induction V as [|y r IH]; simpl; [tauto|].
  destruct (Node_eqb y x) eqn:E; [reflexivity|].
  apply Node_eqb_neq in E. intros [H|H]; [contradiction|].
  now rewrite IH.
Qed.

Lemma index_of_app_ge V l x : (index_of V x <= index_of (V ++ l) x)%nat.
Proof.
  induction V as [|y r IH]; simpl; [lia|].
  destruct (Node_eqb y x); lia.
Qed.

Lemma set_add_absent V c : set_has V c = false -> set_add V c = V ++ [c].
Proof. intro H. unfold set_add. now rewrite H. Qed.

Lemma jslt_PInf a b : jslt a b = true -> jslt a PInf = true.
Proof. destruct a, b; simpl; congruence. Qed.

Lemma neighborsOf_values (g : Graph) c e :
  In e (neighborsOf g c) ->
  exists es, In es (map_values g) /\ In e es.
Proof.
  unfold neighborsOf. destruct (map_get g c) as [l|] eqn:E; [|contradiction].
  intro H. exists l. split; [|assumption].
  apply map_get_In in E. change l with (snd (c, l)). now apply in_map.
Qed.

Lemma relaxEdge_cases c d st e :
  relaxEdge c d st e = st \/
  (set_has (st_visited st) (to e) = false /\
   jslt (jsadd d (weight e)) (distanceOf (st_distances st) (to e)) = true /\
   relaxEdge c d st e
   = mkState (map_set (st_distances st) (to e) (jsadd d (weight e)))
             (map_set (st_previous st) (to e) (Some c))
             (st_visited st)
             (enqueuePriorityQueue (st_queue st) (to e)
                                   (jsadd d (weight e)))).
Proof.
  unfold relaxEdge. destruct (set_has _ _); [now left|].
  destruct (jslt _ _); [right|now left]. auto.
Qed.

(** Proof rule for the loop body: a property survives an iteration when
    it survives dropping the head of the queue, finalizing the head,
    and one successful relaxation out of a finalized node. *)
Lemma dijkstraStep_rule (g : Graph) (I : DijkstraState -> Prop) :
  (forall st first rest,
      I st -> items (st_queue st) = first :: rest ->
      I (mkState (st_distances st) (st_previous st) (st_visited st)
                 (mkQueue rest))) ->
  (forall st first rest,
      I st -> items (st_queue st) = first :: rest ->
      node_falsy (item first) = false ->
      set_has (st_visited st) (item first) = false ->
      I (mkState (st_distances st) (st_previous st)
                 (set_add (st_visited st) (item first)) (mkQueue rest))) ->
  (forall st c e,
      I st -> set_has (st_visited st) c = true -> node_falsy c = false ->
      In e (neighborsOf g c) ->
      set_has (st_visited st) (to e) = false ->
      jslt (jsadd (distanceOf (st_distances st) c) (weight e))
           (distanceOf (st_distances st) (to e)) = true ->
      I (mkState
           (map_set (st_distances st) (to e)
                    (jsadd (distanceOf (st_distances st) c) (weight e)))
           (map_set (st_previous st) (to e) (Some c))
           (st_visited st)
           (enqueuePriorityQueue (st_queue st) (to e)
              (jsadd (distanceOf (st_distances st) c) (weight e))))) ->
  forall st, I st -> I (dijkstraStep g st).
Proof.
  intros Hpop Hvisit Hrelax st HI.
  unfold dijkstraStep, dequeuePriorityQueue.
  destruct (items (st_queue st)) as [|first rest] eqn:Eq.
  - destruct st as [D P V [q]]. simpl in *. now subst q.
  - cbn [item_falsy].
    destruct (node_falsy (item first)) eqn:Ef; simpl orb.
    + eapply Hpop; eassumption.
    + destruct (set_has (st_visited st) (item first)) eqn:Ev.
      * eapply Hpop; eassumption.
      * set (c := item first) in *.
        set (d := distanceOf (st_distances st) c).
        apply (fold_left_invariant (relaxEdge c d)
                 (fun s => I s /\ set_has (st_visited s) c = true /\
                           distanceOf (st_distances s) c = d)).
        -- intros s e He (Hs & Hc & Hd).
           destruct (relaxEdge_cases c d s e) as [->|(Hv & Hl & ->)];
             [auto|].
           cbn [st_visited st_distances]. split; [|split].
           ++ rewrite <- Hd in *. now apply Hrelax.
           ++ assumption.
           ++ rewrite distanceOf_set.
              destruct (Node_eqb (to e) c) eqn:E; [|assumption].
              apply Node_eqb_eq in E. congruence.
        -- cbn [st_visited st_distances]. split; [|split].
           ++ eapply Hvisit; eassumption.
           ++ rewrite set_has_add. now rewrite Node_eqb_refl.
           ++ reflexivity.
Qed.

Lemma search_inv_init (g : Graph) (start : Node) :
  search_inv g start (initState g start).
Proof.
  destruct (initState_facts g start) as (HV & HQ & HK & Hkn & HP & HD).
  constructor; try assumption.
  - rewrite HV. constructor.
  - intros v u H. rewrite HP in H. discriminate.
  - intros v u H. rewrite HP in H. discriminate.
  - intros v _. rewrite HD.
    destruct (set_has (map_keys g) v && strict_eq v start) eqn:E;
      [right|now left].
    apply andb_true_iff in E. destruct E as [_ E].
    apply strict_eq_true_eqb in E. auto.
  - right. split; [assumption|]. intros it. rewrite HQ.
    intros [<-|[]]. reflexivity.
  - apply HP.
  - apply HD.
Qed.

Lemma search_inv_step (g : Graph) (start : Node) (st : DijkstraState) :
  search_inv g start st -> search_inv g start (dijkstraStep g st).
Proof.
  revert st. apply dijkstraStep_rule.
  - (* the head of the queue is dropped *)
    intros st first rest [] Hq. constructor; cbn; try assumption.
    destruct inv_start_seen0 as [H|[H1 H2]]; [now left|right].
    split; [assumption|]. intros it Hit. apply H2. rewrite Hq. now right.
  - (* the head of the queue is finalized *)
    intros st first rest [] Hq Hf Hv.
    constructor; cbn [st_distances st_previous st_visited st_queue];
      try assumption.
    + now apply set_add_NoDup.
    + intros v u Hp. specialize (inv_rank0 v u Hp).
      rewrite (set_add_absent _ _ Hv).
      assert (In u (st_visited st)).
      { apply index_of_lt_In.
        pose proof (index_of_le (st_visited st) v). lia. }
      rewrite (index_of_app_In _ _ u) by assumption.
      pose proof (index_of_app_ge (st_visited st) [item first] v). lia.
    + left. rewrite set_has_add.
      destruct inv_start_seen0 as [H|[H1 H2]].
      * rewrite H. apply orb_true_r.
      * rewrite (H2 first) by (rewrite Hq; now left).
        now rewrite Node_eqb_refl.
  - (* an edge out of a finalized node is relaxed *)
    intros st c e [] Hc Hf He Hv Hlt.
    set (k := to e) in *.
    set (nd := jsadd (distanceOf (st_distances st) c) (weight e)) in *.
    assert (Hck : Node_eqb k c = false).
    { apply Node_eqb_neq. intros E. congruence. }
    assert (Hcin : In c (st_visited st)) by now apply set_has_In.
    assert (Hkin : ~ In k (st_visited st)) by now apply set_has_false_iff.
    assert (Hsk : Node_eqb k start = false).
    { apply Node_eqb_neq. intros E. subst start.
      destruct inv_start_seen0 as [H|[H1 _]]; [congruence|].
      rewrite H1 in Hcin. contradiction. }
    constructor; cbn [st_distances st_previous st_visited st_queue].
    + now apply map_keys_set_congr.
    + intro v. rewrite map_keys_set_In, inv_known0. split; [|auto].
      intros [->|H]; [|assumption]. right.
      destruct (neighborsOf_values g c e He) as (es & H1 & H2).
      exists es, e. auto.
    + assumption.
    + intros v u. rewrite previousOf_set.
      destruct (Node_eqb k v) eqn:E.
      * apply Node_eqb_eq in E. subst v. intro H. inversion H. subst u.
        rewrite (index_of_notin _ _ Hkin). now apply index_of_lt_In.
      * apply inv_rank0.
    + intros v u. rewrite previousOf_set.
      destruct (Node_eqb k v) eqn:E.
      * apply Node_eqb_eq in E. subst v. intro H. inversion H. subst u.
        exists e. rewrite !distanceOf_set, Node_eqb_refl, Hck.
        repeat split; try assumption; try reflexivity.
        now apply jslt_PInf in Hlt.
      * intro Hp. destruct (inv_edge0 v u Hp) as (e' & H1 & H2 & H3 & H4).
        exists e'. rewrite !distanceOf_set, E.
        assert (Node_eqb k u = false) as ->.
        { apply Node_eqb_neq. intros <-. apply Hkin.
          apply index_of_lt_In. specialize (inv_rank0 v k Hp).
          pose proof (index_of_le (st_visited st) v). lia. }
        auto.
    + intros v. rewrite previousOf_set, distanceOf_set.
      destruct (Node_eqb k v) eqn:E; [discriminate|]. apply inv_root0.
    + destruct inv_start_seen0 as [H|[H1 _]]; [now left|].
      rewrite H1 in Hcin. contradiction.
    + rewrite previousOf_set, Hsk. assumption.
    + rewrite distanceOf_set, Hsk. assumption.
Qed.

Lemma fold_left_add_length {A} (l : list (list A)) n :
  fold_left (fun n es => (n + length es)%nat) l n
  = (n + list_sum (map (@length A) l))%nat.
Proof.
  revert n. induction l as [|x r IH]; intro n; simpl; [lia|].
  rewrite IH. lia.
Qed.

Lemma pendingEdges_nil (g : Graph) : pendingEdges g [] = totalEdges g.
Proof.
  unfold pendingEdges, totalEdges, map_values.
  rewrite fold_left_add_length, map_map. simpl. reflexivity.
Qed.

Lemma executeDijkstraInternal_total (g : Graph) (start : Node) :
  exists r, executeDijkstraInternal g start = Some r.
Proof.
  unfold executeDijkstraInternal.
  destruct (dijkstraLoop_terminates g (dijkstraFuel g) (initState g start))
    as [st Hst].
  - destruct (initState_facts g start) as (HV & HQ & _).
    unfold potential, dijkstraFuel. rewrite HV, HQ, pendingEdges_nil.
    simpl. lia.
  - rewrite Hst. eauto.
Qed.

Lemma executeDijkstraInternal_invariant (g : Graph) (start : Node)
  (I : DijkstraState -> Prop) r :
  I (initState g start) ->
  (forall st, I st -> I (dijkstraStep g st)) ->
  executeDijkstraInternal g start = Some r ->
  exists st, I st /\ items (st_queue st) = [] /\
             distances r = st_distances st /\ previous r = st_previous st.
Proof.
  intros Hinit Hstep. unfold executeDijkstraInternal.
  destruct (dijkstraLoop _ _ _) as [st|] eqn:E; [|discriminate].
  intro H. inversion H. subst r. exists st. simpl.
  destruct (dijkstraLoop_invariant g I Hstep _ _ _ Hinit E) as [Hi Hq].
  auto.
Qed.

Lemma executeDijkstraInternal_inv (g : Graph) (start : Node) r :
  executeDijkstraInternal g start = Some r ->
  exists st, search_inv g start st /\ items (st_queue st) = [] /\
             distances r = st_distances st /\ previous r = st_previous st.
Proof.
  apply executeDijkstraInternal_invariant.
  - apply search_inv_init.
  - apply search_inv_step.
Qed.

(* ================================================================= *)
(** ** Walking the predecessor links *)

Lemma walkBack_None fuel P acc : walkBack fuel P None acc = Some acc.
Proof. destruct fuel; reflexivity. Qed.

Lemma walkBack_step fuel P c acc :
  walkBack (S fuel) P (Some c) acc
  = walkBack fuel P (previousOf P c) (c :: acc).
Proof. reflexivity. Qed.

Lemma walkBack_more_fuel P fuel fuel' c acc p :
  walkBack fuel P c acc = Some p -> (fuel <= fuel')%nat ->
  walkBack fuel' P c acc = Some p.
Proof.
  revert fuel' c acc. induction fuel as [|f IH]; intros fuel' c acc H Hle.
  - destruct c; simpl in H; [discriminate|].
    inversion H. apply walkBack_None.
  - destruct c as [v|]; [|rewrite walkBack_None in *; assumption].
    destruct fuel' as [|f']; [lia|]. simpl in *.
    apply IH; [assumption|lia].
Qed.

Lemma previousOf_Some_key P v u :
  previousOf P v = Some u -> In v (map_keys P).
Proof.
  unfold previousOf. intro H. apply map_get_In_keys.
  destruct (map_get P v); [discriminate|discriminate].
Qed.

(** Links that strictly decrease a rank cannot be followed more often
    than the map has keys. *)
Lemma walkBack_terminates P (rank : Node -> nat) :
  (forall v u, previousOf P v = Some u -> (rank u < rank v)%nat) ->
  forall fuel c acc seen,
    NoDup seen ->
    (forall x, In x seen -> In x (map_keys P)) ->
    (forall v x, c = Some v -> In x seen -> (rank v < rank x)%nat) ->
    (S (map_size P) <= length seen + fuel)%nat ->
    exists p, walkBack fuel P c acc = Some p.
Proof.
  intros Hrank. induction fuel as [|f IH]; intros c acc seen ND Hin Hlt Hlen.
  - destruct c as [v|]; [|simpl; eauto]. exfalso.
    assert (length seen <= length (map_keys P))%nat
      by (apply NoDup_incl_length; [assumption|exact Hin]).
    unfold map_size, map_keys in *. rewrite length_map in *. lia.
  - destruct c as [v|]; [|simpl; eauto]. simpl.
    destruct (previousOf P v) as [u|] eqn:Ep;
      [|rewrite walkBack_None; eauto].
    apply (IH (Some u) (v :: acc) (v :: seen)).
    + constructor; [|assumption]. intro H.
      specialize (Hlt v v eq_refl H). lia.
    + intros x [<-|H]; [eapply previousOf_Some_key; eassumption|auto].
    + intros v' x E [<-|H]; inversion E; subst v'.
      * now apply Hrank.
      * specialize (Hlt v x eq_refl H). specialize (Hrank v u Ep). lia.
    + simpl. lia.
Qed.

Lemma walkBack_of_rank P (rank : Node -> nat) target :
  (forall v u, previousOf P v = Some u -> (rank u < rank v)%nat) ->
  exists p, walkBack (S (map_size P)) P (Some target) [] = Some p.
Proof.
  intro H. apply (walkBack_terminates P rank H _ _ _ []).
  - constructor.
  - intros x [].
  - intros v x _ [].
  - simpl. lia.
Qed.

Lemma jsadd_lt_PInf_l a b :
  jslt (jsadd a b) PInf = true -> jslt a PInf = true.
Proof. destruct a, b; simpl; congruence. Qed.

Lemma weight_of_snoc es e :
  weight_of (es ++ [e]) = jsadd (weight_of es) (weight e).
Proof. unfold weight_of. now rewrite fold_left_app. Qed.

Lemma nodes_of_snoc u es e acc :
  nodes_of u es ++ to e :: acc = nodes_of u (es ++ [e]) ++ acc.
Proof.
  unfold nodes_of. rewrite map_app. simpl.
  now rewrite <- app_assoc.
Qed.

(** A node with a distance below infinity hangs, through its
    predecessor links, on a walk from the start node whose weights add
    up to that distance; the backward walk returns that walk. *)
Lemma search_tree (g : Graph) (start : Node) (st : DijkstraState) :
  search_inv g start st ->
  forall n v,
    (index_of (st_visited st) v <= n)%nat ->
    jslt (distanceOf (st_distances st) v) PInf = true ->
    exists es,
      Walk g start es v /\
      distanceOf (st_distances st) v = weight_of es /\
      forall acc,
        walkBack (S (length es)) (st_previous st) (Some v) acc
        = Some (nodes_of start es ++ acc).
Proof.
  intros Hinv. induction n as [|n IH]; intros v Hn Hd.
  - destruct (previousOf (st_previous st) v) as [u|] eqn:Ep.
    + pose proof (inv_rank _ _ _ Hinv v u Ep). lia.
    + destruct (inv_root _ _ _ Hinv v Ep) as [H|[-> H]].
      * rewrite H in Hd. discriminate.
      * exists []. split; [constructor|]. split; [assumption|].
        intro acc. simpl. rewrite Ep. reflexivity.
  - destruct (previousOf (st_previous st) v) as [u|] eqn:Ep.
    + pose proof (inv_rank _ _ _ Hinv v u Ep) as Hr.
      destruct (inv_edge _ _ _ Hinv v u Ep) as (e & He & Hto & Hw & _).
      assert (Hu : jslt (distanceOf (st_distances st) u) PInf = true).
      { rewrite Hw in Hd. now apply jsadd_lt_PInf_l in Hd. }
      destruct (IH u ltac:(lia) Hu) as (es & HW & Hdu & Hwalk).
      exists (es ++ [e]). subst v. split; [exact (Walk_snoc g start es u e HW He)|].
      split; [rewrite weight_of_snoc; congruence|].
      intro acc. rewrite length_app. simpl length.
      replace (S (length es + 1)) with (S (S (length es))) by lia.
      rewrite walkBack_step, Ep, Hwalk. f_equal. apply nodes_of_snoc.
    + destruct (inv_root _ _ _ Hinv v Ep) as [H|[-> H]].
      * rewrite H in Hd. discriminate.
      * exists []. split; [constructor|]. split; [assumption|].
        intro acc. simpl. rewrite Ep. reflexivity.
Qed.

Lemma Walk_weights_valid (g : Graph) u es v :
  graph_weights_valid g -> Walk g u es v ->
  weight_of es = PInf \/ exists z, weight_of es = Fin z /\ 0 <= z.
Proof.
  intros Hg HW. induction HW as [|es v e HW IH He].
  - right. exists 0. split; [reflexivity|lia].
  - destruct (neighborsOf_values g v e He) as (l & H1 & H2).
    destruct (Hg l e H1 H2) as (w & Hw & Hw0).
    rewrite weight_of_snoc, Hw.
    destruct IH as [->|(z & -> & Hz0)]; [now left|].
    destruct (jsadd_nonneg z w Hz0 Hw0) as [H|(r & H & Hr & _)];
      [now left|right; eauto].
Qed.

Lemma Walk_nodes_known (g : Graph) u es v :
  known g u -> Walk g u es v ->
  forall x, In x (nodes_of u es) -> known g x.
Proof.
  intros Hu HW. induction HW as [|es v e HW IH He].
  - intros x [<-|[]]. assumption.
  - intros x Hx. unfold nodes_of in Hx. rewrite map_app in Hx.
    simpl in Hx. destruct Hx as [<-|Hx]; [assumption|].
    apply in_app_iff in Hx. destruct Hx as [Hx|[<-|[]]].
    + apply IH. now right.
    + right. destruct (neighborsOf_values g v e He) as (l & H1 & H2).
      exists l, e. auto.
Qed.

Lemma Walk_end_known (g : Graph) u es v :
  known g u -> Walk g u es v -> known g v.
Proof.
  intros Hu HW. destruct HW as [|es v e HW He]; [assumption|].
  right. destruct (neighborsOf_values g v e He) as (l & H1 & H2).
  exists l, e. auto.
Qed.


Lemma map_has_distances (g : Graph) start st v :
  search_inv g start st ->
  map_has (st_distances st) v = true <-> known g v.
Proof.
  intro H. rewrite map_has_In_keys. apply (inv_known _ _ _ H).
Qed.

(** What [findPaths] returns, read off the final state of the search;
    [I] is any further invariant of the loop. *)
Lemma findPaths_unfold_with (g : Graph) (start target : Node)
  (I : DijkstraState -> Prop) :
  g <> [] -> map_has g start = true ->
  I (initState g start) ->
  (forall st, I st -> I (dijkstraStep g st)) ->
  exists st,
    search_inv g start st /\ I st /\ items (st_queue st) = [] /\
    findPaths g start target
    = if negb (map_has (st_distances st) target)
      then Some (Err (NodeNotFound target))
      else if jsnum_strict_eq (distanceOf (st_distances st) target) PInf
      then Some (Err (NoPath start target))
      else
        match walkBack (S (map_size (st_previous st))) (st_previous st)
                       (Some target) [] with
        | Some p =>
            Some (Ok (mkShortestPath
                        p (distanceOf (st_distances st) target)))
        | None => None
        end.
Proof.
  intros Hne Hs Hinit Hstep. unfold findPaths.
  destruct g as [|entry g']; [contradiction|]. simpl (Nat.eqb _ _).
  rewrite Hs. simpl negb. cbv iota.
  destruct (executeDijkstraInternal_total (entry :: g') start) as [r Hr].
  rewrite Hr.
  destruct (executeDijkstraInternal_invariant (entry :: g') start
              (fun st => search_inv (entry :: g') start st /\ I st) r)
    as (st & [Hi HI] & Hq & HD & HP).
  { split; [apply search_inv_init|assumption]. }
  { intros st [H1 H2]. split; [now apply search_inv_step|now apply Hstep]. }
  { assumption. }
  exists st. split; [assumption|]. split; [assumption|].
  split; [assumption|].
  unfold reconstructPathInternal. rewrite HD, HP.
  destruct (map_has (st_distances st) target) eqn:Eh; simpl negb; cbv iota.
  2:{ reflexivity. }
  destruct (jsnum_strict_eq _ PInf); [reflexivity|].
  destruct (walkBack _ _ _ _); reflexivity.
Qed.

Lemma findPaths_unfold (g : Graph) (start target : Node) :
  g <> [] -> map_has g start = true ->
  exists st,
    search_inv g start st /\ items (st_queue st) = [] /\
    findPaths g start target
    = if negb (map_has (st_distances st) target)
      then Some (Err (NodeNotFound target))
      else if jsnum_strict_eq (distanceOf (st_distances st) target) PInf
      then Some (Err (NoPath start target))
      else
        match walkBack (S (map_size (st_previous st))) (st_previous st)
                       (Some target) [] with
        | Some p =>
            Some (Ok (mkShortestPath
                        p (distanceOf (st_distances st) target)))
        | None => None
        end.
Proof.
  intros Hne Hs.
  destruct (findPaths_unfold_with g start target (fun _ => True) Hne Hs I)
    as (st & H1 & _ & H2 & H3); [auto|].
  exists st. auto.
Qed.

(** The fuel never runs out: every query has an answer. *)
Lemma findPaths_total (g : Graph) (start target : Node) :
  exists res, findPaths g start target = Some res.
Proof.
  unfold findPaths. destruct (Nat.eqb (map_size g) 0); [eauto|].
  destruct (negb (map_has g start)); [eauto|].
  destruct (executeDijkstraInternal_total g start) as [r Hr]. rewrite Hr.
  destruct (executeDijkstraInternal_inv _ _ _ Hr) as (st & Hi & _ & HD & HP).
  unfold reconstructPathInternal. rewrite HD, HP.
  destruct (negb (map_has (st_distances st) target)).
  - eauto.
  - destruct (jsnum_strict_eq _ PInf).
    + eauto.
    + destruct (walkBack_of_rank (st_previous st)
                  (index_of (st_visited st)) target
                  (inv_rank _ _ _ Hi)) as [p Hp].
      rewrite Hp. eauto.
Qed.

Lemma findPaths_Ok_inv (g : Graph) (start target : Node) sp :
  findPaths g start target = Some (Ok sp) ->
  g <> [] /\ map_has g start = true.
Proof.
  unfold findPaths. destruct g as [|entry g']; [discriminate|].
  simpl (Nat.eqb _ _). cbv iota.
  destruct (map_has (entry :: g') start); [|discriminate].
  intros _. split; [discriminate|reflexivity].
Qed.

(** Distances are never [NaN]. *)
Lemma search_inv_distance (g : Graph) start st v :
  search_inv g start st ->
  distanceOf (st_distances st) v = PInf \/
  jslt (distanceOf (st_distances st) v) PInf = true.
Proof.
  intro Hinv. destruct (previousOf (st_previous st) v) as [u|] eqn:Ep.
  - destruct (inv_edge _ _ _ Hinv v u Ep) as (e & _ & _ & _ & H). now right.
  - destruct (inv_root _ _ _ Hinv v Ep) as [H|[_ H]]; [now left|right].
    now rewrite H.
Qed.

Lemma search_inv_walkBack (g : Graph) start st target :
  search_inv g start st ->
  exists p, walkBack (S (map_size (st_previous st))) (st_previous st)
                     (Some target) [] = Some p.
Proof.
  intro Hinv.
  apply (walkBack_of_rank _ (index_of (st_visited st))).
  apply (inv_rank _ _ _ Hinv).
Qed.

(** A successful query, read off the final state of the search. *)
Lemma findPaths_Ok_walk (g : Graph) (start target : Node) sp :
  findPaths g start target = Some (Ok sp) ->
  exists st es,
    search_inv g start st /\ items (st_queue st) = [] /\
    Walk g start es target /\
    path sp = nodes_of start es /\
    distance sp = weight_of es /\
    distance sp = distanceOf (st_distances st) target.
Proof.
  intro H. destruct (findPaths_Ok_inv _ _ _ _ H) as [Hne Hs].
  destruct (findPaths_unfold g start target Hne Hs) as (st & Hinv & Hq & E).
  rewrite E in H. clear E.
  destruct (map_has (st_distances st) target); simpl negb in H;
    cbv iota in H; [|discriminate].
  destruct (jsnum_strict_eq (distanceOf (st_distances st) target) PInf)
    eqn:Einf; [discriminate|].
  destruct (walkBack _ _ _ _) as [p|] eqn:Ew; [|discriminate].
  inversion H. subst sp. clear H. simpl.
  assert (Hd : jslt (distanceOf (st_distances st) target) PInf = true).
  { destruct (search_inv_distance g start st target Hinv) as [Hd|Hd];
      [|assumption].
    rewrite Hd in Einf. discriminate. }
  destruct (search_tree g start st Hinv _ target (Nat.le_refl _) Hd)
    as (es & HW & Hdist & Hwalk).
  assert (Hp : p = nodes_of start es).
  { specialize (Hwalk []). rewrite app_nil_r in Hwalk.
    set (M := Nat.max (S (map_size (st_previous st))) (S (length es))).
    apply (walkBack_more_fuel _ _ M) in Ew; [|lia].
    apply (walkBack_more_fuel _ _ M) in Hwalk; [|lia].
    congruence. }
  exists st, es. split; [assumption|]. split; [assumption|].
  split; [assumption|]. split; [assumption|]. split; [assumption|].
  reflexivity.
Qed.

(** A distance that is returned is below [Infinity]. *)
Lemma findPaths_Ok_below (g : Graph) (start target : Node) sp :
  findPaths g start target = Some (Ok sp) ->
  jslt (distance sp) PInf = true.
Proof.
  intro H. destruct (findPaths_Ok_inv _ _ _ _ H) as [Hne Hs].
  destruct (findPaths_unfold g start target Hne Hs) as (st & Hinv & Hq & E).
  rewrite E in H. clear E.
  destruct (map_has (st_distances st) target); simpl negb in H;
    cbv iota in H; [|discriminate].
  destruct (jsnum_strict_eq (distanceOf (st_distances st) target) PInf)
    eqn:Einf; [discriminate|].
  destruct (walkBack _ _ _ _) as [p|] eqn:Ew; [|discriminate].
  inversion H. subst sp. clear H. simpl.
  destruct (search_inv_distance g start st target Hinv) as [Hd|Hd];
    [|assumption].
  rewrite Hd in Einf. discriminate.
Qed.

(** With weights that the validator lets through, a distance that is
    returned is a non-negative number. *)
Lemma findPaths_valid_distance (g : Graph) (s t : Node) sp :
  graph_weights_valid g -> findPaths g s t = Some (Ok sp) ->
  exists z, distance sp = Fin z /\ 0 <= z.
Proof.
  intros Hg Hfind. pose proof (findPaths_Ok_below g s t sp Hfind) as Hlt.
  destruct (findPaths_Ok_walk _ _ _ _ Hfind)
    as (st & es & _ & _ & HW & _ & Hd & _).
  rewrite Hd in *.
  destruct (Walk_weights_valid g s es t Hg HW) as [H|H]; [|assumption].
  rewrite H in Hlt. discriminate.
Qed.

(* ================================================================= *)
(** ** The analyzer: nodes and termination of the exploration *)

Lemma fold_set_add_In (l : list Node) (s : JsSet) x :
  In x (fold_left set_add l s) <-> In x l \/ In x s.
Proof.
  revert s. induction l as [|k r IH]; intro s; simpl; [tauto|].
  rewrite IH, set_add_In. split.
  - intros [?|[->|?]]; auto.
  - intros [[<-|?]|?]; auto.
Qed.

Lemma fold_set_add_NoDup (l : list Node) (s : JsSet) :
  NoDup s -> NoDup (fold_left set_add l s).
Proof.
  revert s. induction l as [|k r IH]; intros s H; simpl; [assumption|].
  apply IH. now apply set_add_NoDup.
Qed.

Lemma fold_set_add_to_In (es : list Edge) (s : JsSet) x :
  In x (fold_left (fun s e => set_add s (to e)) es s) <->
  In x (map to es) \/ In x s.
Proof.
  revert s. induction es as [|e r IH]; intro s; simpl; [tauto|].
  rewrite IH, set_add_In. split.
  - intros [?|[->|?]]; auto.
  - intros [[<-|?]|?]; auto.
Qed.

Lemma extractAllNodes_In (g : Graph) v :
  In v (extractAllNodes g) <-> known g v.
Proof.
  unfold extractAllNodes, known.
  set (s0 := fold_left set_add (map_keys g) []).
  assert (H0 : In v s0 <-> In v (map_keys g)).
  { subst s0. rewrite fold_set_add_In. simpl. tauto. }
  rewrite <- H0. clear H0. generalize s0. clear s0.
  induction (map_values g) as [|es r IH]; intro s; simpl.
  - split; [auto|]. intros [?|(es & e & [] & _)]. assumption.
  - rewrite IH, fold_set_add_to_In. split.
    + intros [[H|H]|(es' & e & H1 & H2 & H3)].
      * right. apply in_map_iff in H. destruct H as (e & H1 & H2).
        exists es, e. auto.
      * now left.
      * right. exists es', e. auto.
    + intros [H|(es' & e & [<-|H1] & H2 & H3)].
      * left. now right.
      * left. left. subst v. now apply in_map.
      * right. exists es', e. auto.
Qed.

Lemma extractAllNodes_NoDup (g : Graph) : NoDup (extractAllNodes g).
Proof.
  unfold extractAllNodes.
  apply fold_left_invariant.
  - intros s es _ Hs. apply fold_left_invariant; [|assumption].
    intros s' e _ Hs'. now apply set_add_NoDup.
  - apply fold_set_add_NoDup. constructor.
Qed.

Lemma neighborsOf_nil (g : Graph) c :
  ~ In c (map_keys g) -> neighborsOf g c = [].
Proof.
  intro H. unfold neighborsOf.
  destruct (map_get g c) eqn:E; [|reflexivity].
  exfalso. apply H, map_get_In_keys. congruence.
Qed.

Lemma pushBound_unknown (g : Graph) c :
  ~ known g c -> pushBound g c = O.
Proof.
  intro H. unfold pushBound. rewrite neighborsOf_nil.
  2:{ intro Hk. apply H. now left. }
  simpl. apply length_zero_iff_nil.
  destruct (filter _ _) as [|e l] eqn:E; [reflexivity|].
  exfalso. assert (Hin : In e (e :: l)) by now left.
  rewrite <- E in Hin. apply filter_In in Hin. destruct Hin as [Hin Heq].
  apply in_concat in Hin. destruct Hin as (es & H1 & H2).
  apply H. right. exists es, e. apply Node_eqb_eq in Heq. auto.
Qed.

Lemma pendingPushes_add_le (g : Graph) U V c :
  (pendingPushes g U (set_add V c) <= pendingPushes g U V)%nat.
Proof.
  unfold pendingPushes. induction U as [|u r IH]; simpl; [lia|].
  rewrite set_has_add. destruct (set_has V u); simpl.
  - rewrite orb_true_r. exact IH.
  - rewrite orb_false_r. destruct (Node_eqb c u); lia.
Qed.

Lemma pendingPushes_add (g : Graph) U V c :
  In c U -> set_has V c = false ->
  (pendingPushes g U (set_add V c) + pushBound g c
   <= pendingPushes g U V)%nat.
Proof.
  intros Hin Hc. induction U as [|u r IH]; [contradiction|].
  unfold pendingPushes in *. simpl. rewrite set_has_add.
  destruct (Node_eqb c u) eqn:E.
  - apply Node_eqb_eq in E. subst u. rewrite Hc. simpl.
    pose proof (pendingPushes_add_le g r V c) as Hle.
    unfold pendingPushes in Hle. lia.
  - destruct Hin as [->|Hin]; [rewrite Node_eqb_refl in E; discriminate|].
    specialize (IH Hin). simpl. destruct (set_has V u); lia.
Qed.

Lemma pendingPushes_visit (g : Graph) V c :
  set_has V c = false ->
  (pendingPushes g (extractAllNodes g) (set_add V c) + pushBound g c
   <= pendingPushes g (extractAllNodes g) V)%nat.
Proof.
  intro Hc.
  destruct (in_dec Node_eq_dec c (extractAllNodes g)) as [Hin|Hin].
  - now apply pendingPushes_add.
  - rewrite pushBound_unknown.
    + pose proof (pendingPushes_add_le g (extractAllNodes g) V c). lia.
    + intro H. now apply Hin, extractAllNodes_In.
Qed.

Lemma addDirectAdjacentNodes_length (g : Graph) c V stack :
  (length (addDirectAdjacentNodes g c V stack)
   <= length stack + length (neighborsOf g c))%nat.
Proof.
  unfold addDirectAdjacentNodes.
  generalize (neighborsOf g c). intro l. revert stack.
  induction l as [|e r IH]; intro stack; simpl; [lia|].
  match goal with |- context [fold_left ?f r ?s] => specialize (IH s) end.
  destruct (negb (set_has V (to e))); simpl in *; lia.
Qed.

Lemma strict_eq_Node_eqb a b : strict_eq a b = true -> Node_eqb a b = true.
Proof. intro H. apply Node_eqb_eq. now apply strict_eq_true_eqb. Qed.

Lemma reverse_inner_length (c node : Node) V (es : list Edge) stack :
  (length (fold_left
             (fun stack edge =>
                if strict_eq (to edge) c && negb (set_has V node)
                then node :: stack else stack) es stack)
   <= length stack
      + length (filter (fun e => Node_eqb (to e) c) es))%nat.
Proof.
  revert stack. induction es as [|e r IH]; intro stack; simpl; [lia|].
  match goal with |- context [fold_left ?f r ?s] => specialize (IH s) end.
  destruct (strict_eq (to e) c) eqn:E; simpl in *.
  - rewrite (strict_eq_Node_eqb _ _ E). simpl.
    destruct (negb (set_has V node)); simpl in *; lia.
  - destruct (Node_eqb (to e) c); simpl; lia.
Qed.

Lemma addReverseAdjacentNodes_length (g : Graph) c V stack :
  (length (addReverseAdjacentNodes g c V stack)
   <= length stack
      + length (filter (fun e => Node_eqb (to e) c)
                       (concat (map_values g))))%nat.
Proof.
  unfold addReverseAdjacentNodes. revert stack.
  induction g as [|[node es] r IH]; intro stack; simpl; [lia|].
  rewrite filter_app, length_app.
  match goal with |- context [fold_left ?f r ?s] => specialize (IH s) end.
  pose proof (reverse_inner_length c node V es stack). lia.
Qed.

Lemma addAdjacentNodes_length (g : Graph) c V stack :
  (length (addAdjacentNodes g c V stack)
   <= length stack + pushBound g c)%nat.
Proof.
  unfold addAdjacentNodes, pushBound.
  pose proof (addReverseAdjacentNodes_length g c V
                (addDirectAdjacentNodes g c V stack)).
  pose proof (addDirectAdjacentNodes_length g c V stack). lia.
Qed.

Lemma exploreLoop_terminates (g : Graph) :
  forall fuel V stack component,
    (length stack + pendingPushes g (extractAllNodes g) V <= fuel)%nat ->
    exists res, exploreLoop fuel g V stack component = Some res.
Proof.
  induction fuel as [|f IH]; intros V stack component Hle.
  - destruct stack; simpl in *; [eauto|lia].
  - destruct stack as [|c rest]; simpl; [eauto|].
    destruct (set_has V c) eqn:Ec.
    + apply IH. simpl in Hle. lia.
    + apply IH. simpl in Hle.
      pose proof (addAdjacentNodes_length g c (set_add V c) rest).
      pose proof (pendingPushes_visit g V c Ec). lia.
Qed.

Lemma pendingPushes_le_total (g : Graph) U V :
  (pendingPushes g U V
   <= fold_left (fun k n => (k + pushBound g n)%nat) U O)%nat.
Proof.
  assert (H : forall k, fold_left (fun k n => (k + pushBound g n)%nat) U k
                        = (k + list_sum (map (pushBound g) U))%nat).
  { induction U as [|u r IH]; intro k; simpl; [lia|]. rewrite IH. lia. }
  rewrite H. clear H. simpl. unfold pendingPushes.
  induction U as [|u r IH]; simpl; [lia|].
  destruct (set_has V u); lia.
Qed.

Lemma exploreComponent_total (g : Graph) (startNode : Node) V :
  exists res, exploreComponent g startNode V = Some res.
Proof.
  unfold exploreComponent. apply exploreLoop_terminates.
  unfold exploreFuel.
  pose proof (pendingPushes_le_total g (extractAllNodes g) V).
  simpl. lia.
Qed.

Lemma findComponentsFrom_total (g : Graph) nodes V components :
  exists cs, findComponentsFrom g nodes V components = Some cs.
Proof.
  revert V components.
  induction nodes as [|n r IH]; intros V components; simpl; [eauto|].
  destruct (set_has V n); [apply IH|].
  destruct (exploreComponent_total g n V) as [[component V'] H].
  rewrite H. apply IH.
Qed.

Lemma analyzeGraph_total (g : Graph) :
  g <> [] ->
  exists cs,
    findConnectedComponents g (extractAllNodes g) = Some cs /\
    analyzeGraph g
    = Some (Ok (mkGraphAnalysis
                  (length (extractAllNodes g)) (calculateEdgeCount g)
                  (length cs <=? 1)%nat cs
                  (calculateDensity (length (extractAllNodes g))
                                    (calculateEdgeCount g)))).
Proof.
  intro Hne. unfold analyzeGraph.
  destruct g as [|entry g']; [contradiction|]. simpl (Nat.eqb _ _). cbv iota.
  destruct (findComponentsFrom_total (entry :: g')
              (extractAllNodes (entry :: g')) [] []) as [cs Hcs].
  exists cs. unfold findConnectedComponents. rewrite Hcs. auto.
Qed.

Lemma calculateEdgeCount_sum (g : Graph) :
  calculateEdgeCount g = length (concat (map_values g)).
Proof.
  unfold calculateEdgeCount. rewrite fold_left_add_length. simpl.
  induction (map_values g) as [|es r IH]; simpl; [reflexivity|].
  rewrite length_app. lia.
Qed.

(* ================================================================= *)
(** ** Finite distance is reachability *)

Lemma relaxEdge_cases3 c d st e :
  (set_has (st_visited st) (to e) = true /\ relaxEdge c d st e = st) \/
  (set_has (st_visited st) (to e) = false /\
   jslt (jsadd d (weight e)) (distanceOf (st_distances st) (to e)) = false /\
   relaxEdge c d st e = st) \/
  (set_has (st_visited st) (to e) = false /\
   jslt (jsadd d (weight e)) (distanceOf (st_distances st) (to e)) = true /\
   relaxEdge c d st e
   = mkState (map_set (st_distances st) (to e) (jsadd d (weight e)))
             (map_set (st_previous st) (to e) (Some c))
             (st_visited st)
             (enqueuePriorityQueue (st_queue st) (to e)
                                   (jsadd d (weight e)))).
Proof.
  unfold relaxEdge. destruct (set_has _ _); [now left|right].
  destruct (jslt _ _); [right|left]; auto.
Qed.

(** Proof rule for the loop body with an invariant of the inner loop
    that may mention the edges already relaxed. *)
Lemma dijkstraStep_rule_inner (g : Graph) (I : DijkstraState -> Prop)
  (J : Node -> JsNum -> list Edge -> DijkstraState -> Prop) :
  (forall st first rest,
      I st -> items (st_queue st) = first :: rest ->
      node_falsy (item first) = true \/
      set_has (st_visited st) (item first) = true ->
      I (mkState (st_distances st) (st_previous st) (st_visited st)
                 (mkQueue rest))) ->
  (forall st first rest,
      I st -> items (st_queue st) = first :: rest ->
      node_falsy (item first) = false ->
      set_has (st_visited st) (item first) = false ->
      J (item first) (distanceOf (st_distances st) (item first)) []
        (mkState (st_distances st) (st_previous st)
                 (set_add (st_visited st) (item first)) (mkQueue rest))) ->
  (forall c d done e st,
      J c d done st -> In e (neighborsOf g c) ->
      J c d (done ++ [e]) (relaxEdge c d st e)) ->
  (forall c d st, J c d (neighborsOf g c) st -> I st) ->
  forall st, I st -> I (dijkstraStep g st).
Proof.
  intros Hpop Henter Hrelax Hexit st HI.
  unfold dijkstraStep, dequeuePriorityQueue.
  destruct (items (st_queue st)) as [|first rest] eqn:Eq.
  - destruct st as [D P V [q]]. simpl in *. now subst q.
  - cbn [item_falsy].
    destruct (node_falsy (item first)) eqn:Ef; simpl orb.
    + eapply Hpop; eauto.
    + destruct (set_has (st_visited st) (item first)) eqn:Ev.
      * eapply Hpop; eauto.
      * set (c := item first) in *.
        set (d := distanceOf (st_distances st) c).
        apply (Hexit c d).
        assert (H : forall l pre s,
                   (forall e, In e l -> In e (neighborsOf g c)) ->
                   J c d pre s ->
                   J c d (pre ++ l) (fold_left (relaxEdge c d) l s)).
        { induction l as [|e l IH]; intros pre s Hl Hs; simpl.
          - now rewrite app_nil_r.
          - replace (pre ++ e :: l) with ((pre ++ [e]) ++ l)
              by (rewrite <- app_assoc; reflexivity).
            apply IH; [intros; apply Hl; now right|].
            apply Hrelax; [assumption|apply Hl; now left]. }
        apply (H (neighborsOf g c) []); [auto|].
        eapply Henter; eassumption.
Qed.

Lemma reach_core_pop (g : Graph) st first rest :
  reach_core g st -> items (st_queue st) = first :: rest ->
  node_falsy (item first) = true \/
  set_has (st_visited st) (item first) = true ->
  reach_core g (mkState (st_distances st) (st_previous st) (st_visited st)
                        (mkQueue rest)).
Proof.
  intros [] Hq Hwhy. constructor; cbn; try assumption.
  - intros it Hit. apply rc_queue0. rewrite Hq. now right.
  - intros v Hv Hd. destruct (rc_frontier0 v Hv Hd) as [H|(it & H1 & H2)];
      [now left|].
    rewrite Hq in H1. destruct H1 as [<-|H1].
    + subst v. destruct Hwhy as [H|H]; [congruence|].
      left. now apply set_has_In.
    + right. eauto.
Qed.

Lemma core_inner_enter (g : Graph) st first rest :
  reach_core g st -> items (st_queue st) = first :: rest ->
  node_falsy (item first) = false ->
  set_has (st_visited st) (item first) = false ->
  core_inner g (item first) (distanceOf (st_distances st) (item first))
    (mkState (st_distances st) (st_previous st)
             (set_add (st_visited st) (item first)) (mkQueue rest)).
Proof.
  intros [] Hq Hf Hv.
  assert (Hd : jslt (distanceOf (st_distances st) (item first)) PInf = true).
  { destruct (rc_queue0 first) as [H|H]; [rewrite Hq; now left| |assumption].
    congruence. }
  unfold core_inner. cbn [st_distances st_visited st_queue].
  split; [constructor; cbn [st_distances st_visited st_queue]|].
  - assumption.
  - intros it Hit. apply rc_queue0. rewrite Hq. now right.
  - intros c Hc. apply set_add_In in Hc. destruct Hc as [->|Hc]; auto.
  - intros v Hv' Hd'.
    destruct (rc_frontier0 v Hv' Hd') as [H|(it & H1 & H2)].
    + left. apply set_add_In. now right.
    + rewrite Hq in H1. destruct H1 as [<-|H1].
      * left. apply set_add_In. now left.
      * right. eauto.
  - split; [apply set_add_In; now left|]. split; [reflexivity|].
    destruct (rc_fin0 (item first)) as [H|H]; [|assumption].
    rewrite H in Hd. discriminate.
Qed.

Lemma reach_inner_enter (g : Graph) st first rest :
  reach_inv g st -> items (st_queue st) = first :: rest ->
  node_falsy (item first) = false ->
  set_has (st_visited st) (item first) = false ->
  reach_inner g (item first) (distanceOf (st_distances st) (item first)) []
    (mkState (st_distances st) (st_previous st)
             (set_add (st_visited st) (item first)) (mkQueue rest)).
Proof.
  intros [[] Hcl] Hq Hf Hv.
  assert (Hd : jslt (distanceOf (st_distances st) (item first)) PInf = true).
  { destruct (rc_queue0 first) as [H|H]; [rewrite Hq; now left| |assumption].
    congruence. }
  unfold reach_inner. cbn [st_distances st_visited st_queue].
  split; [constructor; cbn [st_distances st_visited st_queue]|].
  - assumption.
  - intros it Hit. apply rc_queue0. rewrite Hq. now right.
  - intros c Hc. apply set_add_In in Hc. destruct Hc as [->|Hc]; auto.
  - intros v Hv' Hd'.
    destruct (rc_frontier0 v Hv' Hd') as [H|(it & H1 & H2)].
    + left. apply set_add_In. now right.
    + rewrite Hq in H1. destruct H1 as [<-|H1].
      * left. apply set_add_In. now left.
      * right. eauto.
  - split; [apply set_add_In; now left|]. split; [reflexivity|].
    split.
    { destruct (rc_fin0 (item first)) as [H|H]; [|assumption].
      rewrite H in Hd. discriminate. }
    split.
    + intros c' Hc' Hne. apply set_add_In in Hc'.
      destruct Hc' as [->|Hc']; [contradiction|]. now apply Hcl.
    + intros e [].
Qed.

Lemma core_inner_relax (g : Graph) c d e st :
  core_inner g c d st ->
  (set_has (st_visited st) (to e) = false ->
   jsadd d (weight e) = PInf \/ exists z, jsadd d (weight e) = Fin z) ->
  core_inner g c d (relaxEdge c d st e).
Proof.
  intros ([] & Hc & Hd & (zd & Hzd)) Hcand.
  destruct (relaxEdge_cases3 c d st e)
    as [[Hv ->]|[(Hv & Hlt & ->)|(Hv & Hlt & ->)]].
  - split; [constructor; assumption|]. repeat split; try assumption.
    now exists zd.
  - split; [constructor; assumption|]. repeat split; try assumption.
    now exists zd.
  - destruct (Hcand Hv) as [Hnd|[znd Hnd]]; rewrite Hnd in *.
    { exfalso. destruct (distanceOf (st_distances st) (to e));
        discriminate. }
    set (k := to e) in *.
    assert (Hkc : Node_eqb k c = false).
    { apply Node_eqb_neq. intros E. rewrite E in Hv.
      apply set_has_false_iff in Hv. contradiction. }
    assert (Hmono : forall v,
               jslt (distanceOf (st_distances st) v) PInf = true ->
               jslt (distanceOf (map_set (st_distances st) k (Fin znd))
                                v) PInf = true).
    { intros v H. rewrite distanceOf_set. now destruct (Node_eqb k v). }
    unfold core_inner. cbn [st_distances st_visited st_queue].
    split; [constructor; cbn [st_distances st_visited st_queue]|].
    + intro v. rewrite distanceOf_set.
      destruct (Node_eqb k v); [right; eauto|apply rc_fin0].
    + intros it Hit. apply enqueue_In in Hit.
      destruct Hit as [->|Hit]; cbn [item].
      * right. rewrite distanceOf_set, Node_eqb_refl. reflexivity.
      * destruct (rc_queue0 it Hit) as [H|H]; [now left|right].
        now apply Hmono.
    + intros c' Hc'. apply Hmono. now apply rc_visited0.
    + intros v Hf Hdv. rewrite distanceOf_set in Hdv.
      destruct (Node_eqb k v) eqn:E.
      * apply Node_eqb_eq in E. subst v. right.
        exists (mkItem k (Fin znd)). split; [|reflexivity].
        apply enqueue_In. now left.
      * destruct (rc_frontier0 v Hf Hdv) as [H|(it & H1 & H2)];
          [now left|right].
        exists it. split; [|assumption]. apply enqueue_In. now right.
    + split; [assumption|]. split.
      { rewrite distanceOf_set, Hkc. assumption. }
      now exists zd.
Qed.

Lemma reach_inner_core (g : Graph) c d done st :
  reach_inner g c d done st -> core_inner g c d st.
Proof.
  intros (H1 & H2 & H3 & H4 & _). unfold core_inner. auto.
Qed.

Lemma reach_inner_relax (g : Graph) c d done e st :
  (set_has (st_visited st) (to e) = false ->
   exists z, jsadd d (weight e) = Fin z) ->
  reach_inner g c d done st -> In e (neighborsOf g c) ->
  reach_inner g c d (done ++ [e]) (relaxEdge c d st e).
Proof.
  intros Hcand Hri He.
  assert (Hcore' : core_inner g c d (relaxEdge c d st e)).
  { apply core_inner_relax; [now apply (reach_inner_core g c d done)|].
    intro Hv. right. now apply Hcand. }
  destruct Hcore' as (Hcore' & Hc' & Hd' & Hz').
  destruct Hri as ([] & Hc & Hd & (zd & Hzd) & Hcl & Hdone).
  split; [assumption|]. split; [assumption|]. split; [assumption|].
  split; [assumption|]. clear Hcore' Hc' Hd' Hz'.
  destruct (relaxEdge_cases3 c d st e)
    as [[Hv ->]|[(Hv & Hlt & ->)|(Hv & Hlt & ->)]].
  - (* the destination is finalized *)
    split; [assumption|].
    intros e' He'. apply in_app_iff in He'.
    destruct He' as [He'|[<-|[]]]; [now apply Hdone|].
    apply rc_visited0. now apply set_has_In.
  - (* the recorded distance is not improved *)
    split; [assumption|].
    intros e' He'. apply in_app_iff in He'.
    destruct He' as [He'|[<-|[]]]; [now apply Hdone|].
    destruct (Hcand Hv) as [znd Hnd].
    destruct (rc_fin0 (to e)) as [H|[z H]]; rewrite H in *.
    + rewrite Hnd in Hlt. discriminate.
    + reflexivity.
  - (* the destination gets a smaller distance *)
    destruct (Hcand Hv) as [znd Hnd]. rewrite Hnd in *.
    set (k := to e) in *.
    assert (Hmono : forall v,
               jslt (distanceOf (st_distances st) v) PInf = true ->
               jslt (distanceOf (map_set (st_distances st) k (Fin znd))
                                v) PInf = true).
    { intros v H. rewrite distanceOf_set. now destruct (Node_eqb k v). }
    cbn [st_distances st_visited st_queue]. split.
    + intros c' Hc'' Hne e' He'. apply Hmono. now apply (Hcl c' Hc'' Hne).
    + intros e' He'. apply in_app_iff in He'.
      destruct He' as [He'|[<-|[]]].
      * apply Hmono. now apply Hdone.
      * cbn [st_distances]. fold k.
        rewrite distanceOf_set, Node_eqb_refl. reflexivity.
Qed.

Lemma reach_inner_exit (g : Graph) c d st :
  reach_inner g c d (neighborsOf g c) st -> reach_inv g st.
Proof.
  intros (Hcore & Hc & _ & _ & Hcl & Hdone). split; [assumption|].
  intros c' Hc'. destruct (Node_eq_dec c' c) as [->|Hne];
    [assumption|now apply Hcl].
Qed.

Lemma reach_inv_init (g : Graph) (start : Node) :
  In start (map_keys g) -> reach_inv g (initState g start).
Proof.
  intro Hs.
  destruct (initState_facts g start) as (HV & HQ & HK & Hkn & HP & HD).
  assert (Hds : forall v,
             jslt (distanceOf (st_distances (initState g start)) v) PInf
             = true -> v = start).
  { intros v. rewrite HD.
    destruct (set_has (map_keys g) v && strict_eq v start) eqn:E;
      [|discriminate].
    intros _. apply andb_true_iff in E. destruct E as [_ E].
    now apply strict_eq_true_eqb. }
  split; [constructor|].
  - intro v. rewrite HD. destruct (_ && _); [right; eauto|now left].
  - intros it. rewrite HQ. intros [<-|[]]. cbn [item].
    destruct (node_falsy start) eqn:Ef; [now left|right].
    rewrite HD. apply set_has_In in Hs. rewrite Hs.
    now rewrite (truthy_strict_refl _ Ef).
  - rewrite HV. intros c [].
  - intros v _ Hd. right. exists (mkItem start (Fin 0)).
    rewrite HQ. split; [now left|]. symmetry. now apply Hds.
  - rewrite HV. intros c [].
Qed.

(** ** Sums that do not overflow *)

Lemma tree_inv_init (g : Graph) (start : Node) :
  tree_inv g start (initState g start).
Proof.
  destruct (initState_facts g start) as (HV & HQ & HK & Hkn & HP & HD).
  intros v Hd. rewrite HD in Hd |- *.
  destruct (set_has (map_keys g) v && strict_eq v start) eqn:E;
    [|discriminate].
  apply andb_true_iff in E. destruct E as [_ E].
  apply strict_eq_true_eqb in E. subst v.
  exists []. split; [constructor|]. split; [reflexivity|].
  split; [repeat constructor; simpl; tauto|].
  intros x [<-|[]]. now left.
Qed.

Lemma tree_inv_weaken (g : Graph) (start : Node) st st' :
  st_distances st' = st_distances st ->
  (forall x, In x (st_visited st) -> In x (st_visited st')) ->
  tree_inv g start st -> tree_inv g start st'.
Proof.
  intros HD HV H v Hd. rewrite HD in *.
  destruct (H v Hd) as (es & H1 & H2 & H3 & H4).
  exists es. repeat split; try assumption.
  intros x Hx. destruct (H4 x Hx); auto.
Qed.

Lemma nodes_of_app u es e : nodes_of u (es ++ [e]) = nodes_of u es ++ [to e].
Proof. unfold nodes_of. now rewrite map_app. Qed.

(** The walk behind the node being expanded, extended by an edge to a
    node that is not finalized. *)
Lemma tree_inv_extend (g : Graph) (start : Node) st c e :
  tree_inv g start st -> In c (st_visited st) ->
  jslt (distanceOf (st_distances st) c) PInf = true ->
  In e (neighborsOf g c) -> set_has (st_visited st) (to e) = false ->
  exists es,
    Walk g start es (to e) /\
    weight_of es = jsadd (distanceOf (st_distances st) c) (weight e) /\
    NoDup (nodes_of start es) /\
    forall x, In x (nodes_of start es) ->
              x = to e \/ In x (st_visited st).
Proof.
  intros HT Hc Hd He Hv. apply set_has_false_iff in Hv.
  destruct (HT c Hd) as (es & HW & Hw & ND & Hvis).
  assert (Hall : forall x, In x (nodes_of start es) -> In x (st_visited st)).
  { intros x Hx. destruct (Hvis x Hx) as [->|H]; assumption. }
  exists (es ++ [e]). split; [exact (Walk_snoc g start es c e HW He)|].
  split; [now rewrite weight_of_snoc, Hw|].
  rewrite nodes_of_app. split.
  - apply NoDup_app; [assumption|repeat constructor; simpl; tauto|].
    intros x Hx [<-|[]]. apply Hv. now apply Hall.
  - intros x Hx. apply in_app_iff in Hx.
    destruct Hx as [Hx|[<-|[]]]; [right; now apply Hall|now left].
Qed.

Lemma tree_inv_relax (g : Graph) (start : Node) c d e st :
  tree_inv g start st -> In c (st_visited st) ->
  distanceOf (st_distances st) c = d -> jslt d PInf = true ->
  In e (neighborsOf g c) ->
  tree_inv g start (relaxEdge c d st e).
Proof.
  intros HT Hc Hd Hfin He.
  destruct (relaxEdge_cases3 c d st e)
    as [[Hv ->]|[(Hv & Hlt & ->)|(Hv & Hlt & ->)]]; try assumption.
  rewrite <- Hd in Hfin.
  destruct (tree_inv_extend g start st c e HT Hc Hfin He Hv)
    as (es & HW & Hw & ND & Hvis).
  rewrite Hd in Hw.
  intros v. cbn [st_distances st_visited]. rewrite distanceOf_set.
  destruct (Node_eqb (to e) v) eqn:E.
  - apply Node_eqb_eq in E. subst v. intros _. exists es. auto.
  - intro Hdv. exact (HT v Hdv).
Qed.

Lemma safe_inv_init (g : Graph) (start : Node) :
  In start (map_keys g) -> safe_inv g start (initState g start).
Proof.
  intro Hs. split; [now apply reach_inv_init|apply tree_inv_init].
Qed.

Lemma safe_inv_step (g : Graph) (start : Node) (st : DijkstraState) :
  path_sums_finite g start ->
  safe_inv g start st -> safe_inv g start (dijkstraStep g st).
Proof.
  intro Hsafe. revert st.
  apply (dijkstraStep_rule_inner g (safe_inv g start)
           (safe_inner g start)).
  - intros st first rest [[Hcore Hcl] HT] Hq Hwhy. split.
    + split; [now apply (reach_core_pop g st first rest)|exact Hcl].
    + apply (tree_inv_weaken g start st); auto.
  - intros st first rest [Hreach HT] Hq Hf Hv. split.
    + now apply reach_inner_enter.
    + apply (tree_inv_weaken g start st); [reflexivity| |assumption].
      intros x Hx. cbn [st_visited]. apply set_add_In. now right.
  - intros c d done e st [Hri HT] He.
    pose proof Hri as (_ & Hc & Hd & (zd & Hzd) & _).
    assert (Hfin : jslt d PInf = true) by now rewrite Hzd.
    split.
    + apply reach_inner_relax; [|assumption|assumption].
      intro Hv. rewrite <- Hd in Hfin.
      destruct (tree_inv_extend g start st c e HT Hc Hfin He Hv)
        as (es & HW & Hw & ND & _).
      destruct (Hsafe es (to e) HW ND) as [z Hz].
      exists z. rewrite <- Hd. congruence.
    + now apply (tree_inv_relax g start c d e st).
  - intros c d st [Hri HT]. split; [|assumption].
    exact (reach_inner_exit g c d st Hri).
Qed.

(** When the search ends, every node at the end of a walk from the
    start has a distance below [Infinity]; falsy nodes may end the
    walk, since no edge leaves them. *)
Lemma search_reaches (g : Graph) (start : Node) (st : DijkstraState) :
  falsy_nodes_are_sinks g -> In start (map_keys g) ->
  start <> NNum NaN ->
  search_inv g start st -> reach_inv g st -> items (st_queue st) = [] ->
  forall es t, Walk g start es t ->
               jslt (distanceOf (st_distances st) t) PInf = true /\
               (node_falsy t = false -> In t (st_visited st)).
Proof.
  intros Hsink Hs Hnan Hinv [Hcore Hcl] Hq.
  assert (Hfinal : forall v, node_falsy v = false ->
             jslt (distanceOf (st_distances st) v) PInf = true ->
             In v (st_visited st)).
  { intros v Hf Hd.
    destruct (rc_frontier _ _ Hcore v Hf Hd)
      as [H|(it & H1 & _)]; [assumption|].
    rewrite Hq in H1. contradiction. }
  intros es t HW. induction HW as [|es v e HW [IHd IHv] He].
  - assert (Hd : jslt (distanceOf (st_distances st) start) PInf = true).
    { rewrite (inv_start_distance _ _ _ Hinv).
      apply set_has_In in Hs. rewrite Hs.
      assert (E : strict_eq start start = true)
        by (apply strict_eq_spec; auto).
      now rewrite E. }
    split; [assumption|]. intro Hf. now apply Hfinal.
  - assert (Hf : node_falsy v = false).
    { destruct (node_falsy v) eqn:E; [|reflexivity].
      rewrite (Hsink v E) in He. contradiction. }
    assert (Hd : jslt (distanceOf (st_distances st) (to e)) PInf = true)
      by exact (Hcl v (IHv Hf) e He).
    split; [assumption|]. intro Hf'. now apply Hfinal.
Qed.

Lemma falsy_sinks_b_spec (g : Graph) :
  falsy_sinks_b g = true -> falsy_nodes_are_sinks g.
Proof.
  unfold falsy_sinks_b. intros H v Hf. unfold neighborsOf.
  destruct (map_get g v) as [l|] eqn:E; [|reflexivity].
  apply map_get_In in E. rewrite forallb_forall in H.
  specialize (H _ E). cbn [fst snd] in H. rewrite Hf in H.
  destruct l; [reflexivity|discriminate].
Qed.

Lemma weights_within_b_spec (g : Graph) (W : Z) :
  weights_within_b g W = true -> weights_within g W.
Proof.
  unfold weights_within_b. intros H es e Hes He.
  rewrite forallb_forall in H. specialize (H es Hes).
  rewrite forallb_forall in H. specialize (H e He).
  destruct (weight e) as [z| | |]; try discriminate.
  exists z. split; [reflexivity|]. now apply Z.leb_le.
Qed.

(** Sums of few small weights are exact. *)
Lemma Walk_weight_within (g : Graph) s es t W :
  weights_within g W -> Walk g s es t ->
  Z.of_nat (length es) * W < 2 ^ 53 ->
  exists z, weight_of es = Fin z /\ Z.abs z <= Z.of_nat (length es) * W.
Proof.
  intros HW Hwalk. induction Hwalk as [|es v e Hwalk IH He]; intro Hlen.
  - exists 0. split; [reflexivity|]. simpl. lia.
  - destruct (neighborsOf_values g v e He) as (l & H1 & H2).
    destruct (HW l e H1 H2) as (zw & Hzw & Hb).
    rewrite length_app, Nat2Z.inj_add in *. simpl length in *.
    destruct IH as (z & Hz & Hzb); [nia|].
    exists (z + zw). rewrite weight_of_snoc, Hz, Hzw. split; [|lia].
    apply double_of_Z_small. lia.
Qed.

Lemma bounded_sums_finite (g : Graph) (s : Node) (W : Z) :
  known g s -> weights_within g W ->
  Z.of_nat (length (extractAllNodes g)) * W < 2 ^ 53 ->
  path_sums_finite g s.
Proof.
  intros Hs HW Hn es t Hwalk ND.
  assert (Hlen : (S (length es) <= length (extractAllNodes g))%nat).
  { replace (S (length es)) with (length (nodes_of s es))
      by (unfold nodes_of; simpl; now rewrite length_map).
    apply NoDup_incl_length; [assumption|].
    intros x Hx. apply extractAllNodes_In.
    exact (Walk_nodes_known g s es t Hs Hwalk x Hx). }
  destruct (Walk_weight_within g s es t W HW Hwalk) as (z & Hz & _);
    [|eauto].
  destruct (Z.le_gt_cases 0 W); nia.
Qed.

Lemma nodes_truthy_b_spec (g : Graph) :
  nodes_truthy_b g = true -> graph_nodes_truthy g.
Proof.
  unfold nodes_truthy_b. intros H v Hv.
  rewrite forallb_forall in H. apply extractAllNodes_In in Hv.
  specialize (H v Hv). now destruct (node_falsy v).
Qed.

Lemma jsnum_strict_eq_PInf d :
  jsnum_strict_eq d PInf = true <-> d = PInf.
Proof. destruct d; simpl; split; congruence. Qed.

(* ================================================================= *)
(** ** The queue stays sorted *)

Lemma prio_le_Fin (a b : PriorityQueueItem Node) x y :
  priority a = Fin x -> priority b = Fin y -> (prio_le a b <-> x <= y).
Proof.
  intros Ha Hb. unfold prio_le. rewrite Ha, Hb. simpl.
  rewrite Z.ltb_ge. tauto.
Qed.

Lemma sort_insert_sorted (x : PriorityQueueItem Node) l :
  (forall it, In it (x :: l) -> exists z, priority it = Fin z) ->
  StronglySorted prio_le l ->
  StronglySorted prio_le
    (sort_insert (fun a b => jssub (priority a) (priority b)) x l).
Proof.
  intros Hfin Hs. induction Hs as [|y r Hr IH Hy]; cbn [sort_insert].
  - repeat constructor.
  - destruct (Hfin x (or_introl eq_refl)) as [zx Hx].
    destruct (Hfin y (or_intror (or_introl eq_refl))) as [zy Hy'].
    unfold jssub. rewrite Hx, Hy'. cbn [jsneg]. rewrite jslt_zero_sub.
    destruct (zy <? zx) eqn:E.
    + apply Z.ltb_lt in E. constructor.
      * apply IH. intros it [<-|H]; apply Hfin; [now left|right; now right].
      * apply (Permutation_Forall
                 (Permutation_sym
                    (sort_insert_perm
                       (fun a b => jsadd (priority a) (jsneg (priority b)))
                       x r))).
        constructor; [|assumption].
        apply (prio_le_Fin y x zy zx Hy' Hx). lia.
    + apply Z.ltb_ge in E. constructor; [now constructor|].
      assert (Hxy : prio_le x y)
        by (apply (prio_le_Fin x y zx zy Hx Hy'); lia).
      constructor; [assumption|].
      rewrite Forall_forall in *. intros it Hit.
      destruct (Hfin it (or_intror (or_intror Hit))) as [zi Hi].
      apply (prio_le_Fin x it zx zi Hx Hi).
      pose proof (proj1 (prio_le_Fin y it zy zi Hy' Hi) (Hy it Hit)). lia.
Qed.

Lemma array_sort_sorted (l : list (PriorityQueueItem Node)) :
  (forall it, In it l -> exists z, priority it = Fin z) ->
  StronglySorted prio_le
    (array_sort (fun a b => jssub (priority a) (priority b)) l).
Proof.
  induction l as [|x r IH]; intro Hfin; simpl; [constructor|].
  apply sort_insert_sorted.
  - intros it [<-|H]; [apply Hfin; now left|].
    apply Hfin. right.
    exact (Permutation_in _ (array_sort_perm _ r) H).
  - apply IH. intros it H. apply Hfin. now right.
Qed.

Lemma enqueue_sorted (q : PriorityQueueState Node) x z :
  (forall it, In it (items q) -> exists y, priority it = Fin y) ->
  StronglySorted prio_le (items (enqueuePriorityQueue q x (Fin z))).
Proof.
  intro Hfin. unfold enqueuePriorityQueue. cbn [items].
  apply array_sort_sorted. intros it Hit. apply in_app_iff in Hit.
  destruct Hit as [Hit|[<-|[]]]; [now apply Hfin|]. now exists z.
Qed.

(* ================================================================= *)
(** ** Finalized distances are minimal *)

Lemma jslt_trans a b c :
  jslt a b = true -> jslt b c = true -> jslt a c = true.
Proof.
  destruct a, b, c; simpl; try congruence.
  rewrite !Z.ltb_lt. lia.
Qed.

Lemma jslt_not_below x nd dk :
  jslt x dk = false -> jslt nd dk = true -> jslt x nd = false.
Proof.
  intros H1 H2. destruct (jslt x nd) eqn:E; [|reflexivity].
  rewrite (jslt_trans _ _ _ E H2) in H1. discriminate.
Qed.

(** [b <= a] and [c <= b] give [c <= a], away from [NaN]. *)
Lemma jslt_false_trans a b c :
  a <> NaN -> b <> NaN -> c <> NaN ->
  jslt a b = false -> jslt b c = false -> jslt a c = false.
Proof.
  destruct a, b, c; simpl; try congruence;
    rewrite ?Z.ltb_ge; intros; try lia.
Qed.

Lemma jslt_irrefl a : jslt a a = false.
Proof. destruct a; simpl; try reflexivity. apply Z.ltb_irrefl. Qed.

Lemma opt_inv_pop (g : Graph) st first rest :
  opt_inv g st -> items (st_queue st) = first :: rest ->
  node_falsy (item first) = true \/
  set_has (st_visited st) (item first) = true ->
  opt_inv g (mkState (st_distances st) (st_previous st) (st_visited st)
                     (mkQueue rest)).
Proof.
  intros (Hcore & [] & Hrel) Hq Hwhy.
  split; [now apply (reach_core_pop g st first rest)|].
  split; [|exact Hrel].
  constructor; cbn [st_distances st_visited st_queue items].
  - intros it Hit. apply oc_prio0. rewrite Hq. now right.
  - intros v z Hf Hv Hd. specialize (oc_entry0 v z Hf Hv Hd).
    rewrite Hq in oc_entry0. destruct oc_entry0 as [E|H]; [|assumption].
    exfalso. subst first. cbn [item] in Hwhy.
    destruct Hwhy as [H|H]; [congruence|].
    apply set_has_In in H. contradiction.
  - intros c it Hc Hit. apply oc_mono0; [assumption|].
    rewrite Hq. now right.
  - rewrite Hq in oc_sorted0. now inversion oc_sorted0.
  - assumption.
Qed.

Lemma opt_inner_enter (g : Graph) st first rest :
  opt_inv g st -> items (st_queue st) = first :: rest ->
  node_falsy (item first) = false ->
  set_has (st_visited st) (item first) = false ->
  opt_inner g (item first) (distanceOf (st_distances st) (item first)) []
    (mkState (st_distances st) (st_previous st)
             (set_add (st_visited st) (item first)) (mkQueue rest)).
Proof.
  intros (Hcore & [] & Hrel) Hq Hf Hv.
  pose proof (core_inner_enter g st first rest Hcore Hq Hf Hv) as Hci.
  set (c := item first) in *.
  assert (Hnotin : ~ In c (st_visited st)) by now apply set_has_false_iff.
  pose proof Hci as (Hcore' & Hc' & Hd' & (zc & Hzc)).
  assert (Hsorted : Forall (prio_le first) rest /\ StronglySorted prio_le rest).
  { rewrite Hq in oc_sorted0. inversion oc_sorted0. auto. }
  destruct Hsorted as [Hhead Hsorted].
  assert (Hp : priority first = distanceOf (st_distances st) c).
  { destruct (oc_prio0 first) as [[zp Hzp] Hle]; [rewrite Hq; now left|].
    fold c in Hle. rewrite Hzc in *. rewrite Hzp in *. simpl in Hle.
    apply Z.ltb_ge in Hle.
    pose proof (oc_entry0 c zc Hf Hnotin Hzc) as Hin. rewrite Hq in Hin.
    destruct Hin as [E|Hin].
    - rewrite E in Hzp. cbn [priority] in Hzp. congruence.
    - rewrite Forall_forall in Hhead. specialize (Hhead _ Hin).
      unfold prio_le in Hhead. cbn [priority] in Hhead.
      rewrite Hzp in Hhead. simpl in Hhead. apply Z.ltb_ge in Hhead.
      f_equal. lia. }
  split; [exact Hci|].
  split; [|split; [|split]].
  - constructor; cbn [st_distances st_visited st_queue items].
    + intros it Hit. apply oc_prio0. rewrite Hq. now right.
    + intros v z Hfv Hnv Hdv.
      assert (~ In v (st_visited st)).
      { intro H. apply Hnv, set_add_In. now right. }
      pose proof (oc_entry0 v z Hfv H Hdv) as Hin. rewrite Hq in Hin.
      destruct Hin as [E|Hin]; [|assumption].
      exfalso. apply Hnv, set_add_In. left. subst c. now rewrite E.
    + intros c' it Hc Hit. apply set_add_In in Hc.
      destruct Hc as [->|Hc].
      * rewrite <- Hp. rewrite Forall_forall in Hhead.
        exact (Hhead it Hit).
      * apply oc_mono0; [assumption|]. rewrite Hq. now right.
    + assumption.
    + assumption.
  - cbn [st_distances st_visited]. intros c' Hc. apply set_add_In in Hc.
    destruct Hc as [->|Hc]; [apply jslt_irrefl|].
    rewrite <- Hp. apply oc_mono0; [assumption|]. rewrite Hq. now left.
  - cbn [st_visited]. intros c' Hc Hne. apply set_add_In in Hc.
    destruct Hc as [->|Hc]; [contradiction|]. exact (Hrel c' Hc).
  - intros e [].
Qed.

Lemma opt_inner_relax (g : Graph) c d done e st :
  graph_weights_valid g ->
  opt_inner g c d done st -> In e (neighborsOf g c) ->
  opt_inner g c d (done ++ [e]) (relaxEdge c d st e).
Proof.
  intros Hvalid (Hci & Hoc & Hle & Hrel & Hdone) He.
  destruct (neighborsOf_values g c e He) as (l & Hl1 & Hl2).
  destruct (Hvalid l e Hl1 Hl2) as (zw & Hzw & Hzw0).
  pose proof Hci as (Hcore & Hc & Hd & (zd & Hzd)).
  assert (Hzd0 : 0 <= zd /\ is_double zd).
  { apply (oc_double _ _ Hoc c). now rewrite Hd. }
  destruct Hzd0 as [Hzd0 Hzdd].
  assert (Hcand : jsadd d (weight e) = PInf \/
                  exists r, jsadd d (weight e) = Fin r /\
                            0 <= r /\ is_double r).
  { rewrite Hzd, Hzw. now apply jsadd_nonneg. }
  assert (Hge : jslt (jsadd d (weight e)) d = false).
  { rewrite Hzd, Hzw. now apply jsadd_ge_l. }
  assert (Hnn : forall v, distanceOf (st_distances st) v <> NaN).
  { intro v. destruct (rc_fin _ _ Hcore v) as [H|[z H]]; rewrite H;
      discriminate. }
  assert (Habove : forall x, x <> NaN -> jslt d x = false ->
                             jslt (jsadd d (weight e)) x = false).
  { intros x Hx H. apply (jslt_false_trans _ d x); try assumption.
    - destruct Hcand as [E|(r & E & _)]; rewrite E; discriminate.
    - rewrite Hzd. discriminate. }
  assert (Hci' : core_inner g c d (relaxEdge c d st e)).
  { apply core_inner_relax; [assumption|]. intros _.
    destruct Hcand as [H|(r & H & _)]; [now left|right; eauto]. }
  split; [exact Hci'|]. clear Hci'.
  destruct (relaxEdge_cases3 c d st e)
    as [[Hv ->]|[(Hv & Hlt & ->)|(Hv & Hlt & ->)]].
  - (* the destination is finalized *)
    split; [assumption|]. split; [assumption|]. split; [assumption|].
    intros e' He'. apply in_app_iff in He'.
    destruct He' as [He'|[<-|[]]]; [now apply Hdone|].
    rewrite Hd. apply Habove; [apply Hnn|].
    apply Hle. now apply set_has_In.
  - (* the recorded distance is not improved *)
    split; [assumption|]. split; [assumption|]. split; [assumption|].
    intros e' He'. apply in_app_iff in He'.
    destruct He' as [He'|[<-|[]]]; [now apply Hdone|].
    now rewrite Hd.
  - (* the destination gets a smaller distance *)
    destruct Hcand as [Hnd|(r & Hnd & Hr0 & Hrd)].
    { exfalso. rewrite Hnd in Hlt.
      destruct (distanceOf (st_distances st) (to e)); discriminate. }
    set (k := to e) in *. rewrite Hnd in *.
    assert (Hkin : ~ In k (st_visited st)) by now apply set_has_false_iff.
    assert (Hkc : Node_eqb k c = false).
    { apply Node_eqb_neq. intros E. congruence. }
    assert (Hfrozen : forall c', In c' (st_visited st) ->
               distanceOf (map_set (st_distances st) k (Fin r)) c'
               = distanceOf (st_distances st) c').
    { intros c' Hc'. rewrite distanceOf_set.
      destruct (Node_eqb k c') eqn:E; [|reflexivity].
      apply Node_eqb_eq in E. congruence. }
    assert (Hkeep : forall x v,
               jslt x (distanceOf (st_distances st) v) = false ->
               jslt x (distanceOf (map_set (st_distances st) k
                                           (Fin r)) v) = false).
    { intros x v H. rewrite distanceOf_set.
      destruct (Node_eqb k v) eqn:E; [|assumption].
      apply Node_eqb_eq in E. subst v.
      exact (jslt_not_below _ _ _ H Hlt). }
    destruct Hoc as [].
    split; [|split; [|split]].
    + constructor; cbn [st_distances st_visited st_queue].
      * intros it Hit. apply enqueue_In in Hit.
        destruct Hit as [->|Hit]; cbn [item priority].
        -- split; [eauto|]. rewrite distanceOf_set, Node_eqb_refl.
           apply jslt_irrefl.
        -- destruct (oc_prio0 it Hit) as [H1 H2]. split; [assumption|].
           now apply Hkeep.
      * intros v z Hfv Hnv Hdv. apply enqueue_In.
        rewrite distanceOf_set in Hdv.
        destruct (Node_eqb k v) eqn:E.
        -- apply Node_eqb_eq in E. subst v. left. congruence.
        -- right. now apply oc_entry0.
      * intros c' it Hc' Hit. rewrite (Hfrozen c' Hc').
        apply enqueue_In in Hit. destruct Hit as [->|Hit]; cbn [priority].
        -- apply Habove; [apply Hnn|]. now apply Hle.
        -- now apply oc_mono0.
      * apply enqueue_sorted. intros it Hit.
        exact (proj1 (oc_prio0 it Hit)).
      * intros v z. rewrite distanceOf_set.
        destruct (Node_eqb k v); [|apply oc_double0].
        intro E. inversion E. subst z. auto.
    + cbn [st_distances st_visited]. intros c' Hc'.
      rewrite (Hfrozen c' Hc'). now apply Hle.
    + cbn [st_visited]. intros c' Hc' Hne e' He'.
      cbn [st_distances]. rewrite (Hfrozen c' Hc').
      apply Hkeep. exact (Hrel c' Hc' Hne e' He').
    + intros e' He'. cbn [st_distances]. rewrite (Hfrozen c Hc).
      apply in_app_iff in He'. destruct He' as [He'|[<-|[]]].
      * apply Hkeep. exact (Hdone e' He').
      * fold k. rewrite Hd, Hnd.
        rewrite distanceOf_set, Node_eqb_refl. apply jslt_irrefl.
Qed.

Lemma opt_inner_exit (g : Graph) c d st :
  opt_inner g c d (neighborsOf g c) st -> opt_inv g st.
Proof.
  intros ((Hcore & Hc & _) & Hoc & _ & Hrel & Hdone).
  split; [assumption|]. split; [assumption|].
  intros c' Hc'. destruct (Node_eq_dec c' c) as [->|Hne];
    [assumption|now apply Hrel].
Qed.

Lemma opt_inv_step (g : Graph) (st : DijkstraState) :
  graph_weights_valid g ->
  opt_inv g st -> opt_inv g (dijkstraStep g st).
Proof.
  intro Hvalid. revert st.
  apply (dijkstraStep_rule_inner g (opt_inv g) (opt_inner g)).
  - apply opt_inv_pop.
  - apply opt_inner_enter.
  - intros c d done e st. now apply opt_inner_relax.
  - apply opt_inner_exit.
Qed.

Lemma opt_inv_init (g : Graph) (start : Node) :
  In start (map_keys g) -> node_falsy start = false ->
  opt_inv g (initState g start).
Proof.
  intros Hs Hf. split; [exact (proj1 (reach_inv_init g start Hs))|].
  destruct (initState_facts g start) as (HV & HQ & HK & Hkn & HP & HD).
  assert (Hds : distanceOf (st_distances (initState g start)) start = Fin 0).
  { rewrite HD. apply set_has_In in Hs. rewrite Hs.
    now rewrite (truthy_strict_refl _ Hf). }
  split; [constructor|].
  - intros it. rewrite HQ. intros [<-|[]]. cbn [item priority].
    split; [eauto|]. rewrite Hds. reflexivity.
  - intros v z _ _ Hd. rewrite HQ. left. rewrite HD in Hd.
    destruct (set_has (map_keys g) v && strict_eq v start) eqn:E;
      [|discriminate].
    apply andb_true_iff in E. destruct E as [_ E].
    apply strict_eq_true_eqb in E. congruence.
  - rewrite HV. intros c it [].
  - rewrite HQ. repeat constructor.
  - intros v z. rewrite HD. destruct (_ && _); [|discriminate].
    intro E. inversion E. subst z. split; [lia|reflexivity].
  - rewrite HV. intros c [].
Qed.

(** When the search ends, no walk from the start is lighter than the
    distance of its end; weights are added as the search adds them, so
    the weight of a walk may be [Infinity]. *)
Lemma search_optimal (g : Graph) (start : Node) (st : DijkstraState) :
  graph_nodes_truthy g -> graph_weights_valid g -> In start (map_keys g) ->
  search_inv g start st -> opt_inv g st -> items (st_queue st) = [] ->
  forall es t, Walk g start es t ->
    jslt (weight_of es) (distanceOf (st_distances st) t) = false.
Proof.
  intros Htruthy Hvalid Hs Hinv (Hcore & Hoc & Hrel) Hq es t HW.
  assert (Hfinal : forall v, known g v ->
             jslt (distanceOf (st_distances st) v) PInf = true ->
             In v (st_visited st)).
  { intros v Hk Hd.
    destruct (rc_frontier _ _ Hcore v (Htruthy v Hk) Hd)
      as [H|(it & H1 & _)]; [assumption|].
    rewrite Hq in H1. contradiction. }
  induction HW as [|es v e HW IH He].
  - rewrite (inv_start_distance _ _ _ Hinv).
    apply set_has_In in Hs. rewrite Hs.
    rewrite truthy_strict_refl;
      [reflexivity|apply Htruthy; left; now apply set_has_In].
  - destruct (neighborsOf_values g v e He) as (l & Hl1 & Hl2).
    destruct (Hvalid l e Hl1 Hl2) as (zw & Hzw & Hzw0).
    rewrite weight_of_snoc, Hzw.
    destruct (Walk_weights_valid g start es v Hvalid HW)
      as [Hw|(p & Hw & Hp0)]; rewrite Hw in *.
    { simpl. now destruct (distanceOf (st_distances st) (to e)). }
    assert (Hkv : known g v)
      by (apply (Walk_end_known g start es v); [now left|assumption]).
    destruct (rc_fin _ _ Hcore v) as [Hdv|[dv Hdv]]; rewrite Hdv in IH;
      [discriminate|].
    simpl in IH. apply Z.ltb_ge in IH.
    destruct (oc_double _ _ Hoc v dv Hdv) as [Hdv0 _].
    assert (Hv : In v (st_visited st)).
    { apply Hfinal; [assumption|]. now rewrite Hdv. }
    pose proof (Hrel v Hv e He) as Hr. rewrite Hdv, Hzw in Hr.
    apply (jslt_false_trans _ (jsadd (Fin dv) (Fin zw))).
    + destruct (jsadd_nonneg p zw Hp0 Hzw0) as [E|(r & E & _)]; rewrite E;
        discriminate.
    + destruct (jsadd_nonneg dv zw Hdv0 Hzw0) as [E|(r & E & _)]; rewrite E;
        discriminate.
    + destruct (rc_fin _ _ Hcore (to e)) as [E|[z E]]; rewrite E;
        discriminate.
    + apply jsadd_mono_l; lia.
    + assumption.
Qed.

Lemma buildGraph_weights_valid (raw : list RawEdge) (g : Graph) :
  buildGraph raw = Ok g -> graph_weights_valid g.
Proof.
  intro Hb. apply buildGraph_Ok in Hb. destruct Hb as (_ & Hacc & ->).
  destruct (buildAdjacencyList_adjacency (typed_edges raw))
    as (ND & Hk & Hg).
  pose proof (typed_edges_weights raw Hacc) as Hw.
  rewrite Forall_forall in Hw.
  intros es e Hes He. apply in_map_iff in Hes.
  destruct Hes as ([k es'] & E & Hin). simpl in E. subst es'.
  assert (Hkey : In k (map_keys (buildAdjacencyList (typed_edges raw)))).
  { change k with (fst (k, es)). now apply in_map. }
  apply map_In_get_NoDup in Hin; [|assumption].
  rewrite (Hg k Hkey) in Hin. inversion Hin. subst es.
  apply filter_In in He. apply Hw. tauto.
Qed.

(** The distance of a successful query, read off a final state that
    satisfies a further invariant [I] of the loop. *)
Lemma findPaths_Ok_with (g : Graph) (start target : Node) sp
  (I : DijkstraState -> Prop) :
  I (initState g start) ->
  (forall st, I st -> I (dijkstraStep g st)) ->
  findPaths g start target = Some (Ok sp) ->
  exists st,
    search_inv g start st /\ I st /\ items (st_queue st) = [] /\
    distance sp = distanceOf (st_distances st) target.
Proof.
  intros Hinit Hstep H.
  destruct (findPaths_Ok_inv _ _ _ _ H) as [Hne Hs].
  destruct (findPaths_unfold_with g start target I Hne Hs Hinit Hstep)
    as (st & Hinv & HI & Hq & E).
  rewrite E in H. clear E.
  destruct (map_has (st_distances st) target); simpl negb in H;
    cbv iota in H; [|discriminate].
  destruct (jsnum_strict_eq _ PInf); [discriminate|].
  destruct (walkBack _ _ _ _) as [p|]; [|discriminate].
  inversion H. subst sp. exists st. auto.
Qed.

(* ================================================================= *)
(** ** Connected components *)

Lemma adjacent_sym (g : Graph) u v : adjacent g u v -> adjacent g v u.
Proof. unfold adjacent. tauto. Qed.

Lemma Connected_trans (g : Graph) u v w :
  Connected g u v -> Connected g v w -> Connected g u w.
Proof.
  intros Huv Hvw. induction Hvw as [|x y Hvx IH Hxy]; [assumption|].
  now apply (Connected_step g u x y).
Qed.

Lemma Connected_sym (g : Graph) u v : Connected g u v -> Connected g v u.
Proof.
  intro H. induction H as [|x y Hux IH Hxy]; [constructor|].
  apply (Connected_trans g y x u); [|assumption].
  apply (Connected_step g y y x); [constructor|now apply adjacent_sym].
Qed.

Lemma stored_edge_known (g : Graph) u v :
  stored_edge g u v -> known g u /\ known g v.
Proof.
  intros (es & e & H1 & H2 & H3). split.
  - left. change u with (fst (u, es)). now apply in_map.
  - right. exists es, e. split; [|auto].
    change es with (snd (u, es)). now apply in_map.
Qed.

Lemma adjacent_known (g : Graph) u v :
  adjacent g u v -> known g u /\ known g v.
Proof.
  intros [H|H]; apply stored_edge_known in H; tauto.
Qed.

Lemma Connected_known (g : Graph) u v :
  known g u -> Connected g u v -> known g v.
Proof.
  intros Hu H. induction H as [|x y Hux IH Hxy]; [assumption|].
  now apply (adjacent_known g x y).
Qed.

Lemma neighborsOf_stored (g : Graph) u e :
  NoDup (map_keys g) ->
  (In e (neighborsOf g u) <-> exists es, In (u, es) g /\ In e es).
Proof.
  intro ND. unfold neighborsOf. split.
  - destruct (map_get g u) as [l|] eqn:E; [|contradiction].
    intro H. exists l. split; [now apply map_get_In|assumption].
  - intros (es & H1 & H2). now rewrite (map_In_get_NoDup g u es ND H1).
Qed.

Lemma addDirectAdjacentNodes_In (g : Graph) c V stack v :
  In v (addDirectAdjacentNodes g c V stack) <->
  In v stack \/
  exists e, In e (neighborsOf g c) /\ to e = v /\ set_has V v = false.
Proof.
  unfold addDirectAdjacentNodes. generalize (neighborsOf g c). intro l.
  revert stack. induction l as [|e r IH]; intro stack; simpl.
  - split; [auto|]. intros [H|(e & [] & _)]. assumption.
  - rewrite IH. destruct (set_has V (to e)) eqn:E; simpl.
    + split.
      * intros [H|(e' & H1 & H2 & H3)]; [now left|right].
        exists e'. auto.
      * intros [H|(e' & [<-|H1] & H2 & H3)]; [now left| |right].
        -- subst v. congruence.
        -- exists e'. auto.
    + split.
      * intros [[<-|H]|(e' & H1 & H2 & H3)].
        -- right. exists e. auto.
        -- now left.
        -- right. exists e'. auto.
      * intros [H|(e' & [<-|H1] & H2 & H3)].
        -- left. now right.
        -- left. now left.
        -- right. exists e'. auto.
Qed.

Lemma reverse_inner_In (c node : Node) V (es : list Edge) stack v :
  c <> NNum NaN ->
  In v (fold_left
          (fun stack edge =>
             if strict_eq (to edge) c && negb (set_has V node)
             then node :: stack else stack) es stack) <->
  In v stack \/
  (v = node /\ set_has V node = false /\ exists e, In e es /\ to e = c).
Proof.
  intro Hc. revert stack. induction es as [|e r IH]; intro stack; simpl.
  - split; [auto|]. intros [H|(_ & _ & e & [] & _)]. assumption.
  - rewrite IH. clear IH.
    destruct (strict_eq (to e) c) eqn:E; simpl.
    + apply strict_eq_true_eqb in E.
      destruct (set_has V node) eqn:Ev; simpl.
      * split; [intros [H|(H1 & H2 & _)]; [now left|discriminate]|].
        intros [H|(H1 & H2 & _)]; [now left|discriminate].
      * split.
        -- intros [[<-|H]|(H1 & H2 & e' & H3 & H4)].
           ++ right. split; [reflexivity|]. split; [reflexivity|].
              exists e. auto.
           ++ now left.
           ++ right. split; [assumption|]. split; [reflexivity|].
              exists e'. auto.
        -- intros [H|(H1 & H2 & e' & H3 & H4)].
           ++ left. now right.
           ++ left. left. now symmetry.
    + assert (Hne : to e <> c).
      { intro H. subst c.
        assert (strict_eq (to e) (to e) = true)
          by (apply strict_eq_spec; auto).
        congruence. }
      split.
      * intros [H|(H1 & H2 & e' & H3 & H4)]; [now left|right].
        split; [assumption|]. split; [assumption|]. exists e'. auto.
      * intros [H|(H1 & H2 & e' & [<-|H3] & H4)]; [now left| |right].
        -- contradiction.
        -- split; [assumption|]. split; [assumption|]. exists e'. auto.
Qed.

Lemma addReverseAdjacentNodes_In (g : Graph) c V stack v :
  c <> NNum NaN ->
  In v (addReverseAdjacentNodes g c V stack) <->
  In v stack \/ (set_has V v = false /\ stored_edge g v c).
Proof.
  intro Hc. unfold addReverseAdjacentNodes, stored_edge. revert stack.
  induction g as [|[node es] r IH]; intro stack; simpl.
  - split; [auto|]. intros [H|(_ & es & e & [] & _)]. assumption.
  - rewrite IH. clear IH. rewrite (reverse_inner_In c node V es stack v Hc).
    split.
    + intros [[H|(H1 & H2 & e & H3 & H4)]|(H1 & es' & e & H2 & H3 & H4)].
      * now left.
      * right. subst v. split; [assumption|]. exists es, e. auto.
      * right. split; [assumption|]. exists es', e. auto.
    + intros [H|(H1 & es' & e & [E|H2] & H3 & H4)].
      * left. now left.
      * inversion E. subst. left. right.
        split; [reflexivity|]. split; [assumption|]. exists e. auto.
      * right. split; [assumption|]. exists es', e. auto.
Qed.

Lemma addAdjacentNodes_In (g : Graph) c V stack v :
  NoDup (map_keys g) -> c <> NNum NaN ->
  In v (addAdjacentNodes g c V stack) <->
  In v stack \/ (set_has V v = false /\ adjacent g c v).
Proof.
  intros ND Hc. unfold addAdjacentNodes.
  rewrite (addReverseAdjacentNodes_In g c V _ v Hc).
  rewrite addDirectAdjacentNodes_In. unfold adjacent. split.
  - intros [[H|(e & H1 & H2 & H3)]|[H1 H2]]; [now left| |right; auto].
    right. split; [assumption|]. left.
    apply (neighborsOf_stored g c e ND) in H1.
    destruct H1 as (es & H4 & H5). exists es, e. auto.
  - intros [H|[H1 [(es & e & H2 & H3 & H4)|H2]]].
    + left. now left.
    + left. right. exists e. split; [|auto].
      apply (neighborsOf_stored g c e ND). eauto.
    + right. auto.
Qed.

(** Proof rule for the exploration loop. *)
Lemma exploreLoop_rule (g : Graph)
  (Inv : JsSet -> list Node -> list Node -> Prop) :
  (forall V c rest comp,
      Inv V (c :: rest) comp -> set_has V c = true -> Inv V rest comp) ->
  (forall V c rest comp,
      Inv V (c :: rest) comp -> set_has V c = false ->
      Inv (set_add V c) (addAdjacentNodes g c (set_add V c) rest)
          (comp ++ [c])) ->
  forall fuel V stack comp comp' V',
    Inv V stack comp ->
    exploreLoop fuel g V stack comp = Some (comp', V') ->
    Inv V' [] comp'.
Proof.
  intros Hskip Hvisit.
  induction fuel as [|f IH]; intros V stack comp comp' V' HI H.
  - destruct stack; simpl in H; [|discriminate].
    inversion H. now subst.
  - destruct stack as [|c rest]; simpl in H.
    + inversion H. now subst.
    + destruct (set_has V c) eqn:Ec.
      * apply (IH _ _ _ _ _ (Hskip _ _ _ _ HI Ec) H).
      * apply (IH _ _ _ _ _ (Hvisit _ _ _ _ HI Ec) H).
Qed.

Lemma explore_inv_skip (g : Graph) V0 n V c rest comp :
  ~ In n V0 ->
  explore_inv g V0 n V (c :: rest) comp -> set_has V c = true ->
  explore_inv g V0 n V rest comp.
Proof.
  intros Hn [] Hc. apply set_has_In in Hc.
  constructor; try assumption.
  - intros x [H|H]; apply ei_connected0; [left; now right|now right].
  - intros u v Hu Hadj.
    destruct (ei_frontier0 u v Hu Hadj) as [H|[<-|H]]; auto.
  - destruct ei_start0 as [H|[<-|H]]; auto.
    left. apply ei_visited0 in Hc. tauto.
Qed.

Lemma explore_inv_visit (g : Graph) V0 n V c rest comp :
  NoDup (map_keys g) -> graph_nodes_not_NaN g -> known g n ->
  explore_inv g V0 n V (c :: rest) comp -> set_has V c = false ->
  explore_inv g V0 n (set_add V c)
    (addAdjacentNodes g c (set_add V c) rest) (comp ++ [c]).
Proof.
  intros ND Hnan Hkn [] Hc.
  assert (Hcn : Connected g n c) by (apply ei_connected0; left; now left).
  assert (HcNaN : c <> NNum NaN)
    by (apply Hnan; now apply (Connected_known g n c)).
  assert (Hnotin : ~ In c V) by now apply set_has_false_iff.
  constructor.
  - intro x. rewrite set_add_In, ei_visited0, in_app_iff. simpl. split.
    + intros [->|[?|?]]; auto.
    + intros [?|[?|[<-|[]]]]; auto.
  - intros x Hx. apply in_app_iff in Hx.
    destruct Hx as [Hx|[<-|[]]]; [now apply ei_fresh0|].
    intro H. apply Hnotin, ei_visited0. now left.
  - apply NoDup_app; [assumption|repeat constructor; simpl; tauto|].
    intros x Hx [<-|[]]. apply Hnotin, ei_visited0. now right.
  - intros x [Hx|Hx].
    + apply (addAdjacentNodes_In g c _ rest x ND HcNaN) in Hx.
      destruct Hx as [Hx|[_ Hx]].
      * apply ei_connected0. left. now right.
      * now apply (Connected_step g n c x).
    + apply in_app_iff in Hx. destruct Hx as [Hx|[<-|[]]]; [|assumption].
      apply ei_connected0. now right.
  - intros u v Hu Hadj. apply in_app_iff in Hu.
    destruct (set_has (set_add V c) v) eqn:Ev;
      [left; now apply set_has_In|].
    right. apply (addAdjacentNodes_In g c _ rest v ND HcNaN).
    destruct Hu as [Hu|[<-|[]]]; [|right; auto].
    destruct (ei_frontier0 u v Hu Hadj) as [H|[<-|H]].
    + exfalso. apply set_has_false_iff in Ev. apply Ev, set_add_In.
      now right.
    + exfalso. apply set_has_false_iff in Ev. apply Ev, set_add_In.
      now left.
    + now left.
  - destruct ei_start0 as [H|[<-|H]].
    + left. apply in_app_iff. now left.
    + left. apply in_app_iff. right. now left.
    + right. apply (addAdjacentNodes_In g c _ rest n ND HcNaN). now left.
Qed.

Lemma exploreComponent_spec (g : Graph) V0 n comp V' :
  NoDup (map_keys g) -> graph_nodes_not_NaN g ->
  closed_set g V0 -> known g n -> ~ In n V0 ->
  exploreComponent g n V0 = Some (comp, V') ->
  (forall x, In x comp <-> Connected g n x) /\
  NoDup comp /\
  (forall x, In x V' <-> In x V0 \/ In x comp) /\
  (forall x, In x comp -> ~ In x V0) /\
  closed_set g V'.
Proof.
  intros ND Hnan Hclosed Hkn Hn H. unfold exploreComponent in H.
  assert (Hinit : explore_inv g V0 n V0 [n] []).
  { constructor.
    - intro x. simpl. tauto.
    - intros x [].
    - constructor.
    - intros x [[<-|[]]|[]]. constructor.
    - intros u v [].
    - right. now left. }
  destruct (exploreLoop_rule g (explore_inv g V0 n)
              (fun V c rest comp => explore_inv_skip g V0 n V c rest comp Hn)
              (fun V c rest comp =>
                 explore_inv_visit g V0 n V c rest comp ND Hnan Hkn)
              _ _ _ _ _ _ Hinit H).
  assert (Hstart : In n comp) by (destruct ei_start0 as [?|[]]; assumption).
  assert (Hincl : forall x, Connected g n x -> In x comp).
  { intros x Hx. induction Hx as [|v w Hv IH Hvw]; [assumption|].
    destruct (ei_frontier0 v w IH Hvw) as [Hw|[]].
    apply ei_visited0 in Hw. destruct Hw as [Hw|Hw]; [|assumption].
    exfalso. apply (ei_fresh0 v IH).
    apply (Hclosed w v Hw). now apply adjacent_sym. }
  split; [|split; [|split; [|split]]]; try assumption.
  - intro x. split; [|apply Hincl]. intro Hx. apply ei_connected0. now right.
  - intros u v Hu Hadj. apply ei_visited0 in Hu. apply ei_visited0.
    destruct Hu as [Hu|Hu].
    + left. now apply (Hclosed u v).
    + right. apply Hincl. apply (Connected_step g n u v); [|assumption].
      apply ei_connected0. now right.
Qed.

Lemma class_of_start (g : Graph) n comp :
  (forall x, In x comp <-> Connected g n x) -> is_class g comp.
Proof.
  intro H. split.
  - intro E. assert (Hn : In n comp) by (apply H; constructor).
    rewrite E in Hn. contradiction.
  - intros u Hu v. apply H in Hu. rewrite H. split; intro Hv.
    + apply (Connected_trans g u n v); [now apply Connected_sym|assumption].
    + now apply (Connected_trans g n u v).
Qed.

Lemma findComponentsFrom_spec (g : Graph) :
  NoDup (map_keys g) -> graph_nodes_not_NaN g ->
  forall nodes V comps cs,
    (forall n, In n nodes -> known g n) ->
    components_inv g V comps ->
    findComponentsFrom g nodes V comps = Some cs ->
    exists V', components_inv g V' cs /\
               (forall x, In x V -> In x V') /\
               (forall n, In n nodes -> In n V').
Proof.
  intros ND Hnan. induction nodes as [|n r IH]; intros V comps cs Hkn HI H.
  - simpl in H. inversion H. subst cs. exists V. split; [assumption|].
    split; [auto|]. intros n [].
  - simpl in H. destruct (set_has V n) eqn:En.
    + destruct (IH V comps cs (fun x Hx => Hkn x (or_intror Hx)) HI H)
        as (V' & H1 & H2 & H3).
      exists V'. split; [assumption|]. split; [assumption|].
      intros x [<-|Hx]; [|now apply H3].
      apply H2. now apply set_has_In.
    + destruct (exploreComponent g n V) as [[comp V1]|] eqn:Ex;
        [|discriminate].
      apply set_has_false_iff in En. destruct HI.
      destruct (exploreComponent_spec g V n comp V1 ND Hnan ci_closed0
                  (Hkn n (or_introl eq_refl)) En Ex)
        as (Hclass & Hnd & Hv1 & Hfresh & Hcl1).
      assert (HI1 : components_inv g V1 (comps ++ [comp])).
      { constructor.
        - assumption.
        - intro x. rewrite Hv1, concat_app, in_app_iff, ci_visited0.
          simpl. rewrite app_nil_r. tauto.
        - rewrite concat_app. simpl. rewrite app_nil_r.
          apply NoDup_app; try assumption.
          intros x Hx Hx'. apply (Hfresh x Hx'). now apply ci_visited0.
        - intros x Hx. apply Hv1 in Hx. destruct Hx as [Hx|Hx]; [auto|].
          apply (Connected_known g n x); [apply Hkn; now left|].
          now apply Hclass.
        - intros c Hc. apply in_app_iff in Hc.
          destruct Hc as [Hc|[<-|[]]]; [auto|].
          now apply (class_of_start g n). }
      destruct (IH V1 (comps ++ [comp]) cs
                  (fun x Hx => Hkn x (or_intror Hx)) HI1 H)
        as (V' & H1 & H2 & H3).
      exists V'. split; [assumption|]. split.
      * intros x Hx. apply H2, Hv1. now left.
      * intros x [<-|Hx]; [|now apply H3].
        apply H2, Hv1. right. apply Hclass. constructor.
Qed.

Lemma components_inv_nil (g : Graph) : components_inv g [] [].
Proof.
  constructor; simpl; try tauto.
  - intros u v [].
  - constructor.
Qed.

Lemma length_concat_sum {A} (l : list (list A)) :
  length (concat l) = list_sum (map (@length A) l).
Proof.
  induction l as [|x r IH]; simpl; [reflexivity|].
  rewrite length_app. lia.
Qed.

Lemma nodes_not_NaN_b_spec (g : Graph) :
  nodes_not_NaN_b g = true -> graph_nodes_not_NaN g.
Proof.
  unfold nodes_not_NaN_b. intros H v Hv.
  rewrite forallb_forall in H. apply extractAllNodes_In in Hv.
  specialize (H v Hv). apply Node_eqb_neq.
  now destruct (Node_eqb v (NNum NaN)).
Qed.

(* ================================================================= *)
(** ** Further facts: guards, keys and stored edges *)

Lemma isValidWeight_spec (w : Value) :
  isValidWeight w = true <-> exists z, w = VNumber (Fin z) /\ 0 <= z.
Proof.
  destruct w as [s|n| | | |]; simpl;
    try (split; [discriminate|intros (z & H & _); discriminate]).
  destruct n as [z| | |]; simpl;
    try (split; [discriminate|intros (z & H & _); discriminate]).
  rewrite negb_true_iff, Z.ltb_ge. split.
  - intro H. now exists z.
  - intros (z' & H & Hz). inversion H. now subst.
Qed.

Lemma validateEdges_not_EmptyGraph (edges : list RawEdge) :
  validateEdges edges <> Err EmptyGraph.
Proof.
  induction edges as [|e r IH]; simpl; [discriminate|].
  destruct (validateEdge e) as [err|] eqn:E; [|assumption].
  intro H. inversion H. subst err. unfold validateEdge in E.
  destruct (negb (isValidNode (raw_from e)) || negb (isValidNode (raw_to e)));
    [discriminate|].
  destruct (raw_weight e) as [s|w| | | |]; try discriminate.
  destruct (jsIsNaN w || negb (jsIsFinite w)); [discriminate|].
  destruct (jslt w (Fin 0)); discriminate.
Qed.

Lemma map_has_set_has {V} (m : JsMap V) k :
  map_has m k = set_has (map_keys m) k.
Proof.
  destruct (set_has (map_keys m) k) eqn:E.
  - apply map_has_In_keys. now apply set_has_In.
  - apply map_has_false_iff. now apply set_has_false_iff.
Qed.

Lemma map_keys_ensure {V} (m : JsMap V) k v :
  map_keys (if negb (map_has m k) then map_set m k v else m)
  = set_add (map_keys m) k.
Proof.
  unfold set_add. rewrite <- map_has_set_has.
  destruct (map_has m k) eqn:E; simpl; [reflexivity|].
  apply map_keys_set_absent. now apply map_has_false_iff.
Qed.

Lemma addEdge_keys (g : Graph) (e : Edge) :
  map_keys (addEdge g e)
  = set_add (set_add (map_keys g) (from e)) (to e).
Proof.
  unfold addEdge. cbv zeta.
  set (g1 := if negb (map_has g (from e)) then map_set g (from e) [] else g).
  assert (K1 : map_keys g1 = set_add (map_keys g) (from e))
    by apply map_keys_ensure.
  assert (Hin : In (from e) (map_keys g1)).
  { rewrite K1. apply set_add_In. now left. }
  destruct (map_get g1 (from e)) as [l|] eqn:E.
  - etransitivity; [apply map_keys_ensure|].
    rewrite (map_keys_set_present g1 (from e) (l ++ [e]) Hin).
    now rewrite K1.
  - exfalso. apply map_get_In_keys in Hin. contradiction.
Qed.

Lemma fold_addEdge_keys (es : list Edge) (g : Graph) :
  map_keys (fold_left addEdge es g)
  = fold_left set_add (endpoints es) (map_keys g).
Proof.
  revert g. induction es as [|e r IH]; intro g; simpl; [reflexivity|].
  now rewrite IH, addEdge_keys.
Qed.

Lemma concat_values_set_absent (m : Graph) k l :
  map_get m k = None ->
  concat (map_values (map_set m k l)) = concat (map_values m) ++ l.
Proof.
  induction m as [|[k' l'] r IH]; simpl; intro H.
  - now rewrite app_nil_r.
  - destruct (Node_eqb k' k); [discriminate|]. simpl.
    rewrite IH by assumption. now rewrite app_assoc.
Qed.

Lemma concat_values_set_push (m : Graph) k l e :
  map_get m k = Some l ->
  Permutation (concat (map_values (map_set m k (l ++ [e]))))
              (e :: concat (map_values m)).
Proof.
  induction m as [|[k' l'] r IH]; simpl; intro H; [discriminate|].
  destruct (Node_eqb k' k); simpl.
  - inversion H. subst l'. rewrite <- app_assoc. simpl.
    symmetry. apply Permutation_middle.
  - rewrite (IH H). symmetry. apply Permutation_middle.
Qed.

Lemma concat_values_ensure (m : Graph) k :
  concat (map_values (if negb (map_has m k) then map_set m k [] else m))
  = concat (map_values m).
Proof.
  destruct (map_has m k) eqn:E; simpl; [reflexivity|].
  rewrite concat_values_set_absent; [apply app_nil_r|].
  now apply map_has_get_none.
Qed.

Lemma addEdge_edges (g : Graph) (e : Edge) :
  Permutation (concat (map_values (addEdge g e)))
              (e :: concat (map_values g)).
Proof.
  unfold addEdge. cbv zeta.
  set (g1 := if negb (map_has g (from e)) then map_set g (from e) [] else g).
  assert (H1 : concat (map_values g1) = concat (map_values g))
    by apply concat_values_ensure.
  destruct (map_get g1 (from e)) as [l|] eqn:E.
  - etransitivity; [apply Permutation_refl'; apply concat_values_ensure|].
    rewrite (concat_values_set_push g1 (from e) l e E). now rewrite H1.
  - exfalso. subst g1. destruct (map_has g (from e)) eqn:Eh; simpl in E.
    + apply map_has_get_none in E. congruence.
    + rewrite map_get_set_same in E. discriminate.
Qed.

Lemma fold_addEdge_edges (es : list Edge) (g : Graph) :
  Permutation (concat (map_values (fold_left addEdge es g)))
              (es ++ concat (map_values g)).
Proof.
  revert g. induction es as [|e r IH]; intro g; simpl; [reflexivity|].
  rewrite IH, addEdge_edges. symmetry. apply Permutation_middle.
Qed.

Lemma typed_edges_length (raw : list RawEdge) :
  Forall edge_accepted raw -> length (typed_edges raw) = length raw.
Proof.
  intro H. apply typed_edges_accepted in H.
  apply (f_equal (@length (option Edge))) in H.
  now rewrite !length_map in H.
Qed.

Lemma adjacency_known_keys (es : list Edge) (g : Graph) v :
  adjacency_of es g -> (known g v <-> In v (map_keys g)).
Proof.
  intros (ND & Hk & Hg). split; [|now left].
  intros [H|(l & e & H1 & H2 & H3)]; [assumption|].
  apply in_map_iff in H1. destruct H1 as ([k l'] & E & Hin).
  simpl in E. subst l'.
  assert (Hkey : In k (map_keys g)).
  { change k with (fst (k, l)). now apply in_map. }
  apply map_In_get_NoDup in Hin; [|assumption].
  rewrite (Hg k Hkey) in Hin. inversion Hin. subst l.
  apply filter_In in H2. apply Hk. right. subst v.
  apply in_map. tauto.
Qed.

(* ================================================================= *)
(** ** Further facts: the queue is stable *)

Lemma sort_insert_head (a : PriorityQueueItem Node) l za :
  priority a = Fin za ->
  (forall it, In it l -> exists y, priority it = Fin y /\ za <= y) ->
  sort_insert (fun a b => jssub (priority a) (priority b)) a l = a :: l.
Proof.
  intros Ha Hl. destruct l as [|c r]; [reflexivity|].
  cbn [sort_insert]. destruct (Hl c (or_introl eq_refl)) as (y & Hy & Hle).
  unfold jssub. rewrite Ha, Hy. cbn [jsneg]. rewrite jslt_zero_sub.
  assert (E : (y <? za) = false) by (apply Z.ltb_ge; lia).
  now rewrite E.
Qed.

Lemma array_sort_snoc_sorted (l : list (PriorityQueueItem Node))
  (x : PriorityQueueItem Node) (z : Z) :
  priority x = Fin z ->
  StronglySorted prio_le l ->
  (forall it, In it l -> exists y, priority it = Fin y) ->
  exists before after,
    l = before ++ after /\
    array_sort (fun a b => jssub (priority a) (priority b)) (l ++ [x])
    = before ++ x :: after /\
    (forall it, In it before -> exists y, priority it = Fin y /\ y <= z) /\
    (forall it, In it after -> exists y, priority it = Fin y /\ z < y).
Proof.
  intros Hx Hs Hfin. induction Hs as [|a l Hl IH Ha].
  - exists [], []. repeat split; try reflexivity; intros it [].
  - destruct IH as (before & after & El & Es & Hb & Haf).
    { intros it Hit. apply Hfin. now right. }
    destruct (Hfin a (or_introl eq_refl)) as [za Hza].
    assert (Hmin : forall it, In it l ->
                     exists y, priority it = Fin y /\ za <= y).
    { intros it Hit. destruct (Hfin it (or_intror Hit)) as [y Hy].
      exists y. split; [assumption|].
      rewrite Forall_forall in Ha.
      now apply (prio_le_Fin a it za y Hza Hy), Ha. }
    simpl app. simpl array_sort. fold (array_sort
      (fun a b : PriorityQueueItem Node => jssub (priority a) (priority b))
      (l ++ [x])). rewrite Es.
    destruct before as [|b before'].
    + simpl in *. subst after. cbn [sort_insert].
      unfold jssub at 1. rewrite Hza, Hx. cbn [jsneg].
      change (match jsadd (Fin za) (Fin (- z)) with
              | Fin y => 0 <? y
              | PInf => true
              | _ => false
              end)
        with (jslt (Fin 0) (jsadd (Fin za) (Fin (- z)))).
      rewrite jslt_zero_sub. destruct (z <? za) eqn:E.
      * apply Z.ltb_lt in E. exists [], (a :: l).
        rewrite (sort_insert_head a l za Hza Hmin).
        split; [reflexivity|]. split; [reflexivity|].
        split; [intros it []|].
        intros it [<-|Hit]; [exists za; split; [assumption|lia]|].
        now apply Haf.
      * apply Z.ltb_ge in E. exists [a], l.
        split; [reflexivity|]. split; [reflexivity|]. split.
        -- intros it [<-|[]]. exists za. split; [assumption|lia].
        -- assumption.
    + exists (a :: b :: before'), after. subst l.
      rewrite (sort_insert_head a ((b :: before') ++ x :: after) za Hza).
      * split; [reflexivity|]. split; [reflexivity|]. split; [|assumption].
        intros it [<-|Hit]; [|now apply Hb].
        destruct (Hb b (or_introl eq_refl)) as (yb & Hyb & Hle).
        destruct (Hmin b) as (yb' & Hyb' & Hle');
          [apply in_app_iff; left; now left|].
        exists za. split; [assumption|]. rewrite Hyb in Hyb'.
        inversion Hyb'. lia.
      * intros it Hit. apply in_app_iff in Hit.
        destruct Hit as [Hit|[<-|Hit]].
        -- apply Hmin. apply in_app_iff. now left.
        -- exists z. split; [assumption|].
           destruct (Hb b (or_introl eq_refl)) as (yb & Hyb & Hle).
           destruct (Hmin b) as (yb' & Hyb' & Hle');
             [apply in_app_iff; left; now left|].
           rewrite Hyb in Hyb'. inversion Hyb'. lia.
        -- apply Hmin. apply in_app_iff. now right.
Qed.

(* ================================================================= *)
(** ** Further facts: the search and the returned path *)

Lemma dijkstraLoop_more_fuel (g : Graph) fuel fuel' st st' :
  dijkstraLoop fuel g st = Some st' -> (fuel <= fuel')%nat ->
  dijkstraLoop fuel' g st = Some st'.
Proof.
  revert fuel' st. induction fuel as [|f IH]; intros fuel' st H Hle.
  - simpl in H. destruct (isPriorityQueueEmpty (st_queue st)) eqn:E;
      [|discriminate].
    destruct fuel'; simpl; now rewrite E.
  - destruct fuel' as [|f']; [lia|]. simpl in *.
    destruct (isPriorityQueueEmpty (st_queue st)); [assumption|].
    apply IH; [assumption|lia].
Qed.

(** The backward walk along rank-decreasing links never meets a node
    twice. *)
Lemma walkBack_simple P (rank : Node -> nat) :
  (forall v u, previousOf P v = Some u -> (rank u < rank v)%nat) ->
  forall fuel c acc p,
    NoDup acc ->
    (forall v x, c = Some v -> In x acc -> (rank v < rank x)%nat) ->
    walkBack fuel P c acc = Some p -> NoDup p.
Proof.
  intros Hrank. induction fuel as [|f IH]; intros c acc p ND Hlt H.
  - destruct c; simpl in H; [discriminate|]. inversion H. now subst.
  - destruct c as [v|]; simpl in H; [|inversion H; now subst].
    apply (IH (previousOf P v) (v :: acc) p); [| |assumption].
    + constructor; [|assumption]. intro Hin.
      specialize (Hlt v v eq_refl Hin). lia.
    + intros u x E [<-|Hx].
      * now apply Hrank.
      * specialize (Hlt v x eq_refl Hx). specialize (Hrank v u E). lia.
Qed.


(* ================================================================= *)
(** ** Further facts: the exploration on every graph *)

Lemma reverse_inner_sound (c node : Node) V (es : list Edge) stack v :
  In v (fold_left
          (fun stack edge =>
             if strict_eq (to edge) c && negb (set_has V node)
             then node :: stack else stack) es stack) ->
  In v stack \/ (v = node /\ exists e, In e es /\ to e = c).
Proof.
  revert stack. induction es as [|e r IH]; intro stack; simpl; [auto|].
  intro H. apply IH in H. clear IH.
  destruct H as [H|(H1 & e' & H2 & H3)].
  - destruct (strict_eq (to e) c) eqn:E; simpl in H; [|now left].
    destruct (negb (set_has V node)); [|now left].
    destruct H as [<-|H]; [|now left].
    right. split; [reflexivity|]. exists e. split; [now left|].
    now apply strict_eq_spec in E.
  - right. split; [assumption|]. exists e'. auto.
Qed.

Lemma addReverseAdjacentNodes_sound (g : Graph) c V stack v :
  In v (addReverseAdjacentNodes g c V stack) ->
  In v stack \/ stored_edge g v c.
Proof.
  unfold addReverseAdjacentNodes, stored_edge. revert stack.
  induction g as [|[node es] r IH]; intro stack; simpl; [auto|].
  intro H. apply IH in H. clear IH.
  destruct H as [H|(es' & e & H1 & H2 & H3)].
  - apply reverse_inner_sound in H.
    destruct H as [H|(-> & e & H1 & H2)]; [now left|].
    right. exists es, e. auto.
  - right. exists es', e. auto.
Qed.

Lemma addAdjacentNodes_sound (g : Graph) c V stack v :
  In v (addAdjacentNodes g c V stack) ->
  In v stack \/ adjacent g c v.
Proof.
  unfold addAdjacentNodes. intro H.
  apply addReverseAdjacentNodes_sound in H.
  destruct H as [H|H]; [|right; now right].
  apply addDirectAdjacentNodes_In in H.
  destruct H as [H|(e & H1 & H2 & _)]; [now left|].
  right. left. exists (neighborsOf g c), e.
  split; [|auto]. unfold neighborsOf in *.
  destruct (map_get g c) as [l|] eqn:E; [|contradiction].
  now apply map_get_In.
Qed.

Lemma addAdjacentNodes_keeps (g : Graph) c V stack v :
  In v stack -> In v (addAdjacentNodes g c V stack).
Proof.
  intro H. unfold addAdjacentNodes, addReverseAdjacentNodes.
  assert (Hd : In v (addDirectAdjacentNodes g c V stack))
    by (apply addDirectAdjacentNodes_In; now left).
  revert Hd. generalize (addDirectAdjacentNodes g c V stack).
  clear H stack. induction g as [|[node es] r IH]; intros stack Hd; simpl;
    [assumption|].
  apply IH. clear IH. revert stack Hd.
  induction es as [|e es IH]; intros stack Hd; simpl; [assumption|].
  apply IH. destruct (_ && _); [now right|assumption].
Qed.

Lemma explore_sound_skip (g : Graph) V0 n V c rest comp :
  ~ In n V0 ->
  explore_sound g V0 n V (c :: rest) comp -> set_has V c = true ->
  explore_sound g V0 n V rest comp.
Proof.
  intros Hn [] Hc. apply set_has_In in Hc.
  constructor; try assumption.
  - intros x [H|H]; apply es_connected0; [left; now right|now right].
  - destruct es_start0 as [H|[<-|H]]; auto.
    left. apply es_visited0 in Hc. tauto.
Qed.

Lemma explore_sound_visit (g : Graph) V0 n V c rest comp :
  explore_sound g V0 n V (c :: rest) comp -> set_has V c = false ->
  explore_sound g V0 n (set_add V c)
    (addAdjacentNodes g c (set_add V c) rest) (comp ++ [c]).
Proof.
  intros [] Hc.
  assert (Hcn : Connected g n c) by (apply es_connected0; left; now left).
  assert (Hnotin : ~ In c V) by now apply set_has_false_iff.
  constructor.
  - intro x. rewrite set_add_In, es_visited0, in_app_iff. simpl. split.
    + intros [->|[?|?]]; auto.
    + intros [?|[?|[<-|[]]]]; auto.
  - intros x Hx. apply in_app_iff in Hx.
    destruct Hx as [Hx|[<-|[]]]; [now apply es_fresh0|].
    intro H. apply Hnotin, es_visited0. now left.
  - apply NoDup_app; [assumption|repeat constructor; simpl; tauto|].
    intros x Hx [<-|[]]. apply Hnotin, es_visited0. now right.
  - intros x [Hx|Hx].
    + apply addAdjacentNodes_sound in Hx. destruct Hx as [Hx|Hx].
      * apply es_connected0. left. now right.
      * now apply (Connected_step g n c x).
    + apply in_app_iff in Hx. destruct Hx as [Hx|[<-|[]]]; [|assumption].
      apply es_connected0. now right.
  - destruct es_start0 as [H|[<-|H]].
    + left. apply in_app_iff. now left.
    + left. apply in_app_iff. right. now left.
    + right. now apply addAdjacentNodes_keeps.
Qed.

Lemma exploreComponent_sound (g : Graph) V0 n comp V' :
  ~ In n V0 ->
  exploreComponent g n V0 = Some (comp, V') ->
  In n comp /\ NoDup comp /\
  (forall x, In x V' <-> In x V0 \/ In x comp) /\
  (forall x, In x comp -> ~ In x V0) /\
  (forall x, In x comp -> Connected g n x).
Proof.
  intros Hn H. unfold exploreComponent in H.
  assert (Hinit : explore_sound g V0 n V0 [n] []).
  { constructor.
    - intro x. simpl. tauto.
    - intros x [].
    - constructor.
    - intros x [[<-|[]]|[]]. constructor.
    - right. now left. }
  destruct (exploreLoop_rule g (explore_sound g V0 n)
              (fun V c rest comp =>
                 explore_sound_skip g V0 n V c rest comp Hn)
              (fun V c rest comp => explore_sound_visit g V0 n V c rest comp)
              _ _ _ _ _ _ Hinit H).
  split; [destruct es_start0 as [?|[]]; assumption|].
  split; [assumption|]. split; [assumption|]. split; [assumption|].
  intros x Hx. apply es_connected0. now right.
Qed.

Lemma partition_inv_nil (g : Graph) : partition_inv g [] [].
Proof.
  constructor.
  - intro x. simpl. tauto.
  - constructor.
  - intros x [].
  - intros comp [].
Qed.

Lemma findComponentsFrom_sound (g : Graph) :
  forall nodes V comps cs,
    (forall n, In n nodes -> known g n) ->
    partition_inv g V comps ->
    findComponentsFrom g nodes V comps = Some cs ->
    exists V', partition_inv g V' cs /\
               (forall x, In x V -> In x V') /\
               (forall n, In n nodes -> In n V').
Proof.
  induction nodes as [|n r IH]; intros V comps cs Hkn HI H.
  - simpl in H. inversion H. subst cs. exists V. split; [assumption|].
    split; [auto|]. intros n [].
  - simpl in H. destruct (set_has V n) eqn:En.
    + destruct (IH V comps cs (fun x Hx => Hkn x (or_intror Hx)) HI H)
        as (V' & H1 & H2 & H3).
      exists V'. split; [assumption|]. split; [assumption|].
      intros x [<-|Hx]; [|now apply H3].
      apply H2. now apply set_has_In.
    + destruct (exploreComponent g n V) as [[comp V1]|] eqn:Ex;
        [|discriminate].
      apply set_has_false_iff in En. destruct HI.
      destruct (exploreComponent_sound g V n comp V1 En Ex)
        as (Hstart & Hnd & Hv1 & Hfresh & Hconn).
      assert (HI1 : partition_inv g V1 (comps ++ [comp])).
      { constructor.
        - intro x. rewrite Hv1, concat_app, in_app_iff, pi_visited0.
          simpl. rewrite app_nil_r. tauto.
        - rewrite concat_app. simpl. rewrite app_nil_r.
          apply NoDup_app; try assumption.
          intros x Hx Hx'. apply (Hfresh x Hx'). now apply pi_visited0.
        - intros x Hx. apply Hv1 in Hx. destruct Hx as [Hx|Hx]; [auto|].
          apply (Connected_known g n x); [apply Hkn; now left|].
          now apply Hconn.
        - intros c Hc. apply in_app_iff in Hc.
          destruct Hc as [Hc|[<-|[]]]; [auto|].
          split; [intro E; rewrite E in Hstart; contradiction|].
          intros u v Hu Hv.
          apply (Connected_trans g u n v); [|now apply Hconn].
          apply Connected_sym. now apply Hconn. }
      destruct (IH V1 (comps ++ [comp]) cs
                  (fun x Hx => Hkn x (or_intror Hx)) HI1 H)
        as (V' & H1 & H2 & H3).
      exists V'. split; [assumption|]. split.
      * intros x Hx. apply H2, Hv1. now left.
      * intros x [<-|Hx]; [|now apply H3].
        apply H2, Hv1. now right.
Qed.

(** The components of a non-empty graph, on every graph. *)
Lemma analyzeGraph_sound (g : Graph) :
  g <> [] ->
  exists cs V,
    analyzeGraph g
    = Some (Ok (mkGraphAnalysis
                  (length (extractAllNodes g)) (calculateEdgeCount g)
                  (length cs <=? 1)%nat cs
                  (calculateDensity (length (extractAllNodes g))
                                    (calculateEdgeCount g)))) /\
    partition_inv g V cs /\
    (forall v, In v (concat cs) <-> known g v).
Proof.
  intro Hne. destruct (analyzeGraph_total g Hne) as (cs & Hcs & Ha).
  destruct (findComponentsFrom_sound g (extractAllNodes g) [] [] cs)
    as (V' & HI & _ & Hall).
  { intros n Hn. now apply extractAllNodes_In. }
  { apply partition_inv_nil. }
  { exact Hcs. }
  exists cs, V'. split; [assumption|]. split; [assumption|].
  destruct HI. intro v. rewrite <- pi_visited0. split; [apply pi_known0|].
  intro Hv. apply Hall. now apply extractAllNodes_In.
Qed.

(** The components of a non-empty graph with distinct keys and no
    [NaN] node. *)
Lemma analyzeGraph_classes (g : Graph) :
  g <> [] -> NoDup (map_keys g) -> graph_nodes_not_NaN g ->
  exists cs V,
    analyzeGraph g
    = Some (Ok (mkGraphAnalysis
                  (length (extractAllNodes g)) (calculateEdgeCount g)
                  (length cs <=? 1)%nat cs
                  (calculateDensity (length (extractAllNodes g))
                                    (calculateEdgeCount g)))) /\
    components_inv g V cs /\
    (forall v, In v (concat cs) <-> known g v).
Proof.
  intros Hne ND Hnan. destruct (analyzeGraph_total g Hne) as (cs & Hcs & Ha).
  destruct (findComponentsFrom_spec g ND Hnan (extractAllNodes g) [] [] cs)
    as (V' & HI & _ & Hall).
  { intros n Hn. now apply extractAllNodes_In. }
  { apply components_inv_nil. }
  { exact Hcs. }
  exists cs, V'. split; [assumption|]. split; [assumption|].
  destruct HI. intro v. rewrite <- ci_visited0. split; [apply ci_known0|].
  intro Hv. apply Hall. now apply extractAllNodes_In.
Qed.

(** ** Further facts: the node list *)

Lemma fold_set_add_fresh (l : list Node) :
  forall s, NoDup (s ++ l) -> fold_left set_add l s = s ++ l.
Proof.
  induction l as [|a r IH]; intros s ND; simpl; [now rewrite app_nil_r|].
  assert (Ha : set_has s a = false).
  { apply set_has_false_iff. intro Hin.
    apply NoDup_remove_2 in ND. apply ND, in_app_iff. now left. }
  rewrite (set_add_absent s a Ha), IH; rewrite <- app_assoc; [reflexivity|].
  exact ND.
Qed.

Lemma set_add_present (s : JsSet) x : In x s -> set_add s x = s.
Proof.
  intro H. apply set_has_In in H. unfold set_add. now rewrite H.
Qed.

Lemma fold_destinations_present (vals : list (list Edge)) (s : JsSet) :
  (forall es e, In es vals -> In e es -> In (to e) s) ->
  fold_left (fun s edges => fold_left (fun s e => set_add s (to e)) edges s)
            vals s = s.
Proof.
  induction vals as [|es r IH]; intro H; simpl; [reflexivity|].
  assert (Hes : fold_left (fun s e => set_add s (to e)) es s = s).
  { assert (Hin : forall e, In e es -> In (to e) s)
      by (intros e He; apply (H es e); [now left|assumption]).
    clear H IH. induction es as [|e es IH]; simpl; [reflexivity|].
    rewrite set_add_present; [|apply Hin; now left].
    apply IH. intros e' He'. apply Hin. now right. }
  rewrite Hes. apply IH. intros es' e H1 H2. apply (H es' e); [now right|auto].
Qed.

(** On a graph with distinct keys all of whose edge destinations are
    keys, the node list is the key list. *)
Lemma extractAllNodes_closed (g : Graph) :
  NoDup (map_keys g) ->
  (forall v, known g v -> In v (map_keys g)) ->
  extractAllNodes g = map_keys g.
Proof.
  intros ND Hcl. unfold extractAllNodes.
  rewrite (fold_set_add_fresh (map_keys g) [] ND). simpl.
  apply fold_destinations_present.
  intros es e H1 H2. apply Hcl. right. exists es, e. auto.
Qed.

Lemma set_add_prefix (s : JsSet) x : exists r, set_add s x = s ++ r.
Proof.
  unfold set_add. destruct (set_has s x).
  - exists []. now rewrite app_nil_r.
  - now exists [x].
Qed.

Lemma fold_destinations_prefix (vals : list (list Edge)) (s : JsSet) :
  exists r,
    fold_left (fun s edges => fold_left (fun s e => set_add s (to e)) edges s)
              vals s = s ++ r.
Proof.
  revert s. induction vals as [|es l IH]; intro s; simpl.
  - exists []. now rewrite app_nil_r.
  - assert (Hes : exists r,
               fold_left (fun s e => set_add s (to e)) es s = s ++ r).
    { clear IH. revert s. induction es as [|e es IH]; intro s; simpl.
      - exists []. now rewrite app_nil_r.
      - destruct (set_add_prefix s (to e)) as [r1 ->].
        destruct (IH (s ++ r1)) as [r2 ->].
        exists (r1 ++ r2). now rewrite app_assoc. }
    destruct Hes as [r1 ->]. destruct (IH (s ++ r1)) as [r2 ->].
    exists (r1 ++ r2). now rewrite app_assoc.
Qed.

Lemma NoDup_app_disjoint {A} (l1 l2 : list A) x :
  NoDup (l1 ++ l2) -> In x l1 -> In x l2 -> False.
Proof.
  induction l1 as [|a r IH]; intros ND H1 H2; [contradiction|].
  simpl in ND. inversion ND as [|? ? Hn ND']. subst.
  destruct H1 as [->|H1]; [|now apply IH].
  apply Hn, in_app_iff. now right.
Qed.

(* ================================================================= *)
(** ** Further facts: the shortest among several targets *)

Lemma shortestAmong_fold (g : Graph) (s : Node) (targets : list Node) :
  forall acc log,
    shortestAmong g s targets acc log
    = Some (fold_left pickShorter (successes g s targets) acc,
            log ++ failures g s targets).
Proof.
  induction targets as [|t r IH]; intros acc log; simpl.
  - now rewrite app_nil_r.
  - destruct (findPaths_total g s t) as [res Hres].
    unfold successes, failures in *. simpl. rewrite Hres.
    destruct res as [p|e]; rewrite IH; simpl.
    + reflexivity.
    + now rewrite <- app_assoc.
Qed.

Lemma successes_In (g : Graph) (s : Node) (targets : list Node) sp :
  In sp (successes g s targets) <->
  exists t, In t targets /\ findPaths g s t = Some (Ok sp).
Proof.
  unfold successes. rewrite in_flat_map. split.
  - intros (t & Ht & H). exists t. split; [assumption|].
    destruct (findPaths g s t) as [[p|e]|]; try contradiction.
    destruct H as [->|[]]. reflexivity.
  - intros (t & Ht & H). exists t. split; [assumption|].
    rewrite H. now left.
Qed.

(** The running minimum over answers at finite distances. *)
Lemma fold_pickShorter_minimal (l : list ShortestPath) :
  (forall x, In x l -> exists z, distance x = Fin z) ->
  forall acc,
    (forall b, acc = Some b -> exists z, distance b = Fin z) ->
    (fold_left pickShorter l acc = None <-> acc = None /\ l = []) /\
    forall r, fold_left pickShorter l acc = Some r ->
      (acc = Some r \/ In r l) /\
      exists d, distance r = Fin d /\
        (forall b, acc = Some b ->
                   exists d', distance b = Fin d' /\ d <= d') /\
        (forall x, In x l -> exists d', distance x = Fin d' /\ d <= d').
Proof.
  induction l as [|p l IH]; intros Hfin acc Hacc.
  - simpl. split; [tauto|]. intros r Hr.
    split; [now left|]. destruct (Hacc r Hr) as [d Hd].
    exists d. split; [assumption|]. split.
    + intros b Hb. rewrite Hb in Hr. inversion Hr. subst b.
      exists d. split; [assumption|lia].
    + intros x [].
  - cbn [fold_left].
    destruct (Hfin p (or_introl eq_refl)) as [zp Hzp].
    assert (Hacc' : forall b, pickShorter acc p = Some b ->
                              exists z, distance b = Fin z).
    { intros b Hb. destruct acc as [a|]; simpl in Hb.
      - destruct (jslt (distance p) (distance a)); inversion Hb; subst b;
          eauto.
      - inversion Hb. subst b. eauto. }
    destruct (IH (fun x Hx => Hfin x (or_intror Hx)) (pickShorter acc p) Hacc')
      as [Hnone Hsome].
    split.
    + split.
      * intro H. apply Hnone in H. destruct H as [H _].
        destruct acc as [a|]; simpl in H; [|discriminate].
        destruct (jslt (distance p) (distance a)); discriminate.
      * intros [_ H]. discriminate.
    + intros r Hr. destruct (Hsome r Hr) as (Hin & d & Hd & Hle1 & Hle2).
      clear Hsome Hnone IH.
      destruct acc as [a|]; simpl in Hin, Hle1.
      * destruct (Hacc a eq_refl) as [za Hza].
        rewrite Hzp, Hza in Hin, Hle1. simpl in Hin, Hle1.
        destruct (Z.ltb_spec zp za) as [Hlt|Hge].
        -- destruct (Hle1 p eq_refl) as (d' & Hd' & Hle).
           rewrite Hzp in Hd'. inversion Hd'. subst d'.
           split.
           { destruct Hin as [Hin|Hin]; [|right; now right].
             inversion Hin. subst r. right. now left. }
           exists d. split; [assumption|]. split.
           { intros b Hb. inversion Hb. subst b. exists za.
             split; [assumption|lia]. }
           { intros x [<-|Hx]; [|now apply Hle2].
             exists zp. split; [assumption|lia]. }
        -- destruct (Hle1 a eq_refl) as (d' & Hd' & Hle).
           rewrite Hza in Hd'. inversion Hd'. subst d'.
           split.
           { destruct Hin as [Hin|Hin]; [now left|right; now right]. }
           exists d. split; [assumption|]. split.
           { intros b Hb. inversion Hb. subst b. exists za.
             split; [assumption|lia]. }
           { intros x [<-|Hx]; [|now apply Hle2].
             exists zp. split; [assumption|lia]. }
      * destruct (Hle1 p eq_refl) as (d' & Hd' & Hle).
        rewrite Hzp in Hd'. inversion Hd'. subst d'.
        split.
        { destruct Hin as [Hin|Hin]; [|right; now right].
          inversion Hin. subst r. right. now left. }
        exists d. split; [assumption|]. split; [intros b Hb; discriminate|].
        intros x [<-|Hx]; [|now apply Hle2].
        exists zp. split; [assumption|lia].
Qed.

(** On a built graph an answer is at a finite distance. *)
Lemma findPaths_built_distance (raw : list RawEdge) (g : Graph) s t sp :
  buildGraph raw = Ok g -> findPaths g s t = Some (Ok sp) ->
  exists z, distance sp = Fin z /\ 0 <= z.
Proof.
  intros Hb Hfind. apply (findPaths_valid_distance g s t); [|assumption].
  now apply (buildGraph_weights_valid raw).
Qed.

(** In a graph built from [es], every edge of [es] is stored under the
    node it leaves. *)
Lemma adjacency_edge_stored (es : list Edge) (g : Graph) e :
  adjacency_of es g -> In e es -> In e (neighborsOf g (from e)).
Proof.
  intros (ND & Hk & Hget) He. unfold neighborsOf.
  rewrite (Hget (from e)).
  - apply filter_In. split; [assumption|]. apply Node_eqb_refl.
  - apply Hk. left. now apply in_map.
Qed.

(** ** Further facts: a queue filled by insertions *)

Lemma enqueueAll_inv (l : list (Node * Z)) :
  forall q,
    (forall it, In it (items q) -> exists y, priority it = Fin y) ->
    StronglySorted prio_le (items q) ->
    StronglySorted prio_le (items (enqueueAll l q)) /\
    Permutation (items (enqueueAll l q)) (items q ++ map entry l).
Proof.
  induction l as [|p r IH]; intros q Hfin Hs; simpl.
  - split; [assumption|]. now rewrite app_nil_r.
  - destruct (IH (enqueuePriorityQueue q (fst p) (Fin (snd p))))
      as [H1 H2].
    + intros it Hit. apply enqueue_In in Hit.
      destruct Hit as [->|Hit]; [simpl; eauto|now apply Hfin].
    + now apply enqueue_sorted.
    + split; [exact H1|].
      etransitivity; [exact H2|].
      etransitivity;
        [apply Permutation_app_tail, enqueue_perm|].
      simpl. apply Permutation_middle.
Qed.

(* ================================================================= *)
(** * The validator and the builder *)

(** C4, as stated, fails twice.  A [NaN] endpoint is not a finite
    number, yet the validator accepts the edge and the builder stores
    [NaN] as a node; and an edge with a [null] endpoint is not reported
    when an earlier edge already failed a weight check. *)
Lemma validateEdges_node_check_counterexample :
  (Exists (fun e => spec_well_formed_node (raw_from e) = false \/
                    spec_well_formed_node (raw_to e) = false)
          nanEndpointEdges /\
   validateEdges nanEndpointEdges = Ok tt /\
   buildGraph nanEndpointEdges
   = Ok [(NNum NaN, [mkEdge (NNum NaN) (NStr "B") (Fin 1)]);
         (NStr "B", [])]) /\
  (Exists (fun e => spec_well_formed_node (raw_from e) = false \/
                    spec_well_formed_node (raw_to e) = false)
          negativeThenNullEdges /\
   validateEdges negativeThenNullEdges
   = Err (InvalidGraph "Invalid weight: negative value")).
Proof.
  split; split.
  - constructor. left. reflexivity.
  - split; reflexivity.
  - apply Exists_cons_tl. constructor. left. reflexivity.
  - reflexivity.
Qed.

(** C4, amended: when an edge has an endpoint that is neither a string
    nor a number and every earlier edge passes all three checks, the
    validator, and with it the builder, answers [InvalidGraph] with
    reason "Invalid node type". *)
Theorem validateEdges_invalid_node_type
  (pre post : list RawEdge) (e : RawEdge) :
  Forall edge_accepted pre ->
  ~ string_or_number (raw_from e) \/ ~ string_or_number (raw_to e) ->
  validateEdges (pre ++ e :: post) = Err (InvalidGraph "Invalid node type")
  /\ buildGraph (pre ++ e :: post) = Err (InvalidGraph "Invalid node type").
Proof.
  intros Hpre Hbad.
  assert (He : validateEdge e = Some (InvalidGraph "Invalid node type")).
  { unfold validateEdge.
    destruct Hbad as [H|H]; apply isValidNode_false in H; rewrite H;
      simpl; [reflexivity|now rewrite orb_true_r]. }
  assert (Hv := validateEdges_first_failure pre post e _ Hpre He).
  split; [assumption|].
  unfold buildGraph. rewrite Hv.
  destruct (pre ++ e :: post) eqn:E; [|reflexivity].
  now destruct pre.
Qed.

Lemma validateEdges_invalid_node_type_witness :
  Forall edge_accepted [rawEdge "A" "B" 1] /\
  (~ string_or_number (raw_from nullEndpointEdge) \/
   ~ string_or_number (raw_to nullEndpointEdge)) /\
  validateEdges ([rawEdge "A" "B" 1] ++ nullEndpointEdge :: [])
  = Err (InvalidGraph "Invalid node type") /\
  buildGraph ([rawEdge "A" "B" 1] ++ nullEndpointEdge :: [])
  = Err (InvalidGraph "Invalid node type").
Proof.
  assert (H1 : Forall edge_accepted [rawEdge "A" "B" 1])
    by (apply validateEdges_Ok; reflexivity).
  assert (H2 : ~ string_or_number (raw_from nullEndpointEdge) \/
               ~ string_or_number (raw_to nullEndpointEdge))
    by (left; simpl; tauto).
  split; [exact H1|split; [exact H2|]].
  exact (validateEdges_invalid_node_type [rawEdge "A" "B" 1] []
           nullEndpointEdge H1 H2).
Defined.

(** C6: a non-empty edge list that passes validation is built into a
    graph whose keys are exactly the [from] and [to] endpoints of the
    input; each key holds the input edges leaving it, in input order
    with duplicates kept, and a node that is only a destination holds
    the empty list. *)
Theorem buildGraph_adjacency_lists (raw : list RawEdge) :
  raw <> [] ->
  validateEdges raw = Ok tt ->
  exists (edges : list Edge) (g : Graph),
    map as_edge raw = map Some edges /\
    buildGraph raw = Ok g /\
    NoDup (map_keys g) /\
    (forall k, In k (map_keys g) <->
               In k (map from edges) \/ In k (map to edges)) /\
    (forall k, In k (map_keys g) ->
               map_get g k
               = Some (filter (fun e => Node_eqb (from e) k) edges)) /\
    (forall k, In k (map to edges) -> ~ In k (map from edges) ->
               map_get g k = Some []).
Proof.
  intros Hne Hv. apply validateEdges_Ok in Hv.
  exists (typed_edges raw), (buildAdjacencyList (typed_edges raw)).
  destruct (buildAdjacencyList_adjacency (typed_edges raw))
    as (ND & Hk & Hg).
  repeat split; try assumption.
  - now apply typed_edges_accepted.
  - now apply buildGraph_accepted.
  - now apply Hk.
  - now apply Hk.
  - intros k Hto Hfrom. rewrite Hg by (apply Hk; now right).
    now rewrite filter_from_nil.
Qed.

Lemma buildGraph_adjacency_lists_witness :
  basicEdges <> [] /\ validateEdges basicEdges = Ok tt /\
  exists (edges : list Edge) (g : Graph),
    map as_edge basicEdges = map Some edges /\
    buildGraph basicEdges = Ok g /\
    NoDup (map_keys g) /\
    (forall k, In k (map_keys g) <->
               In k (map from edges) \/ In k (map to edges)) /\
    (forall k, In k (map_keys g) ->
               map_get g k
               = Some (filter (fun e => Node_eqb (from e) k) edges)) /\
    (forall k, In k (map to edges) -> ~ In k (map from edges) ->
               map_get g k = Some []).
Proof.
  assert (H1 : basicEdges <> []) by discriminate.
  assert (H2 : validateEdges basicEdges = Ok tt) by reflexivity.
  split; [exact H1|split; [exact H2|]].
  exact (buildGraph_adjacency_lists basicEdges H1 H2).
Defined.

(** C9: in a graph returned by the builder, every edge stored in the
    list of a key leaves that key. *)
Theorem buildGraph_lists_outgoing
  (raw : list RawEdge) (g : Graph) (k : Node) (es : list Edge) (e : Edge) :
  buildGraph raw = Ok g ->
  In (k, es) g -> In e es -> from e = k.
Proof.
  intros Hb Hin He. apply buildGraph_Ok in Hb.
  destruct Hb as (_ & _ & ->).
  destruct (buildAdjacencyList_adjacency (typed_edges raw))
    as (ND & Hk & Hg).
  assert (Hkey : In k (map_keys (buildAdjacencyList (typed_edges raw)))).
  { change k with (fst (k, es)). now apply in_map. }
  apply map_In_get_NoDup in Hin; [|assumption].
  rewrite Hg in Hin by assumption. inversion Hin. subst es.
  apply filter_In in He. destruct He as [_ He].
  now apply Node_eqb_eq.
Qed.

Lemma buildGraph_lists_outgoing_witness :
  buildGraph disconnectedEdges
  = Ok [(NStr "A", [mkEdge (NStr "A") (NStr "B") (Fin 1)]);
        (NStr "B", []);
        (NStr "C", [mkEdge (NStr "C") (NStr "D") (Fin 2)]);
        (NStr "D", [])] /\
  from (mkEdge (NStr "C") (NStr "D") (Fin 2)) = NStr "C".
Proof.
  assert (H1 : buildGraph disconnectedEdges
               = Ok [(NStr "A", [mkEdge (NStr "A") (NStr "B") (Fin 1)]);
                     (NStr "B", []);
                     (NStr "C", [mkEdge (NStr "C") (NStr "D") (Fin 2)]);
                     (NStr "D", [])]) by reflexivity.
  split; [exact H1|].
  apply (buildGraph_lists_outgoing disconnectedEdges _ (NStr "C")
           [mkEdge (NStr "C") (NStr "D") (Fin 2)] _ H1).
  - simpl. tauto.
  - simpl. tauto.
Defined.

(* ================================================================= *)
(** * The path engine *)

(** C10: the search always returns; in the maps it returns, every
    predecessor link leads to a node that was finalized, and finalized
    strictly earlier than the node the link leaves, so the links are
    acyclic and the backward walk of [reconstructPathInternal] reaches
    [null] within the fuel it is given, whatever the target. *)
Theorem predecessor_chains_end (g : Graph) (start : Node) :
  exists (r : DijkstraResult) (order : list Node),
    executeDijkstraInternal g start = Some r /\
    NoDup order /\
    (forall v u, previousOf (previous r) v = Some u ->
                 In u order /\
                 (index_of order u < index_of order v)%nat) /\
    (forall target, exists p,
        walkBack (S (map_size (previous r))) (previous r)
                 (Some target) [] = Some p) /\
    (forall target, exists res,
        reconstructPathInternal (previous r) (distances r) target
        = Some res).
Proof.
  destruct (executeDijkstraInternal_total g start) as [r Hr].
  destruct (executeDijkstraInternal_inv _ _ _ Hr) as (st & Hi & Hq & HD & HP).
  exists r, (st_visited st). rewrite HP, HD.
  split; [assumption|]. split; [apply (inv_nodup _ _ _ Hi)|].
  split; [|split].
  - intros v u Hp. pose proof (inv_rank _ _ _ Hi v u Hp) as Hlt.
    split; [|assumption]. apply index_of_lt_In.
    pose proof (index_of_le (st_visited st) v). lia.
  - intro target. exact (search_inv_walkBack g start st target Hi).
  - intro target. unfold reconstructPathInternal.
    destruct (negb (map_has (st_distances st) target)); [eauto|].
    destruct (jsnum_strict_eq _ _); [eauto|].
    destruct (search_inv_walkBack g start st target Hi) as [p Hp].
    rewrite Hp. eauto.
Qed.







(* ================================================================= *)
(** * The analyzer *)

(** C8: on a non-empty graph the analysis returns; its node count is
    the number of distinct known nodes, its edge count the sum of the
    lengths of the adjacency lists, and its density is 0 for at most one
    node and otherwise the exact quotient
    [edgeCount / (nodeCount * (nodeCount - 1))], with no cap: it exceeds
    1 as soon as there are more edges than ordered pairs of nodes. *)
Theorem analyzeGraph_density_formula (g : Graph) :
  g <> [] ->
  exists (a : GraphAnalysis) (nodes : list Node),
    analyzeGraph g = Some (Ok a) /\
    NoDup nodes /\ (forall v, In v nodes <-> known g v) /\
    nodeCount a = length nodes /\
    edgeCount a = list_sum (map (@length Edge) (map_values g)) /\
    ((nodeCount a <= 1)%nat -> density a = 0%Q) /\
    ((1 < nodeCount a)%nat ->
     density a
     = (inject_Z (Z.of_nat (edgeCount a))
        / inject_Z (Z.of_nat (nodeCount a * (nodeCount a - 1))))%Q) /\
    ((1 < nodeCount a)%nat ->
     (nodeCount a * (nodeCount a - 1) < edgeCount a)%nat ->
     (1 < density a)%Q).
Proof.
  intro Hne. destruct (analyzeGraph_total g Hne) as (cs & _ & Ha).
  eexists. exists (extractAllNodes g). split; [exact Ha|].
  cbn [nodeCount edgeCount density].
  split; [apply extractAllNodes_NoDup|].
  split; [apply extractAllNodes_In|].
  split; [reflexivity|].
  split.
  { unfold calculateEdgeCount. now rewrite fold_left_add_length. }
  set (n := length (extractAllNodes g)).
  set (e := calculateEdgeCount g).
  unfold calculateDensity.
  split; [|split].
  - intro H. apply Nat.leb_le in H. now rewrite H.
  - intro H. apply Nat.leb_gt in H. now rewrite H.
  - intros H He. apply Nat.leb_gt in H. rewrite H.
    apply Nat.leb_gt in H.
    apply Qlt_shift_div_l.
    + change 0%Q with (inject_Z 0). rewrite <- Zlt_Qlt. nia.
    + rewrite Qmult_1_l. rewrite <- Zlt_Qlt. lia.
Qed.

Lemma analyzeGraph_density_formula_witness :
  parallelGraph <> [] /\
  analyzeGraph parallelGraph
  = Some (Ok (mkGraphAnalysis 2 3 true [[NStr "A"; NStr "B"]]
                              (inject_Z 3 / inject_Z 2))) /\
  (1 < inject_Z 3 / inject_Z 2)%Q /\
  exists (a : GraphAnalysis) (nodes : list Node),
    analyzeGraph parallelGraph = Some (Ok a) /\
    NoDup nodes /\ (forall v, In v nodes <-> known parallelGraph v) /\
    nodeCount a = length nodes /\
    edgeCount a = list_sum (map (@length Edge) (map_values parallelGraph)) /\
    ((nodeCount a <= 1)%nat -> density a = 0%Q) /\
    ((1 < nodeCount a)%nat ->
     density a
     = (inject_Z (Z.of_nat (edgeCount a))
        / inject_Z (Z.of_nat (nodeCount a * (nodeCount a - 1))))%Q) /\
    ((1 < nodeCount a)%nat ->
     (nodeCount a * (nodeCount a - 1) < edgeCount a)%nat ->
     (1 < density a)%Q).
Proof.
  assert (H : parallelGraph <> []) by discriminate.
  split; [exact H|]. split; [reflexivity|]. split; [reflexivity|].
  exact (analyzeGraph_density_formula parallelGraph H).
Defined.

(* ================================================================= *)
(** * Where the code departs from its contract *)

(** C1 fails on a built graph: node [0] is falsy, the loop drops it
    without expanding it, and the query [1 -> 2] returns the direct
    edge of weight 10 although the walk through [0] weighs 2. *)
Lemma findPaths_falsy_node_not_optimal :
  buildGraph detourEdges = Ok detourGraph /\
  findPaths detourGraph (NNum (Fin 1)) (NNum (Fin 2))
  = Some (Ok (mkShortestPath [NNum (Fin 1); NNum (Fin 2)] (Fin 10))) /\
  Walk detourGraph (NNum (Fin 1))
       [mkEdge (NNum (Fin 1)) (NNum (Fin 0)) (Fin 1);
        mkEdge (NNum (Fin 0)) (NNum (Fin 2)) (Fin 1)] (NNum (Fin 2)) /\
  weight_of [mkEdge (NNum (Fin 1)) (NNum (Fin 0)) (Fin 1);
             mkEdge (NNum (Fin 0)) (NNum (Fin 2)) (Fin 1)] = Fin 2 /\
  jslt (Fin 2) (Fin 10) = true.
Proof.
  split; [reflexivity|]. split; [reflexivity|].
  split; [|split; reflexivity].
  apply (Walk_snoc detourGraph (NNum (Fin 1))
           [mkEdge (NNum (Fin 1)) (NNum (Fin 0)) (Fin 1)] (NNum (Fin 0))
           (mkEdge (NNum (Fin 0)) (NNum (Fin 2)) (Fin 1))).
  - apply (Walk_snoc detourGraph (NNum (Fin 1)) [] (NNum (Fin 1))
             (mkEdge (NNum (Fin 1)) (NNum (Fin 0)) (Fin 1)));
      [constructor|simpl; tauto].
  - simpl. tauto.
Qed.

(** C5 fails on a built graph with the node [NaN]: the map finds the
    key, but [node === start] is false for it, its distance stays
    infinite and the self-query answers [NoPath].  The part about the
    empty graph holds. *)
Lemma findPaths_self_NaN :
  buildGraph nanEndpointEdges = Ok nanGraph /\
  In (NNum NaN) (map_keys nanGraph) /\
  findPaths nanGraph (NNum NaN) (NNum NaN)
  = Some (Err (NoPath (NNum NaN) (NNum NaN))) /\
  forall s, findPaths [] s s = Some (Err (NodeNotFound s)).
Proof.
  split; [reflexivity|]. split; [simpl; tauto|].
  split; reflexivity.
Qed.

(** C7 fails on a built graph with the node [NaN]: the reverse
    adjacency test [edge.to === current] never holds for [NaN], so the
    edge [A -> NaN] is not followed backwards and [A] ends up in a
    component of its own. *)
Lemma analyzeGraph_NaN_components :
  buildGraph nanBridgeEdges = Ok nanBridgeGraph /\
  analyzeGraph nanBridgeGraph
  = Some (Ok (mkGraphAnalysis 3 2 false
                              [[NNum NaN; NStr "B"]; [NStr "A"]]
                              (inject_Z 2 / inject_Z 6))) /\
  In (mkEdge (NStr "A") (NNum NaN) (Fin 1))
     (neighborsOf nanBridgeGraph (NStr "A")).
Proof.
  split; [reflexivity|]. split; [reflexivity|]. simpl. tauto.
Qed.

(* ================================================================= *)
(** * What holds away from the two defects *)

(** X22: a query from a key other than [NaN] to itself returns the
    one-node path at distance 0, on every graph. *)
Theorem findPaths_self (g : Graph) (s : Node) :
  In s (map_keys g) -> s <> NNum NaN ->
  findPaths g s s = Some (Ok (mkShortestPath [s] (Fin 0))).
Proof.
  intros Hs Hnan.
  assert (Hne : g <> []) by (intros ->; contradiction).
  assert (Hhas : map_has g s = true) by now apply map_has_In_keys.
  destruct (findPaths_unfold g s s Hne Hhas) as (st & Hinv & _ & E).
  rewrite E. clear E.
  assert (Hk : map_has (st_distances st) s = true).
  { apply (map_has_distances g s st s Hinv). now left. }
  rewrite Hk. simpl negb. cbv iota.
  rewrite (inv_start_distance _ _ _ Hinv).
  apply set_has_In in Hs. rewrite Hs.
  assert (Hrefl : strict_eq s s = true) by (apply strict_eq_spec; auto).
  rewrite Hrefl. simpl.
  now rewrite (inv_start_root _ _ _ Hinv), walkBack_None.
Qed.

Lemma findPaths_self_witness :
  In (NNum (Fin 0)) (map_keys zeroStartGraph) /\
  NNum (Fin 0) <> NNum NaN /\
  findPaths zeroStartGraph (NNum (Fin 0)) (NNum (Fin 0))
  = Some (Ok (mkShortestPath [NNum (Fin 0)] (Fin 0))).
Proof.
  assert (H1 : In (NNum (Fin 0)) (map_keys zeroStartGraph))
    by (simpl; tauto).
  assert (H2 : NNum (Fin 0) <> NNum NaN) by discriminate.
  split; [exact H1|]. split; [exact H2|].
  exact (findPaths_self zeroStartGraph (NNum (Fin 0)) H1 H2).
Defined.

(** X23: on a built graph none of whose nodes is [0], the empty string
    or [NaN], no walk along stored edges from the start to the target
    is lighter than the distance of a successful query: the weights of
    the walk, added from left to right as the search adds them, come to
    [Infinity] or to a number that the distance does not exceed. *)
Theorem findPaths_optimal (raw : list RawEdge) (g : Graph) (s t : Node)
  (sp : ShortestPath) (es : list Edge) :
  buildGraph raw = Ok g ->
  graph_nodes_truthy g ->
  findPaths g s t = Some (Ok sp) ->
  Walk g s es t ->
  exists d,
    distance sp = Fin d /\ 0 <= d /\
    (weight_of es = PInf \/ exists w, weight_of es = Fin w /\ d <= w).
Proof.
  intros Hb Htruthy Hfind HW.
  pose proof (buildGraph_weights_valid raw g Hb) as Hvalid.
  destruct (findPaths_Ok_inv _ _ _ _ Hfind) as [_ Hhas].
  assert (Hs : In s (map_keys g)) by now apply map_has_In_keys.
  assert (Hf : node_falsy s = false) by (apply Htruthy; now left).
  destruct (findPaths_valid_distance g s t sp Hvalid Hfind)
    as (d & Hd & Hd0).
  destruct (findPaths_Ok_with g s t sp (opt_inv g)
              (opt_inv_init g s Hs Hf)
              (fun st => opt_inv_step g st Hvalid) Hfind)
    as (st & Hinv & Hopt & Hq & E).
  pose proof (search_optimal g s st Htruthy Hvalid Hs Hinv Hopt Hq es t HW)
    as Hle.
  rewrite <- E, Hd in Hle.
  exists d. split; [assumption|]. split; [assumption|].
  destruct (Walk_weights_valid g s es t Hvalid HW) as [Hw|(w & Hw & _)];
    [now left|right].
  exists w. split; [assumption|]. rewrite Hw in Hle. simpl in Hle.
  now apply Z.ltb_ge.
Qed.

Lemma findPaths_optimal_witness :
  buildGraph roundingEdges = Ok roundingGraph /\
  graph_nodes_truthy roundingGraph /\
  findPaths roundingGraph (NStr "A") (NStr "C")
  = Some (Ok (mkShortestPath [NStr "A"; NStr "C"] (Fin (2 ^ 53 + 4)))) /\
  Walk roundingGraph (NStr "A")
       [mkEdge (NStr "A") (NStr "B") (Fin (2 ^ 53 + 2));
        mkEdge (NStr "B") (NStr "C") (Fin 1)] (NStr "C") /\
  weight_of [mkEdge (NStr "A") (NStr "B") (Fin (2 ^ 53 + 2));
             mkEdge (NStr "B") (NStr "C") (Fin 1)] = Fin (2 ^ 53 + 4) /\
  exists d,
    Fin (2 ^ 53 + 4) = Fin d /\ 0 <= d /\
    (weight_of [mkEdge (NStr "A") (NStr "B") (Fin (2 ^ 53 + 2));
                mkEdge (NStr "B") (NStr "C") (Fin 1)] = PInf \/
     exists w,
       weight_of [mkEdge (NStr "A") (NStr "B") (Fin (2 ^ 53 + 2));
                  mkEdge (NStr "B") (NStr "C") (Fin 1)] = Fin w /\
       d <= w).
Proof.
  assert (H1 : buildGraph roundingEdges = Ok roundingGraph)
    by (vm_compute; reflexivity).
  assert (H2 : graph_nodes_truthy roundingGraph)
    by (apply nodes_truthy_b_spec; reflexivity).
  assert (H3 : findPaths roundingGraph (NStr "A") (NStr "C")
               = Some (Ok (mkShortestPath
                             [NStr "A"; NStr "C"] (Fin (2 ^ 53 + 4)))))
    by (vm_compute; reflexivity).
  assert (H4 : Walk roundingGraph (NStr "A")
                 [mkEdge (NStr "A") (NStr "B") (Fin (2 ^ 53 + 2));
                  mkEdge (NStr "B") (NStr "C") (Fin 1)] (NStr "C")).
  { apply (Walk_snoc roundingGraph (NStr "A")
             [mkEdge (NStr "A") (NStr "B") (Fin (2 ^ 53 + 2))] (NStr "B")
             (mkEdge (NStr "B") (NStr "C") (Fin 1))).
    - apply (Walk_snoc roundingGraph (NStr "A") [] (NStr "A")
               (mkEdge (NStr "A") (NStr "B") (Fin (2 ^ 53 + 2))));
        [constructor|left; reflexivity].
    - left. reflexivity. }
  split; [exact H1|]. split; [exact H2|]. split; [exact H3|].
  split; [exact H4|]. split; [vm_compute; reflexivity|].
  exact (findPaths_optimal roundingEdges roundingGraph (NStr "A") (NStr "C")
           _ _ H1 H2 H3 H4).
Defined.

(** X24: on a non-empty graph with distinct keys and no [NaN] node the
    components partition the known nodes, their sizes add up to the
    node count, each one is a class of undirected reachability, and
    [isConnected] says that there is exactly one. *)
Theorem analyzeGraph_components (g : Graph) :
  g <> [] -> NoDup (map_keys g) -> graph_nodes_not_NaN g ->
  exists a : GraphAnalysis,
    analyzeGraph g = Some (Ok a) /\
    NoDup (concat (components a)) /\
    (forall v, In v (concat (components a)) <-> known g v) /\
    list_sum (map (@length Node) (components a)) = nodeCount a /\
    (forall comp, In comp (components a) -> is_class g comp) /\
    (isConnected a = true <-> length (components a) = 1%nat).
Proof.
  intros Hne ND Hnan.
  destruct (analyzeGraph_total g Hne) as (cs & Hcs & Ha).
  eexists. split; [exact Ha|]. cbn [components nodeCount isConnected].
  destruct (findComponentsFrom_spec g ND Hnan (extractAllNodes g) [] [] cs)
    as (V' & [] & _ & Hall).
  { intros n Hn. now apply extractAllNodes_In. }
  { apply components_inv_nil. }
  { exact Hcs. }
  assert (Hsame : forall v, In v (concat cs) <-> known g v).
  { intro v. rewrite <- ci_visited0. split; [apply ci_known0|].
    intro Hv. apply Hall. now apply extractAllNodes_In. }
  split; [assumption|]. split; [assumption|]. split; [|split].
  - rewrite <- length_concat_sum. apply Permutation_length.
    apply NoDup_Permutation; [assumption|apply extractAllNodes_NoDup|].
    intro v. rewrite Hsame. symmetry. apply extractAllNodes_In.
  - assumption.
  - rewrite Nat.leb_le. split; [|lia].
    intro Hle. destruct cs as [|c [|c' r]]; simpl in *; try lia.
    exfalso. destruct g as [|[k es] g']; [contradiction|].
    assert (Hk : known ((k, es) :: g') k) by (left; simpl; now left).
    apply Hsame in Hk. contradiction.
Qed.

Lemma analyzeGraph_components_witness :
  disconnectedGraph <> [] /\ NoDup (map_keys disconnectedGraph) /\
  graph_nodes_not_NaN disconnectedGraph /\
  analyzeGraph disconnectedGraph
  = Some (Ok (mkGraphAnalysis 4 2 false
                [[NStr "A"; NStr "B"]; [NStr "C"; NStr "D"]]
                (inject_Z 2 / inject_Z 12))) /\
  exists a : GraphAnalysis,
    analyzeGraph disconnectedGraph = Some (Ok a) /\
    NoDup (concat (components a)) /\
    (forall v, In v (concat (components a)) <-> known disconnectedGraph v) /\
    list_sum (map (@length Node) (components a)) = nodeCount a /\
    (forall comp, In comp (components a) ->
                  is_class disconnectedGraph comp) /\
    (isConnected a = true <-> length (components a) = 1%nat).
Proof.
  assert (H1 : disconnectedGraph <> []) by discriminate.
  assert (H2 : NoDup (map_keys disconnectedGraph)).
  { simpl. repeat constructor; simpl; intuition discriminate. }
  assert (H3 : graph_nodes_not_NaN disconnectedGraph)
    by (apply nodes_not_NaN_b_spec; reflexivity).
  split; [exact H1|]. split; [exact H2|]. split; [exact H3|].
  split; [reflexivity|].
  exact (analyzeGraph_components disconnectedGraph H1 H2 H3).
Defined.

(* ================================================================= *)
(** * Further properties of the validator and the builder *)

(** X1: the validator accepts an edge list exactly when every edge
    passes the three exported type guards. *)
Theorem validateEdges_agrees_with_guards (edges : list RawEdge) :
  validateEdges edges = Ok tt <-> Forall guards_pass edges.
Proof.
  rewrite validateEdges_Ok. split; intro H;
    (eapply Forall_impl; [|exact H]); intros r.
  - intros (Hf & Ht & Hw). unfold guards_pass.
    rewrite !isValidNode_spec, isValidWeight_spec. auto.
  - intros (Hf & Ht & Hw). unfold edge_accepted.
    rewrite <- !isValidNode_spec, <- isValidWeight_spec. auto.
Qed.

(** X2: when the first edge that fails a check has two well-typed
    endpoints and a weight that is not a finite number, the reason is
    "Invalid weight: NaN or Infinity", also through the builder. *)
Theorem validateEdges_weight_not_finite
  (pre post : list RawEdge) (e : RawEdge) :
  Forall edge_accepted pre ->
  string_or_number (raw_from e) -> string_or_number (raw_to e) ->
  (forall z, raw_weight e <> VNumber (Fin z)) ->
  validateEdges (pre ++ e :: post)
  = Err (InvalidGraph "Invalid weight: NaN or Infinity") /\
  buildGraph (pre ++ e :: post)
  = Err (InvalidGraph "Invalid weight: NaN or Infinity").
Proof.
  intros Hpre Hf Ht Hw.
  assert (He : validateEdge e
               = Some (InvalidGraph "Invalid weight: NaN or Infinity")).
  { unfold validateEdge. apply isValidNode_spec in Hf, Ht.
    rewrite Hf, Ht. simpl.
    destruct (raw_weight e) as [s|w| | | |]; try reflexivity.
    destruct w as [z| | |]; try reflexivity.
    now destruct (Hw z). }
  assert (Hv := validateEdges_first_failure pre post e _ Hpre He).
  split; [assumption|]. unfold buildGraph. rewrite Hv.
  destruct (pre ++ e :: post) eqn:E; [|reflexivity]. now destruct pre.
Qed.

Lemma validateEdges_weight_not_finite_witness :
  Forall edge_accepted [rawEdge "A" "B" 1] /\
  string_or_number (raw_from nanWeightEdge) /\
  string_or_number (raw_to nanWeightEdge) /\
  (forall z, raw_weight nanWeightEdge <> VNumber (Fin z)) /\
  validateEdges ([rawEdge "A" "B" 1] ++ nanWeightEdge :: [])
  = Err (InvalidGraph "Invalid weight: NaN or Infinity") /\
  buildGraph ([rawEdge "A" "B" 1] ++ nanWeightEdge :: [])
  = Err (InvalidGraph "Invalid weight: NaN or Infinity").
Proof.
  assert (H1 : Forall edge_accepted [rawEdge "A" "B" 1])
    by (apply validateEdges_Ok; reflexivity).
  assert (H2 : string_or_number (raw_from nanWeightEdge)) by exact I.
  assert (H3 : string_or_number (raw_to nanWeightEdge)) by exact I.
  assert (H4 : forall z, raw_weight nanWeightEdge <> VNumber (Fin z))
    by (intros z; discriminate).
  split; [exact H1|]. split; [exact H2|]. split; [exact H3|].
  split; [exact H4|].
  exact (validateEdges_weight_not_finite [rawEdge "A" "B" 1] []
           nanWeightEdge H1 H2 H3 H4).
Defined.

(** X3: when the first edge that fails a check has two well-typed
    endpoints and a finite negative weight, the reason is
    "Invalid weight: negative value", also through the builder. *)
Theorem validateEdges_weight_negative
  (pre post : list RawEdge) (e : RawEdge) (z : Z) :
  Forall edge_accepted pre ->
  string_or_number (raw_from e) -> string_or_number (raw_to e) ->
  raw_weight e = VNumber (Fin z) -> z < 0 ->
  validateEdges (pre ++ e :: post)
  = Err (InvalidGraph "Invalid weight: negative value") /\
  buildGraph (pre ++ e :: post)
  = Err (InvalidGraph "Invalid weight: negative value").
Proof.
  intros Hpre Hf Ht Hw Hz.
  assert (He : validateEdge e
               = Some (InvalidGraph "Invalid weight: negative value")).
  { unfold validateEdge. apply isValidNode_spec in Hf, Ht.
    rewrite Hf, Ht, Hw. simpl. apply Z.ltb_lt in Hz. now rewrite Hz. }
  assert (Hv := validateEdges_first_failure pre post e _ Hpre He).
  split; [assumption|]. unfold buildGraph. rewrite Hv.
  destruct (pre ++ e :: post) eqn:E; [|reflexivity]. now destruct pre.
Qed.

Lemma validateEdges_weight_negative_witness :
  Forall edge_accepted [rawEdge "A" "B" 1] /\
  string_or_number (raw_from negativeWeightEdge) /\
  string_or_number (raw_to negativeWeightEdge) /\
  raw_weight negativeWeightEdge = VNumber (Fin (-3)) /\ -3 < 0 /\
  validateEdges ([rawEdge "A" "B" 1] ++ negativeWeightEdge :: [])
  = Err (InvalidGraph "Invalid weight: negative value") /\
  buildGraph ([rawEdge "A" "B" 1] ++ negativeWeightEdge :: [])
  = Err (InvalidGraph "Invalid weight: negative value").
Proof.
  assert (H1 : Forall edge_accepted [rawEdge "A" "B" 1])
    by (apply validateEdges_Ok; reflexivity).
  assert (H2 : string_or_number (raw_from negativeWeightEdge)) by exact I.
  assert (H3 : string_or_number (raw_to negativeWeightEdge)) by exact I.
  assert (H4 : raw_weight negativeWeightEdge = VNumber (Fin (-3)))
    by reflexivity.
  assert (H5 : -3 < 0) by lia.
  split; [exact H1|]. split; [exact H2|]. split; [exact H3|].
  split; [exact H4|]. split; [exact H5|].
  exact (validateEdges_weight_negative [rawEdge "A" "B" 1] []
           negativeWeightEdge (-3) H1 H2 H3 H4 H5).
Defined.

(** X4: the builder fails in exactly two ways: with [EmptyGraph] on the
    empty list and on nothing else, and on a non-empty list with the
    error of the validator, unchanged. *)
Theorem buildGraph_errors (edges : list RawEdge) (err : GraphError) :
  (buildGraph edges = Err EmptyGraph <-> edges = []) /\
  (buildGraph edges = Err err <->
   (edges = [] /\ err = EmptyGraph) \/
   (edges <> [] /\ validateEdges edges = Err err)).
Proof.
  unfold buildGraph. destruct edges as [|e r]; simpl (Nat.eqb _ _); cbv iota.
  - split; split; try tauto.
    + intro H. inversion H. now left.
    + intros [[_ ->]|[H _]]; [reflexivity|contradiction].
  - pose proof (validateEdges_not_EmptyGraph (e :: r)) as Hne.
    destruct (validateEdges (e :: r)) as [[]|err'] eqn:E.
    + split; split; try discriminate.
      intros [[H _]|[_ H]]; discriminate.
    + split; split; try discriminate.
      * intro H. exfalso. apply Hne. congruence.
      * intro H. right. split; [discriminate|congruence].
      * intros [[H _]|[_ H]]; [discriminate|congruence].
Qed.

(** X5: the keys of a built graph are the endpoints of the input in
    order of first appearance, the [from] of an edge before its [to]. *)
Theorem buildGraph_key_order (raw : list RawEdge) (g : Graph) :
  buildGraph raw = Ok g ->
  map_keys g = fold_left set_add (endpoints (typed_edges raw)) [].
Proof.
  intro Hb. apply buildGraph_Ok in Hb. destruct Hb as (_ & _ & ->).
  unfold buildAdjacencyList. apply (fold_addEdge_keys _ []).
Qed.

Lemma buildGraph_key_order_witness :
  buildGraph basicEdges = Ok basicGraph /\
  map_keys basicGraph
  = fold_left set_add (endpoints (typed_edges basicEdges)) [] /\
  map_keys basicGraph
  = [NStr "A"; NStr "B"; NStr "C"; NStr "D"; NStr "E"].
Proof.
  assert (H : buildGraph basicEdges = Ok basicGraph) by reflexivity.
  split; [exact H|]. split; [|reflexivity].
  exact (buildGraph_key_order basicEdges basicGraph H).
Defined.

(** X6: a built graph is never empty, has distinct keys, and every
    destination of a stored edge is a key. *)
Theorem buildGraph_closed (raw : list RawEdge) (g : Graph) :
  buildGraph raw = Ok g ->
  g <> [] /\ NoDup (map_keys g) /\
  forall v, known g v <-> In v (map_keys g).
Proof.
  intro Hb. apply buildGraph_Ok in Hb. destruct Hb as (Hne & Hacc & ->).
  pose proof (buildAdjacencyList_adjacency (typed_edges raw)) as Hadj.
  split; [|split].
  - destruct raw as [|r l]; [contradiction|].
    inversion Hacc as [|? ? Hr _]. subst.
    destruct (edge_accepted_as_edge r Hr) as (e & w & He & _).
    destruct Hadj as (_ & Hk & _).
    assert (Hin : In (from e)
                     (map_keys (buildAdjacencyList (typed_edges (r :: l))))).
    { apply Hk. left. simpl. rewrite He. simpl. now left. }
    intro E. rewrite E in Hin. contradiction.
  - now destruct Hadj.
  - intro v. now apply (adjacency_known_keys (typed_edges raw)).
Qed.

Lemma buildGraph_closed_witness :
  buildGraph disconnectedEdges = Ok disconnectedGraph /\
  disconnectedGraph <> [] /\ NoDup (map_keys disconnectedGraph) /\
  forall v, known disconnectedGraph v <-> In v (map_keys disconnectedGraph).
Proof.
  assert (H : buildGraph disconnectedEdges = Ok disconnectedGraph)
    by reflexivity.
  split; [exact H|].
  exact (buildGraph_closed disconnectedEdges disconnectedGraph H).
Defined.

(** X7: building loses and invents no edge: the stored edges are the
    input edges up to order, so the edge count of a built graph is the
    length of the input. *)
Theorem buildGraph_keeps_edges (raw : list RawEdge) (g : Graph) :
  buildGraph raw = Ok g ->
  Permutation (concat (map_values g)) (typed_edges raw) /\
  calculateEdgeCount g = length raw.
Proof.
  intro Hb. apply buildGraph_Ok in Hb. destruct Hb as (_ & Hacc & ->).
  assert (HP : Permutation
                 (concat (map_values (buildAdjacencyList (typed_edges raw))))
                 (typed_edges raw)).
  { unfold buildAdjacencyList.
    rewrite (fold_addEdge_edges (typed_edges raw) []). simpl.
    now rewrite app_nil_r. }
  split; [assumption|].
  rewrite calculateEdgeCount_sum, (Permutation_length HP).
  now apply typed_edges_length.
Qed.

Lemma buildGraph_keeps_edges_witness :
  buildGraph basicEdges = Ok basicGraph /\
  Permutation (concat (map_values basicGraph)) (typed_edges basicEdges) /\
  calculateEdgeCount basicGraph = length basicEdges.
Proof.
  assert (H : buildGraph basicEdges = Ok basicGraph) by reflexivity.
  split; [exact H|].
  exact (buildGraph_keeps_edges basicEdges basicGraph H).
Defined.

(* ================================================================= *)
(** * Further properties of the priority queue *)

(** X8: inserting into a queue of finite priorities yields a queue in
    ascending priority order that holds the new entry and exactly the
    old ones; it is never empty. *)
Theorem enqueue_sorted_permutation
  (q : PriorityQueueState Node) (x : Node) (z : Z) :
  (forall it, In it (items q) -> exists y, priority it = Fin y) ->
  StronglySorted prio_le (items (enqueuePriorityQueue q x (Fin z))) /\
  Permutation (items (enqueuePriorityQueue q x (Fin z)))
              (mkItem x (Fin z) :: items q) /\
  isPriorityQueueEmpty (enqueuePriorityQueue q x (Fin z)) = false.
Proof.
  intro Hfin. split; [now apply enqueue_sorted|].
  split; [apply enqueue_perm|].
  unfold isPriorityQueueEmpty. now rewrite enqueue_length.
Qed.

Lemma enqueue_sorted_permutation_witness :
  (forall it, In it (items sampleQueue) -> exists y, priority it = Fin y) /\
  items (enqueuePriorityQueue sampleQueue (NStr "e") (Fin 3))
  = [mkItem (NStr "a") (Fin 1); mkItem (NStr "b") (Fin 3);
     mkItem (NStr "c") (Fin 3); mkItem (NStr "e") (Fin 3);
     mkItem (NStr "d") (Fin 7)] /\
  StronglySorted prio_le
    (items (enqueuePriorityQueue sampleQueue (NStr "e") (Fin 3))) /\
  Permutation (items (enqueuePriorityQueue sampleQueue (NStr "e") (Fin 3)))
              (mkItem (NStr "e") (Fin 3) :: items sampleQueue) /\
  isPriorityQueueEmpty (enqueuePriorityQueue sampleQueue (NStr "e") (Fin 3))
  = false.
Proof.
  assert (H : forall it, In it (items sampleQueue) ->
                         exists y, priority it = Fin y).
  { intros it Hit. simpl in Hit.
    destruct Hit as [<-|[<-|[<-|[<-|[]]]]]; simpl; eauto. }
  split; [exact H|]. split; [reflexivity|].
  exact (enqueue_sorted_permutation sampleQueue (NStr "e") 3 H).
Defined.

(** X9: a queue filled by insertions gives back a minimum.  After
    any entries with finite priorities have been inserted into the
    empty queue, in any order, extraction returns an entry whose
    priority no inserted entry undercuts and leaves the other entries,
    in ascending order; from the queue without insertions it returns
    nothing and the queue itself. *)
Theorem dequeue_minimum (l : list (Node * Z)) :
  (l = [] /\
   dequeuePriorityQueue (enqueueAll l createPriorityQueue)
   = (None, createPriorityQueue)) \/
  (exists x z rest,
      dequeuePriorityQueue (enqueueAll l createPriorityQueue)
      = (Some x, mkQueue rest) /\
      Permutation (mkItem x (Fin z) :: rest) (map entry l) /\
      (forall p, In p l -> z <= snd p) /\
      StronglySorted prio_le rest).
Proof.
  destruct l as [|p0 l0]; [left; split; reflexivity|right].
  set (l := p0 :: l0).
  destruct (enqueueAll_inv l createPriorityQueue) as [Hs Hp].
  { intros it []. }
  { constructor. }
  simpl app in Hp. unfold dequeuePriorityQueue.
  destruct (items (enqueueAll l createPriorityQueue))
    as [|first rest] eqn:E.
  { apply Permutation_nil in Hp. discriminate. }
  assert (Hfirst : In first (map entry l))
    by (apply (Permutation_in _ Hp); now left).
  apply in_map_iff in Hfirst. destruct Hfirst as (q0 & <- & Hq0).
  exists (fst q0), (snd q0), rest.
  split; [reflexivity|]. split; [exact Hp|].
  inversion Hs as [|? ? Hr Hf]. subst. split; [|assumption].
  intros p Hp'.
  assert (Hin : In (entry p) (entry q0 :: rest)).
  { exact (Permutation_in _ (Permutation_sym Hp) (in_map entry l p Hp')). }
  destruct Hin as [Heq|Hin].
  - inversion Heq. lia.
  - rewrite Forall_forall in Hf.
    apply (prio_le_Fin (entry q0) (entry p) (snd q0) (snd p)
             eq_refl eq_refl).
    now apply Hf.
Qed.

(** X10: the queue is stable.  Inserting into a queue in ascending
    order of finite priorities puts the new entry behind every entry
    of lower or equal priority and before every entry of higher
    priority, the old entries keeping their order; so entries of equal
    priority leave in insertion order. *)
Theorem enqueue_stable (q : PriorityQueueState Node) (x : Node) (z : Z) :
  StronglySorted prio_le (items q) ->
  (forall it, In it (items q) -> exists y, priority it = Fin y) ->
  exists before after,
    items q = before ++ after /\
    items (enqueuePriorityQueue q x (Fin z))
    = before ++ mkItem x (Fin z) :: after /\
    (forall it, In it before -> exists y, priority it = Fin y /\ y <= z) /\
    (forall it, In it after -> exists y, priority it = Fin y /\ z < y).
Proof.
  intros Hs Hfin. unfold enqueuePriorityQueue. cbn [items].
  now apply array_sort_snoc_sorted.
Qed.

Lemma enqueue_stable_witness :
  StronglySorted prio_le (items sampleQueue) /\
  (forall it, In it (items sampleQueue) -> exists y, priority it = Fin y) /\
  exists before after,
    items sampleQueue = before ++ after /\
    items (enqueuePriorityQueue sampleQueue (NStr "e") (Fin 3))
    = before ++ mkItem (NStr "e") (Fin 3) :: after /\
    (forall it, In it before -> exists y, priority it = Fin y /\ y <= 3) /\
    (forall it, In it after -> exists y, priority it = Fin y /\ 3 < y).
Proof.
  assert (H1 : StronglySorted prio_le (items sampleQueue)).
  { simpl. repeat constructor. }
  assert (H2 : forall it, In it (items sampleQueue) ->
                          exists y, priority it = Fin y).
  { intros it Hit. simpl in Hit.
    destruct Hit as [<-|[<-|[<-|[<-|[]]]]]; simpl; eauto. }
  split; [exact H1|]. split; [exact H2|].
  exact (enqueue_stable sampleQueue (NStr "e") 3 H1 H2).
Defined.

(* ================================================================= *)
(** * The search and the returned path *)

(** X11: whatever the target, the answer is [NodeNotFound start]
    exactly when the start is not a key of the graph: a missing start
    is reported before the target is looked at (the empty graph
    included), and a start that is a key is never reported missing. *)
Theorem findPaths_start_not_found (g : Graph) (s t : Node) :
  findPaths g s t = Some (Err (NodeNotFound s)) <-> ~ In s (map_keys g).
Proof.
  split.
  - intros H Hs.
    assert (Hne : g <> []) by (intros ->; contradiction).
    assert (Hhas : map_has g s = true) by now apply map_has_In_keys.
    destruct (findPaths_unfold g s t Hne Hhas) as (st & Hinv & _ & E).
    rewrite E in H. clear E.
    destruct (map_has (st_distances st) t) eqn:Eh; simpl negb in H;
      cbv iota in H.
    + destruct (jsnum_strict_eq _ _); [discriminate|].
      destruct (walkBack _ _ _ _); discriminate.
    + inversion H. subst t.
      assert (Hk : map_has (st_distances st) s = true).
      { apply (map_has_distances g s st s Hinv). now left. }
      congruence.
  - intro Hs. unfold findPaths.
    destruct (Nat.eqb (map_size g) 0); [reflexivity|].
    destruct (map_has g s) eqn:Eh; [|reflexivity].
    apply map_has_In_keys in Eh. contradiction.
Qed.

(** X12: the main loop of the search stops, with an empty queue, within
    one more iteration than the graph stores edges, from whatever start
    node; more fuel changes nothing. *)
Theorem dijkstraLoop_iteration_bound (g : Graph) (s : Node) :
  exists st,
    items (st_queue st) = [] /\
    forall extra,
      dijkstraLoop (S (calculateEdgeCount g) + extra) g (initState g s)
      = Some st.
Proof.
  destruct (dijkstraLoop_terminates g (dijkstraFuel g) (initState g s))
    as [st Hst].
  - destruct (initState_facts g s) as (HV & HQ & _).
    unfold potential, dijkstraFuel. rewrite HV, HQ, pendingEdges_nil.
    simpl. lia.
  - exists st. split.
    + exact (proj2 (dijkstraLoop_invariant g (fun _ => True)
                      (fun _ _ => I) _ _ _ I Hst)).
    + intro extra.
      apply (dijkstraLoop_more_fuel g (dijkstraFuel g)); [assumption|].
      unfold dijkstraFuel, totalEdges, calculateEdgeCount. lia.
Qed.

(** X13: the search always returns its two maps.  They have the same
    keys, which are exactly the nodes of the graph (keys and edge
    destinations); no recorded distance is [NaN]; and every
    predecessor link follows a stored edge from the
    predecessor, the distance of the node being the predecessor's plus
    the weight of that edge. *)
Theorem executeDijkstraInternal_maps (g : Graph) (s : Node) :
  exists r,
    executeDijkstraInternal g s = Some r /\
    map_keys (distances r) = map_keys (previous r) /\
    (forall v, In v (map_keys (distances r)) <-> known g v) /\
    (forall v, distanceOf (distances r) v = PInf \/
               jslt (distanceOf (distances r) v) PInf = true) /\
    (forall v u, previousOf (previous r) v = Some u ->
       exists e, In e (neighborsOf g u) /\ to e = v /\
                 distanceOf (distances r) v
                 = jsadd (distanceOf (distances r) u) (weight e)).
Proof.
  destruct (executeDijkstraInternal_total g s) as [r Hr].
  exists r. split; [assumption|].
  destruct (executeDijkstraInternal_inv g s r Hr)
    as (st & Hinv & _ & -> & ->).
  split; [exact (inv_keys _ _ _ Hinv)|].
  split; [exact (inv_known _ _ _ Hinv)|].
  split; [intro v; exact (search_inv_distance g s st v Hinv)|].
  intros v u Hp.
  destruct (inv_edge _ _ _ Hinv v u Hp) as (e & H1 & H2 & H3 & _).
  eauto.
Qed.

(** X14: a returned path never visits a node twice; all its nodes are
    nodes of the graph, so it is no longer than the graph has nodes. *)
Theorem findPaths_path_simple (g : Graph) (s t : Node) (sp : ShortestPath) :
  findPaths g s t = Some (Ok sp) ->
  NoDup (path sp) /\
  (forall x, In x (path sp) -> known g x) /\
  (length (path sp) <= length (extractAllNodes g))%nat.
Proof.
  intro Hfind.
  assert (Hnd : NoDup (path sp)).
  { destruct (findPaths_Ok_inv _ _ _ _ Hfind) as [Hne Hhas].
    destruct (findPaths_unfold g s t Hne Hhas) as (st & Hinv & _ & E).
    rewrite E in Hfind. clear E.
    destruct (negb _); [discriminate|].
    destruct (jsnum_strict_eq _ _); [discriminate|].
    destruct (walkBack _ _ _ _) as [p|] eqn:Ew; [|discriminate].
    inversion Hfind. subst sp. cbn [path].
    refine (walkBack_simple (st_previous st) (index_of (st_visited st))
              (inv_rank _ _ _ Hinv) _ _ [] p (NoDup_nil _) _ Ew).
    intros v x _ []. }
  assert (Hkn : forall x, In x (path sp) -> known g x).
  { destruct (findPaths_Ok_inv _ _ _ _ Hfind) as [_ Hhas].
    destruct (findPaths_Ok_walk _ _ _ _ Hfind)
      as (st & es & _ & _ & HW & Hp & _).
    rewrite Hp. apply (Walk_nodes_known g s es t); [|assumption].
    left. now apply map_has_In_keys. }
  split; [assumption|]. split; [assumption|].
  apply NoDup_incl_length; [assumption|].
  intros x Hx. apply extractAllNodes_In. now apply Hkn.
Qed.

Lemma findPaths_path_simple_witness :
  findPaths basicGraph (NStr "A") (NStr "E")
  = Some (Ok (mkShortestPath
                [NStr "A"; NStr "B"; NStr "D"; NStr "E"] (Fin 11))) /\
  NoDup [NStr "A"; NStr "B"; NStr "D"; NStr "E"] /\
  (forall x, In x [NStr "A"; NStr "B"; NStr "D"; NStr "E"] ->
             known basicGraph x) /\
  (4 <= length (extractAllNodes basicGraph))%nat.
Proof.
  assert (H : findPaths basicGraph (NStr "A") (NStr "E")
              = Some (Ok (mkShortestPath
                            [NStr "A"; NStr "B"; NStr "D"; NStr "E"]
                            (Fin 11))))
    by reflexivity.
  split; [exact H|].
  exact (findPaths_path_simple basicGraph (NStr "A") (NStr "E") _ H).
Defined.

(** X15: on a graph on which no edge is stored under a falsy node and
    the weights along every walk from the start that repeats no node
    add up to a finite number, a query from a key other than [NaN]
    succeeds exactly when some walk along stored edges leads from the
    start to the target. *)
Theorem findPaths_succeeds_iff_reachable (g : Graph) (s t : Node) :
  In s (map_keys g) ->
  s <> NNum NaN ->
  falsy_nodes_are_sinks g ->
  path_sums_finite g s ->
  ((exists sp, findPaths g s t = Some (Ok sp)) <->
   exists es, Walk g s es t).
Proof.
  intros Hs Hnan Hsink Hsafe. split.
  - intros [sp Hfind].
    destruct (findPaths_Ok_walk _ _ _ _ Hfind) as (st & es & _ & _ & HW & _).
    eauto.
  - intros [es HW].
    assert (Hne : g <> []) by (intros ->; contradiction).
    assert (Hhas : map_has g s = true) by now apply map_has_In_keys.
    destruct (findPaths_unfold_with g s t (safe_inv g s) Hne Hhas
                (safe_inv_init g s Hs)
                (fun st => safe_inv_step g s st Hsafe))
      as (st & Hinv & [Hreach _] & Hq & E).
    rewrite E. clear E.
    assert (Hk : map_has (st_distances st) t = true).
    { apply (map_has_distances g s st t Hinv).
      exact (Walk_end_known g s es t (or_introl Hs) HW). }
    rewrite Hk. simpl negb. cbv iota.
    destruct (search_reaches g s st Hsink Hs Hnan Hinv Hreach Hq es t HW)
      as [Hd _].
    destruct (jsnum_strict_eq (distanceOf (st_distances st) t) PInf)
      eqn:Einf.
    { apply jsnum_strict_eq_PInf in Einf. rewrite Einf in Hd.
      discriminate. }
    destruct (search_inv_walkBack g s st t Hinv) as [p Hp].
    rewrite Hp. eauto.
Qed.

Lemma findPaths_succeeds_iff_reachable_witness :
  In (NStr "A") (map_keys disconnectedGraph) /\
  NStr "A" <> NNum NaN /\
  falsy_nodes_are_sinks disconnectedGraph /\
  path_sums_finite disconnectedGraph (NStr "A") /\
  ((exists sp, findPaths disconnectedGraph (NStr "A") (NStr "B")
               = Some (Ok sp)) <->
   exists es, Walk disconnectedGraph (NStr "A") es (NStr "B")).
Proof.
  assert (H1 : In (NStr "A") (map_keys disconnectedGraph))
    by (simpl; tauto).
  assert (H2 : NStr "A" <> NNum NaN) by discriminate.
  assert (H3 : falsy_nodes_are_sinks disconnectedGraph)
    by (apply falsy_sinks_b_spec; reflexivity).
  assert (H4 : path_sums_finite disconnectedGraph (NStr "A")).
  { apply (bounded_sums_finite disconnectedGraph (NStr "A") 2).
    - left. exact H1.
    - apply weights_within_b_spec. reflexivity.
    - reflexivity. }
  split; [exact H1|]. split; [exact H2|]. split; [exact H3|].
  split; [exact H4|].
  exact (findPaths_succeeds_iff_reachable disconnectedGraph
           (NStr "A") (NStr "B") H1 H2 H3 H4).
Defined.

(** X16: building and searching compose.  On a built graph none of
    whose nodes is [0], the empty string or [NaN], the query along any
    input edge whose weight is a number of JavaScript, from its [from]
    to its [to], succeeds, at a distance that is not negative and not
    above the weight of that edge. *)
Theorem findPaths_along_input_edge (raw : list RawEdge) (g : Graph)
  (e : Edge) :
  buildGraph raw = Ok g ->
  graph_nodes_truthy g ->
  In e (typed_edges raw) ->
  (forall z, weight e = Fin z -> is_double z) ->
  exists sp d w,
    findPaths g (from e) (to e) = Some (Ok sp) /\
    distance sp = Fin d /\ weight e = Fin w /\ 0 <= d <= w.
Proof.
  intros Hb Htruthy He Hdbl.
  pose proof (buildGraph_weights_valid raw g Hb) as Hvalid.
  pose proof Hb as Hb'. apply buildGraph_Ok in Hb'.
  destruct Hb' as (_ & _ & Hg).
  pose proof (buildAdjacencyList_adjacency (typed_edges raw)) as Hadj.
  rewrite <- Hg in Hadj.
  pose proof (adjacency_edge_stored _ g e Hadj He) as Hst.
  assert (Hs : In (from e) (map_keys g)).
  { destruct Hadj as (_ & Hk & _). apply Hk. left. now apply in_map. }
  assert (HW : Walk g (from e) ([] ++ [e]) (to e)).
  { exact (Walk_snoc g (from e) [] (from e) e (Walk_nil g (from e)) Hst). }
  destruct (neighborsOf_values g (from e) e Hst) as (l & Hl1 & Hl2).
  destruct (Hvalid l e Hl1 Hl2) as (w & Hw & _).
  assert (Hwe : weight_of ([] ++ [e]) = Fin w).
  { unfold weight_of. simpl. rewrite Hw. apply jsadd_zero_l.
    now apply Hdbl. }
  assert (Hne : g <> []) by (intros ->; contradiction).
  assert (Hhas : map_has g (from e) = true) by now apply map_has_In_keys.
  assert (Hf : node_falsy (from e) = false) by (apply Htruthy; now left).
  destruct (findPaths_unfold_with g (from e) (to e) (opt_inv g) Hne Hhas
              (opt_inv_init g (from e) Hs Hf)
              (fun st => opt_inv_step g st Hvalid))
    as (st & Hinv & Hopt & Hq & E).
  pose proof (search_optimal g (from e) st Htruthy Hvalid Hs Hinv Hopt Hq
                ([] ++ [e]) (to e) HW) as Hle.
  rewrite Hwe in Hle.
  destruct (rc_fin _ _ (proj1 Hopt) (to e)) as [Hd|[d Hd]];
    rewrite Hd in Hle; [discriminate|].
  simpl in Hle. apply Z.ltb_ge in Hle.
  assert (Hk : map_has (st_distances st) (to e) = true).
  { apply (map_has_distances g (from e) st (to e) Hinv).
    exact (Walk_end_known g (from e) ([] ++ [e]) (to e)
             (or_introl Hs) HW). }
  rewrite Hk, Hd in E. simpl negb in E. cbv iota in E.
  simpl jsnum_strict_eq in E. cbv iota in E.
  destruct (search_inv_walkBack g (from e) st (to e) Hinv) as [p Hp].
  rewrite Hp in E.
  destruct (findPaths_built_distance raw g _ _ _ Hb E) as (z & Hz & Hz0).
  simpl in Hz. inversion Hz. subst z.
  eexists. exists d, w. split; [exact E|]. split; [reflexivity|].
  split; [assumption|]. lia.
Qed.

Lemma findPaths_along_input_edge_witness :
  buildGraph basicEdges = Ok basicGraph /\
  graph_nodes_truthy basicGraph /\
  In (mkEdge (NStr "C") (NStr "E") (Fin 10)) (typed_edges basicEdges) /\
  (forall z, Fin 10 = Fin z -> is_double z) /\
  exists sp d w,
    findPaths basicGraph (NStr "C") (NStr "E") = Some (Ok sp) /\
    distance sp = Fin d /\ Fin 10 = Fin w /\ 0 <= d <= w.
Proof.
  assert (H1 : buildGraph basicEdges = Ok basicGraph) by reflexivity.
  assert (H2 : graph_nodes_truthy basicGraph)
    by (apply nodes_truthy_b_spec; reflexivity).
  assert (H3 : In (mkEdge (NStr "C") (NStr "E") (Fin 10))
                  (typed_edges basicEdges))
    by (simpl; tauto).
  assert (H4 : forall z, Fin 10 = Fin z -> is_double z)
    by (intros z E; inversion E; reflexivity).
  split; [exact H1|]. split; [exact H2|]. split; [exact H3|].
  split; [exact H4|].
  exact (findPaths_along_input_edge basicEdges basicGraph
           (mkEdge (NStr "C") (NStr "E") (Fin 10)) H1 H2 H3 H4).
Defined.

(* ================================================================= *)
(** * The analysis *)

(** X17: the analysis fails, with [EmptyGraph], only on the graph
    without keys.  On every other graph, a [NaN] node included, it
    returns: the components are non-empty, list every node of the graph
    exactly once between them, and any two nodes of one component are
    linked by edges read in either direction; the node count is the
    number of listed nodes, the edge count the number of stored edges;
    and when [isConnected] is set, any two nodes of the graph are
    linked. *)
Theorem analyzeGraph_partition (g : Graph) :
  (g = [] /\ analyzeGraph g = Some (Err EmptyGraph)) \/
  (g <> [] /\
   exists a : GraphAnalysis,
     analyzeGraph g = Some (Ok a) /\
     NoDup (concat (components a)) /\
     (forall v, In v (concat (components a)) <-> known g v) /\
     (forall comp, In comp (components a) ->
        comp <> [] /\
        forall u v, In u comp -> In v comp -> Connected g u v) /\
     nodeCount a = length (concat (components a)) /\
     edgeCount a = length (concat (map_values g)) /\
     (isConnected a = true ->
      forall u v, known g u -> known g v -> Connected g u v)).
Proof.
  destruct g as [|[k es] r]; [left; split; reflexivity|].
  right. split; [discriminate|].
  set (g := (k, es) :: r).
  destruct (analyzeGraph_sound g) as (cs & V & Ha & HI & Hsame);
    [discriminate|].
  eexists. split; [exact Ha|].
  cbn [components nodeCount edgeCount isConnected]. destruct HI.
  split; [assumption|]. split; [assumption|]. split; [assumption|].
  split; [|split].
  - apply Permutation_length, NoDup_Permutation;
      [apply extractAllNodes_NoDup|assumption|].
    intro v. now rewrite extractAllNodes_In, Hsame.
  - apply calculateEdgeCount_sum.
  - intros Hone u v Hu Hv. apply Nat.leb_le in Hone.
    apply Hsame in Hu. apply Hsame in Hv.
    destruct cs as [|c [|c' cs']]; [contradiction| |simpl in Hone; lia].
    simpl in Hu, Hv. rewrite app_nil_r in Hu, Hv.
    apply (pi_connected0 c); [now left|assumption|assumption].
Qed.

(** X18: on a non-empty graph with distinct keys and no [NaN] node,
    [isConnected] is set exactly when any two nodes of the graph are
    linked by edges read in either direction. *)
Theorem analyzeGraph_isConnected (g : Graph) :
  g <> [] -> NoDup (map_keys g) -> graph_nodes_not_NaN g ->
  exists a : GraphAnalysis,
    analyzeGraph g = Some (Ok a) /\
    (isConnected a = true <->
     forall u v, known g u -> known g v -> Connected g u v).
Proof.
  intros Hne ND Hnan.
  destruct (analyzeGraph_classes g Hne ND Hnan) as (cs & V & Ha & HI & Hsame).
  eexists. split; [exact Ha|]. cbn [isConnected]. destruct HI.
  rewrite Nat.leb_le. split.
  - intros Hone u v Hu Hv. apply Hsame in Hu. apply Hsame in Hv.
    destruct cs as [|c [|c' cs']]; [contradiction| |simpl in Hone; lia].
    simpl in Hu, Hv. rewrite app_nil_r in Hu, Hv.
    destruct (ci_class0 c (or_introl eq_refl)) as [_ Hc].
    now apply (Hc u Hu v).
  - intro Hall. destruct cs as [|c1 [|c2 cs']]; simpl; [lia|lia|].
    exfalso.
    destruct (ci_class0 c1 (or_introl eq_refl)) as [Hne1 Hc1].
    destruct (ci_class0 c2 (or_intror (or_introl eq_refl))) as [Hne2 _].
    destruct c1 as [|u c1']; [contradiction|].
    destruct c2 as [|v c2']; [contradiction|].
    assert (Hu : In u (concat ((u :: c1') :: (v :: c2') :: cs')))
      by (simpl; now left).
    assert (Hv : In v (concat ((u :: c1') :: (v :: c2') :: cs'))).
    { simpl. right. apply in_app_iff. right. now left. }
    assert (Hv1 : In v (u :: c1')).
    { apply (Hc1 u (or_introl eq_refl) v).
      apply Hall; now apply Hsame. }
    apply (NoDup_app_disjoint (u :: c1') (concat ((v :: c2') :: cs')) v);
      [exact ci_nodup0|assumption|simpl; now left].
Qed.

Lemma analyzeGraph_isConnected_witness :
  basicGraph <> [] /\ NoDup (map_keys basicGraph) /\
  graph_nodes_not_NaN basicGraph /\
  exists a : GraphAnalysis,
    analyzeGraph basicGraph = Some (Ok a) /\
    (isConnected a = true <->
     forall u v, known basicGraph u -> known basicGraph v ->
                 Connected basicGraph u v).
Proof.
  assert (H1 : basicGraph <> []) by discriminate.
  assert (H2 : NoDup (map_keys basicGraph)).
  { simpl. repeat constructor; simpl; intuition discriminate. }
  assert (H3 : graph_nodes_not_NaN basicGraph)
    by (apply nodes_not_NaN_b_spec; reflexivity).
  split; [exact H1|]. split; [exact H2|]. split; [exact H3|].
  exact (analyzeGraph_isConnected basicGraph H1 H2 H3).
Defined.

(** X19: the analysis of a built graph always succeeds; its node count
    is the number of keys of the graph, its edge count the number of
    input edges, and its components list the keys, each one once. *)
Theorem analyzeGraph_of_built (raw : list RawEdge) (g : Graph) :
  buildGraph raw = Ok g ->
  exists a : GraphAnalysis,
    analyzeGraph g = Some (Ok a) /\
    nodeCount a = map_size g /\
    edgeCount a = length raw /\
    Permutation (concat (components a)) (map_keys g).
Proof.
  intro Hb. apply buildGraph_Ok in Hb. destruct Hb as (Hne & Hacc & Hg).
  pose proof (buildAdjacencyList_adjacency (typed_edges raw)) as Hadj.
  rewrite <- Hg in Hadj.
  assert (ND : NoDup (map_keys g)) by now destruct Hadj.
  assert (Hnodes : extractAllNodes g = map_keys g).
  { apply extractAllNodes_closed; [assumption|].
    intro v. now apply (adjacency_known_keys (typed_edges raw)). }
  assert (Hg0 : g <> []).
  { destruct raw as [|r l]; [contradiction|].
    inversion Hacc as [|? ? Hr _]. subst x l0.
    destruct (edge_accepted_as_edge r Hr) as (e & w & He & _).
    destruct Hadj as (_ & Hk & _).
    assert (Hin : In (from e) (map_keys g)).
    { apply Hk. left. simpl. rewrite He. simpl. now left. }
    intro E. rewrite E in Hin. contradiction. }
  destruct (analyzeGraph_sound g Hg0) as (cs & V & Ha & HI & Hsame).
  eexists. split; [exact Ha|]. cbn [components nodeCount edgeCount].
  destruct HI. split; [|split].
  - rewrite Hnodes. unfold map_keys, map_size. apply length_map.
  - rewrite calculateEdgeCount_sum, Hg.
    unfold buildAdjacencyList.
    rewrite (Permutation_length
               (fold_addEdge_edges (typed_edges raw) [])).
    simpl. rewrite app_nil_r. now apply typed_edges_length.
  - apply NoDup_Permutation; [assumption|assumption|].
    intro v. rewrite Hsame.
    now apply (adjacency_known_keys (typed_edges raw)).
Qed.

Lemma analyzeGraph_of_built_witness :
  buildGraph disconnectedEdges = Ok disconnectedGraph /\
  exists a : GraphAnalysis,
    analyzeGraph disconnectedGraph = Some (Ok a) /\
    nodeCount a = map_size disconnectedGraph /\
    edgeCount a = length disconnectedEdges /\
    Permutation (concat (components a)) (map_keys disconnectedGraph).
Proof.
  assert (H : buildGraph disconnectedEdges = Ok disconnectedGraph)
    by reflexivity.
  split; [exact H|].
  exact (analyzeGraph_of_built disconnectedEdges disconnectedGraph H).
Defined.

(** X20: the node list of the analysis holds every node of the graph
    (keys and edge destinations) exactly once; the keys come first, in
    the order of the map, and the destinations that are not keys
    follow. *)
Theorem extractAllNodes_nodes (g : Graph) :
  NoDup (extractAllNodes g) /\
  (forall v, In v (extractAllNodes g) <-> known g v) /\
  exists rest,
    extractAllNodes g = fold_left set_add (map_keys g) [] ++ rest /\
    forall v, In v rest -> ~ In v (map_keys g).
Proof.
  split; [apply extractAllNodes_NoDup|].
  split; [apply extractAllNodes_In|].
  unfold extractAllNodes. cbv zeta.
  destruct (fold_destinations_prefix
              (map_values g) (fold_left set_add (map_keys g) []))
    as [rest E].
  exists rest. split; [exact E|].
  intros v Hv Hk.
  pose proof (extractAllNodes_NoDup g) as ND.
  unfold extractAllNodes in ND. cbv zeta in ND. rewrite E in ND.
  apply (NoDup_app_disjoint _ _ v ND); [|assumption].
  apply fold_set_add_In. now left.
Qed.

(* ================================================================= *)
(** * The shortest among several targets *)

(** X21: on edges that build a graph, [findShortestAmongMultiple]
    always returns.  It returns [null] exactly when the query fails for
    every target; otherwise it returns the answer of the query for one
    of the targets, and no target has an answer at a smaller distance.
    It writes one line per failing target, in the order of the targets,
    and nothing else. *)
Theorem findShortestAmongMultiple_minimal (edges : list RawEdge) (g : Graph)
  (start : string) (targets : list string) :
  buildGraph edges = Ok g ->
  exists res log,
    findShortestAmongMultiple edges start targets = Some (res, log) /\
    (res = None <->
     forall t, In t targets ->
       exists e, findPaths g (NStr start) (NStr t) = Some (Err e)) /\
    (forall sp, res = Some sp ->
       (exists t, In t targets /\
                  findPaths g (NStr start) (NStr t) = Some (Ok sp)) /\
       forall t sp', In t targets ->
         findPaths g (NStr start) (NStr t) = Some (Ok sp') ->
         exists d d', distance sp = Fin d /\ distance sp' = Fin d' /\
                      d <= d') /\
    log = failures g (NStr start) (map NStr targets).
Proof.
  intro Hb. unfold findShortestAmongMultiple. rewrite Hb.
  rewrite shortestAmong_fold. simpl app.
  set (s := NStr start). set (ts := map NStr targets).
  exists (fold_left pickShorter (successes g s ts) None),
         (failures g s ts).
  split; [reflexivity|].
  assert (Hfin : forall x, In x (successes g s ts) ->
                           exists z, distance x = Fin z).
  { intros x Hx. apply successes_In in Hx. destruct Hx as (t & _ & Ht).
    destruct (findPaths_built_distance edges g s t x Hb Ht) as (z & Hz & _).
    eauto. }
  destruct (fold_pickShorter_minimal (successes g s ts) Hfin None)
    as [Hnone Hsome]; [discriminate|].
  split; [|split; [|reflexivity]].
  - rewrite Hnone. split.
    + intros [_ Hnil] t Ht.
      destruct (findPaths_total g s (NStr t)) as [[p|e] Hres]; [|eauto].
      exfalso.
      assert (Hin : In p (successes g s ts)).
      { apply successes_In. exists (NStr t). split; [|assumption].
        now apply in_map. }
      rewrite Hnil in Hin. contradiction.
    + intro Hall. split; [reflexivity|].
      destruct (successes g s ts) as [|p l] eqn:E; [reflexivity|].
      exfalso.
      assert (Hin : In p (successes g s ts)) by (rewrite E; now left).
      apply successes_In in Hin. destruct Hin as (t & Ht & Hp).
      apply in_map_iff in Ht. destruct Ht as (t0 & <- & Ht0).
      destruct (Hall t0 Ht0) as [e He]. fold s in He. congruence.
  - intros sp Hsp. destruct (Hsome sp Hsp) as (Hin & d & Hd & _ & Hle).
    split.
    + destruct Hin as [Hin|Hin]; [discriminate|].
      apply successes_In in Hin. destruct Hin as (t & Ht & Hp).
      apply in_map_iff in Ht. destruct Ht as (t0 & <- & Ht0). eauto.
    + intros t sp' Ht Hp.
      destruct (Hle sp') as (d' & Hd' & Hdd'); [|eauto].
      apply successes_In. exists (NStr t). split; [|assumption].
      now apply in_map.
Qed.

Lemma findShortestAmongMultiple_minimal_witness :
  buildGraph testEdges = Ok (buildAdjacencyList (typed_edges testEdges)) /\
  findShortestAmongMultiple testEdges "S" ["T1"; "T2"; "T3"]%string
  = Some (Some (mkShortestPath [NStr "S"; NStr "B"; NStr "T3"] (Fin 8)),
          []) /\
  findShortestAmongMultiple testEdges "S" ["X"; "T2"; "S"]%string
  = Some (Some (mkShortestPath [NStr "S"] (Fin 0)),
          [QueryFailed (NStr "S") (NStr "X") "NodeNotFound"]) /\
  exists res log,
    findShortestAmongMultiple testEdges "S" ["T1"; "T2"; "T3"]%string
    = Some (res, log) /\
    (res = None <->
     forall t, In t ["T1"; "T2"; "T3"]%string ->
       exists e, findPaths (buildAdjacencyList (typed_edges testEdges))
                           (NStr "S") (NStr t) = Some (Err e)) /\
    (forall sp, res = Some sp ->
       (exists t, In t ["T1"; "T2"; "T3"]%string /\
                  findPaths (buildAdjacencyList (typed_edges testEdges))
                            (NStr "S") (NStr t) = Some (Ok sp)) /\
       forall t sp', In t ["T1"; "T2"; "T3"]%string ->
         findPaths (buildAdjacencyList (typed_edges testEdges))
                   (NStr "S") (NStr t) = Some (Ok sp') ->
         exists d d', distance sp = Fin d /\ distance sp' = Fin d' /\
                      d <= d') /\
    log = failures (buildAdjacencyList (typed_edges testEdges))
                   (NStr "S") (map NStr ["T1"; "T2"; "T3"]%string).
Proof.
  assert (H : buildGraph testEdges
              = Ok (buildAdjacencyList (typed_edges testEdges)))
    by reflexivity.
  split; [exact H|]. split; [reflexivity|]. split; [reflexivity|].
  exact (findShortestAmongMultiple_minimal testEdges _ "S"
           ["T1"; "T2"; "T3"]%string H).
Defined.
